(** * BleManager.js: mediation layer and device-protocol codecs

    A shallow embedding of [src/BleManager.js] and the properties of its
    binary codecs (checksums, base64 framing, device command frames) and of
    its transaction-keyed mediation layer (promise registry, monitor
    subscriptions, teardown).

    Conventions of the embedding:
    - a JavaScript number is either an integer ([Num z]) or [NaN]; fractional
      values and infinities are outside the model;
    - a [Uint8Array] is a [list Z] whose elements lie in [0, 256); storing
      into it converts as the language does ([ToUint8], [NaN] becomes 0) and a
      store past the end is ignored;
    - a string is a [string]; indices are [nat];
    - objects with closures ([Subscription], promise reject functions) are
      defunctionalised: a constructor holds the captured variables and an
      interpreter runs the body. *)

From Stdlib Require Import ZArith Lia Ascii String List.
From stdpp Require Import base option list gmap strings pretty.

Local Open Scope Z_scope.

(** ** JavaScript primitives used by the code *)

Module JS.

(** Numbers. *)
Inductive number : Type :=
| Num (z : Z)
| NaN.

(** Values that occur as array elements or arguments. *)
Inductive value : Type :=
| VNumber (n : number)
| VString (s : string)
| VBool (b : bool)
| VNull
| VUndefined.

Definition two32 : Z := 4294967296.
Definition two31 : Z := 2147483648.

(** [ToInt32]: wrap into the signed 32-bit range. *)
Definition toInt32z (z : Z) : Z := (z + two31) mod two32 - two31.

Definition ToInt32 (n : number) : Z :=
  match n with
  | Num z => toInt32z z
  | NaN => 0
  end.

(** [ToUint8] and [ToUint16], the conversions of typed-array stores. *)
Definition ToUint8 (n : number) : Z :=
  match n with
  | Num z => z mod 256
  | NaN => 0
  end.

Definition ToUint16 (n : number) : Z :=
  match n with
  | Num z => z mod 65536
  | NaN => 0
  end.

(** The bitwise operators work on [ToInt32] of their operands and give a
    signed 32-bit result. *)
Definition bxor (a b : number) : number :=
  Num (toInt32z (Z.lxor (ToInt32 a) (ToInt32 b))).
Definition band (a b : number) : number :=
  Num (toInt32z (Z.land (ToInt32 a) (ToInt32 b))).
Definition bor (a b : number) : number :=
  Num (toInt32z (Z.lor (ToInt32 a) (ToInt32 b))).
Definition shl (a b : number) : number :=
  Num (toInt32z (Z.shiftl (ToInt32 a) (ToInt32 b mod 32))).
Definition shr (a b : number) : number :=
  Num (toInt32z (Z.shiftr (ToInt32 a) (ToInt32 b mod 32))).

Definition add (a b : number) : number :=
  match a, b with
  | Num x, Num y => Num (x + y)
  | _, _ => NaN
  end.

(** [a % b] on integers: the result takes the sign of the dividend. *)
Definition rem (a b : number) : number :=
  match a, b with
  | Num x, Num y => if y =? 0 then NaN else Num (Z.rem x y)
  | _, _ => NaN
  end.

(** Characters. *)
Definition is_whitespace (c : ascii) : bool :=
  let n := nat_of_ascii c in
  ((n =? 32) || (n =? 9) || (n =? 10) || (n =? 11) || (n =? 12) || (n =? 13))%nat.

(** Value of a character as a digit: ['0'..'9'], ['a'..'z'], ['A'..'Z']. *)
Definition digit_value (c : ascii) : option Z :=
  let n := Z.of_nat (nat_of_ascii c) in
  if (48 <=? n) && (n <=? 57) then Some (n - 48)
  else if (97 <=? n) && (n <=? 122) then Some (n - 97 + 10)
  else if (65 <=? n) && (n <=? 90) then Some (n - 65 + 10)
  else None.

Definition digit_in_radix (radix : Z) (c : ascii) : option Z :=
  match digit_value c with
  | Some d => if d <? radix then Some d else None
  | None => None
  end.

Fixpoint skip_whitespace (s : string) : string :=
  match s with
  | String c s' => if is_whitespace c then skip_whitespace s' else s
  | EmptyString => s
  end.

(** Longest prefix of digits of [s] in [radix], read as a number;
    [None] when there is no digit. *)
Fixpoint parse_digits (radix : Z) (acc : option Z) (s : string) : option Z :=
  match s with
  | String c s' =>
      match digit_in_radix radix c with
      | Some d => parse_digits radix (Some (default 0 acc * radix + d)) s'
      | None => acc
      end
  | EmptyString => acc
  end.

Definition strip_hex_prefix (s : string) : option string :=
  match s with
  | String "0" (String "x" s') => Some s'
  | String "0" (String "X" s') => Some s'
  | _ => None
  end.

(** [parseInt(string, radix)]: leading white space, a sign, for radix 16 (or
    no radix) a [0x] / [0X] prefix, then the longest run of digits. [radix]
    is [None] when the argument is omitted. *)
Definition parseInt (s : string) (radix : option Z) : number :=
  let s := skip_whitespace s in
  let '(sign, s) :=
    match s with
    | String "-" s' => (-1, s')
    | String "+" s' => (1, s')
    | _ => (1, s)
    end in
  let '(r, s) :=
    match radix with
    | Some 16 => (16, default s (strip_hex_prefix s))
    | Some r => (r, s)
    | None =>
        match strip_hex_prefix s with
        | Some s' => (16, s')
        | None => (10, s)
        end
    end in
  match parse_digits r None s with
  | Some z => Num (sign * z)
  | None => NaN
  end.

Fixpoint all_digits (radix : Z) (s : string) : bool :=
  match s with
  | String c s' => bool_decide (is_Some (digit_in_radix radix c)) && all_digits radix s'
  | EmptyString => true
  end.

(** [ToNumber] of a string, for integer literals: the empty string is 0, a
    [0x] / [0X] literal is hexadecimal, an optionally signed run of decimal
    digits is decimal, anything else is [NaN]. (White space is not trimmed
    and fractional or exponent forms are not recognised here.) *)
Definition StringToNumber (s : string) : number :=
  match s with
  | EmptyString => Num 0
  | _ =>
      match strip_hex_prefix s with
      | Some h =>
          match h with
          | EmptyString => NaN
          | _ => if all_digits 16 h then parseInt h (Some 16) else NaN
          end
      | None =>
          let body :=
            match s with
            | String "-" s' => s'
            | String "+" s' => s'
            | _ => s
            end in
          match body with
          | EmptyString => NaN
          | _ => if all_digits 10 body then parseInt s (Some 10) else NaN
          end
      end
  end.

Definition ToNumber (v : value) : number :=
  match v with
  | VNumber n => n
  | VString s => StringToNumber s
  | VBool b => Num (if b then 1 else 0)
  | VNull => Num 0
  | VUndefined => NaN
  end.

(** The global [isNaN] converts its argument first. *)
Definition isNaN (v : value) : bool :=
  match ToNumber v with
  | NaN => true
  | Num _ => false
  end.

(** [Number.prototype.toString(radix)] on a non-negative integer, with
    lower-case digits. *)
Definition digit_char (d : Z) : ascii :=
  if d <? 10 then ascii_of_nat (Z.to_nat (48 + d))
  else ascii_of_nat (Z.to_nat (97 + d - 10)).

Fixpoint to_digits (fuel : nat) (radix z : Z) (acc : string) : string :=
  match fuel with
  | O => acc
  | S fuel' =>
      let acc' := String (digit_char (z mod radix)) acc in
      if z / radix =? 0 then acc' else to_digits fuel' radix (z / radix) acc'
  end.

(** [fuel] is the number of binary digits, which bounds the number of digits
    in any radix. *)
Definition toString (n : number) (radix : Z) : string :=
  match n with
  | NaN => "NaN"
  | Num z =>
      if z <? 0 then String "-" (to_digits (S (Z.to_nat (Z.log2 (- z)))) radix (- z) EmptyString)
      else to_digits (S (Z.to_nat (Z.log2 z))) radix z EmptyString
  end.

(** [String.prototype.slice(start, end)] for non-negative arguments. *)
Definition slice (s : string) (start stop : nat) : string :=
  substring start (stop - start) s.

(** [String.prototype.substr(-n)]: the last [n] characters. *)
Definition substr_last (s : string) (n : nat) : string :=
  substring (String.length s - n) n s.

(** [s[i]] followed by string concatenation: one character, or the text of
    [undefined] past the end. *)
Definition char_at (s : string) (i : Z) : string :=
  match (if i <? 0 then None else String.get (Z.to_nat i) s) with
  | Some c => String c EmptyString
  | None => "undefined"
  end.

(** *** Typed arrays *)

(** [new Uint8Array(n)]. *)
Definition new_Uint8Array (n : nat) : list Z := replicate n 0.

(** [new Uint8Array([v0, v1, ...])] and [new Uint8Array(typedArray)]:
    element-wise conversion. *)
Definition Uint8Array_from (vs : list value) : list Z :=
  (λ v, ToUint8 (ToNumber v)) <$> vs.

Definition Uint16Array_from (vs : list value) : list Z :=
  (λ v, ToUint16 (ToNumber v)) <$> vs.

Definition Uint8Array_of_numbers (zs : list Z) : list Z :=
  (λ z, ToUint8 (Num z)) <$> zs.

(** [a[i] = v] on a [Uint8Array]; out of range it does nothing. *)
Definition set8 (a : list Z) (i : nat) (v : number) : list Z :=
  <[i := ToUint8 v]> a.

(** [a[i]] on a typed array in a bitwise context: [undefined] past the end,
    which the bitwise operators read as 0. *)
Definition get8 (a : list Z) (i : nat) : number :=
  match a !! i with
  | Some b => Num b
  | None => NaN
  end.

End JS.

Import JS.

(** ** Checksums *)

(** [calculateChecksum(array)]: the sum of the elements, masked to 8 bits. *)
Definition calculateChecksum (array : list Z) : Z :=
  let sum := fold_left (λ sum x, sum + x) array 0 in
  ToInt32 (band (Num sum) (Num 255)).

(** The loop of [XOR], from index [i] on. *)
Fixpoint XOR_loop (input : list value) (total : number) : number :=
  match input with
  | [] => total
  | v :: rest =>
      if isNaN v then XOR_loop rest total
      else XOR_loop rest (bxor total (ToNumber v))
  end.

(** [XOR(input)] on an array: [total] starts as [Number(input[0])] and the loop
    then runs from index 0. (On a non-array the function returns [false];
    arrays are the only inputs modelled.) *)
Definition XOR (input : list value) : number :=
  let total := ToNumber (default VUndefined (input !! 0%nat)) in
  XOR_loop input total.

(** ** Binary-to-text framing *)

Definition encodings : string :=
  "ABCDEFGHIJKLMNOPQRSTUVWXYZabcdefghijklmnopqrstuvwxyz0123456789+/".

(** [encodings[a]] in a string concatenation. *)
Definition encodings_at (a : number) : string :=
  match a with
  | Num z => char_at encodings z
  | NaN => "undefined"
  end.

(** The main loop of [base64ArrayBuffer]:
    [for (var i = 0; i < mainLength; i = i + 3)]. [fuel] bounds the number of
    iterations; [mainLength] iterations are never needed. *)
Fixpoint base64_main_loop (fuel : nat) (bytes : list Z) (mainLength i : nat)
    (base64 : string) : string :=
  match fuel with
  | O => base64
  | S fuel' =>
      if (i <? mainLength)%nat then
        let chunk :=
          bor (bor (shl (get8 bytes i) (Num 16)) (shl (get8 bytes (i + 1)) (Num 8)))
              (get8 bytes (i + 2)) in
        let a := shr (band chunk (Num 16515072)) (Num 18) in
        let b := shr (band chunk (Num 258048)) (Num 12) in
        let c := shr (band chunk (Num 4032)) (Num 6) in
        let d := band chunk (Num 63) in
        base64_main_loop fuel' bytes mainLength (i + 3)
          (base64 +:+ (((encodings_at a +:+ encodings_at b) +:+ encodings_at c)
                        +:+ encodings_at d))
      else base64
  end.

(** [base64ArrayBuffer(arrayBuffer)]. The argument is a typed array or an
    array of numbers; [new Uint8Array(arrayBuffer)] converts it element by
    element. *)
Definition base64ArrayBuffer (arrayBuffer : list Z) : string :=
  let bytes := Uint8Array_of_numbers arrayBuffer in
  let byteLength := length bytes in
  let byteRemainder := (byteLength mod 3)%nat in
  let mainLength := (byteLength - byteRemainder)%nat in
  let base64 := base64_main_loop mainLength bytes mainLength 0 EmptyString in
  if (byteRemainder =? 1)%nat then
    let chunk := get8 bytes mainLength in
    let a := shr (band chunk (Num 252)) (Num 2) in
    let b := shl (band chunk (Num 3)) (Num 4) in
    base64 +:+ ((encodings_at a +:+ encodings_at b) +:+ "==")
  else if (byteRemainder =? 2)%nat then
    let chunk := bor (shl (get8 bytes mainLength) (Num 8)) (get8 bytes (mainLength + 1)) in
    let a := shr (band chunk (Num 64512)) (Num 10) in
    let b := shr (band chunk (Num 1008)) (Num 4) in
    let c := shl (band chunk (Num 15)) (Num 2) in
    base64 +:+ (((encodings_at a +:+ encodings_at b) +:+ encodings_at c) +:+ "=")
  else base64.

(** *** The standard decoder (RFC 4648), the reference the encoder is compared
    with. Every group of four symbols stands for 24 bits; a final group ending
    in one or two [=] stands for two bytes or one. *)
Module Base64Std.

Fixpoint position (c : ascii) (alphabet : string) (i : Z) : option Z :=
  match alphabet with
  | String a rest => if Ascii.eqb a c then Some i else position c rest (i + 1)
  | EmptyString => None
  end.

Definition sextet (c : ascii) : option Z := position c encodings 0.

Definition pad : ascii := "="%char.

Fixpoint decode (s : string) : option (list Z) :=
  match s with
  | EmptyString => Some []
  | String c0 (String c1 (String c2 (String c3 rest))) =>
      if Ascii.eqb c3 pad then
        match rest with
        | EmptyString =>
            if Ascii.eqb c2 pad then
              v0 ← sextet c0; v1 ← sextet c1;
              Some [(v0 * 4 + v1 / 16) mod 256]
            else
              v0 ← sextet c0; v1 ← sextet c1; v2 ← sextet c2;
              let n := v0 * 4096 + v1 * 64 + v2 in
              Some [(n / 1024) mod 256; (n / 4) mod 256]
        | _ => None
        end
      else
        v0 ← sextet c0; v1 ← sextet c1; v2 ← sextet c2; v3 ← sextet c3;
        let n := v0 * 262144 + v1 * 4096 + v2 * 64 + v3 in
        tl ← decode rest;
        Some ((n / 65536) mod 256 :: (n / 256) mod 256 :: n mod 256 :: tl)
  | _ => None
  end.

(** Number of [=] characters at the end of a string. *)
Fixpoint trailing_pads (s : string) : nat :=
  match s with
  | EmptyString => O
  | String c rest =>
      match rest with
      | EmptyString => if Ascii.eqb c pad then 1%nat else O
      | _ =>
          let k := trailing_pads rest in
          if (k =? String.length rest)%nat && Ascii.eqb c pad then S k else k
      end
  end.

End Base64Std.

(** ** Device command frames

    The numeric arguments of the codecs are JavaScript numbers; the frame
    builders below are the synchronous part of each operation, up to the value
    handed to [base64ArrayBuffer]. *)

Definition lt (a b : number) : bool :=
  match a, b with
  | Num x, Num y => x <? y
  | _, _ => false
  end.

Definition gt (a b : number) : bool := lt b a.

(** [parseInt(x)] on a number: the argument is converted to a string first. *)
Definition parseInt_number (n : number) : number := parseInt (JS.toString n 10) None.

(** Writes [a[i] = v], [a[i+1] = ...] in sequence. *)
Definition set8_all (a : list Z) (stores : list (nat * number)) : list Z :=
  fold_left (λ a '(i, v), set8 a i v) stores a.

(** The [uint16] array of [setUserProfileToAlternativeScale]. *)
Definition setUserProfileToAlternativeScale_uint16
    (user : string) (age height gender : number) : list Z :=
  let heightUnit := if lt height (Num 100) then Num 100
                    else if gt height (Num 218) then Num 218 else height in
  let ageUnit := if lt age (Num 10) then Num 10
                 else if gt age (Num 98) then Num 98 else age in
  let uint16 := new_Uint8Array 13 in
  set8_all uint16
    [ (0%nat, Num 129); (1%nat, Num 0); (2%nat, Num 129);
      (3%nat, parseInt (slice user 0 2) (Some 16));
      (4%nat, parseInt (slice user 2 4) (Some 16));
      (5%nat, parseInt (slice user 4 6) (Some 16));
      (6%nat, parseInt (slice user 6 8) (Some 16));
      (7%nat, Num 0);
      (8%nat, parseInt_number heightUnit);
      (9%nat, parseInt_number ageUnit);
      (10%nat, parseInt_number gender);
      (11%nat, Num 0); (12%nat, Num 0) ].

(** The [array] of [setUserProfileToScales], a [Uint16Array]. [ageUnit] is
    computed by the source and not used afterwards. *)
Definition setUserProfileToScales_array (age height : number) (gender : string) : list Z :=
  let ageUnit := if lt age (Num 10) then Num 10
                 else if gt age (Num 98) then Num 98 else age in
  let genderUnit := if String.eqb gender "male" then add age (Num 128) else age in
  let heightUnit := if lt height (Num 100) then Num 100
                    else if gt height (Num 218) then Num 218 else height in
  Uint16Array_from
    [ VNumber (Num 253); VNumber (Num 83); VNumber (Num 0); VNumber (Num 0);
      VNumber (Num 255); VNumber genderUnit; VNumber heightUnit ].

(** The [uint16] array of [setDeviceTime]. *)
Definition setDeviceTime_uint16 (date : string) : list Z :=
  let uint16 := new_Uint8Array 16 in
  let uint16 :=
    set8_all uint16
      [ (0%nat, Num 1);
        (1%nat, parseInt (slice date 2 4) (Some 16));
        (2%nat, parseInt (slice date 5 7) (Some 16));
        (3%nat, parseInt (slice date 8 10) (Some 16));
        (4%nat, parseInt (slice date 11 13) (Some 16));
        (5%nat, parseInt (slice date 14 16) (Some 16));
        (6%nat, parseInt (slice date 17 19) (Some 16)) ] in
  set8 uint16 15 (Num (calculateChecksum uint16)).

(** What [new Date()] gives the glucometer commands: the local calendar
    fields of the wall clock. [month] counts from 0. *)
Record Date : Type := {
  getFullYear : Z;
  getMonth : Z;
  getDate : Z;
  getHours : Z;
  getMinutes : Z
}.

(** The text fields both glucometer commands compute from the clock, and the
    text of their last element. *)
Definition glucometer_year (currentTime : Date) : string :=
  "0X" +:+ JS.toString
    (parseInt (substr_last (JS.toString (Num (getFullYear currentTime)) 10) 2) None) 16.
Definition glucometer_month (currentTime : Date) : string :=
  "0X" +:+ JS.toString (Num (getMonth currentTime + 1)) 16.
Definition glucometer_dayNumber (currentTime : Date) : string :=
  "0X" +:+ JS.toString (Num (getDate currentTime)) 16.
Definition glucometer_hour (currentTime : Date) : string :=
  "0X" +:+ JS.toString (Num (getHours currentTime)) 16.
Definition glucometer_minutes (currentTime : Date) : string :=
  "0X" +:+ JS.toString (Num (getMinutes currentTime)) 16.

Definition glucometer_trailer (year month dayNumber hour minutes : string) : string :=
  "0X" +:+ JS.toString
    (rem (add (add (add (add (add (add (add (add
            (parseInt "5a" (Some 16)) (parseInt "0a" (Some 16)))
            (parseInt "00" (Some 16)))
            (parseInt year (Some 16))) (parseInt month (Some 16)))
            (parseInt dayNumber (Some 16))) (parseInt hour (Some 16)))
            (parseInt minutes (Some 16))) (Num 2))
         (Num 256)) 16.

(** The [payload] of [fetchAdditionalGlucometerRecord]. *)
Definition fetchAdditionalGlucometerRecord_payload (currentTime : Date) : list Z :=
  let year := glucometer_year currentTime in
  let month := glucometer_month currentTime in
  let dayNumber := glucometer_dayNumber currentTime in
  let hour := glucometer_hour currentTime in
  let minutes := glucometer_minutes currentTime in
  Uint8Array_from
    [ VNumber (Num 90); VNumber (Num 10); VNumber (Num 3);
      VString year; VString month; VString dayNumber; VString hour; VString minutes;
      VNumber (Num 0);
      VString (glucometer_trailer year month dayNumber hour minutes) ].

(** The [payload] of [setGlucometerTime]. *)
Definition setGlucometerTime_payload (currentTime : Date) : list Z :=
  let year := glucometer_year currentTime in
  let month := glucometer_month currentTime in
  let dayNumber := glucometer_dayNumber currentTime in
  let hour := glucometer_hour currentTime in
  let minutes := glucometer_minutes currentTime in
  Uint8Array_from
    [ VNumber (Num 90); VNumber (Num 10); VNumber (Num 0);
      VString year; VString month; VString dayNumber; VString hour; VString minutes;
      VNumber (Num 0);
      VString (glucometer_trailer year month dayNumber hour minutes) ].

(** The additive checksum the specification describes for a frame: the sum of
    the bytes before the last one, modulo 256. *)
Definition additive_trailer (frame : list Z) : Z :=
  calculateChecksum (take (length frame - 1) frame).

(** ** The mediation layer *)

Definition scaleReadCharacteristic : string := "0000fff4-0000-1000-8000-00805f9b34fb".
Definition alternativeScaleReadCharacteristic : string := "0000fff3-0000-1000-8000-00805f9b34fb".
Definition alternativeScaleReadFinalCharacteristic : string := "0000fff1-0000-1000-8000-00805f9b34fb".
Definition alternativeScaleWriteCharacteristic : string := "0000fff2-0000-1000-8000-00805f9b34fb".
Definition trackerWriteCharacteristic : string := "0000fff6-0000-1000-8000-00805f9b34fb".
Definition trackerReadCharacteristic : string := "0000fff7-0000-1000-8000-00805f9b34fb".
Definition trackerServiceUUID : string := "0000fff0-0000-1000-8000-00805f9b34fb".
Definition scaleServiceUUID : string := "0000fff0-0000-1000-8000-00805f9b34fb".
Definition bloodPressureServiceUUID : string := "000018f0-0000-1000-8000-00805f9b34fb".
Definition bloodPressureCharacteristicUUID : string := "00002af0-0000-1000-8000-00805f9b34fb".
Definition oximeterServiceUUID : string := "cdeacb80-5235-4c07-8846-93a37ee6b86d".
Definition oximeterCharacteristicNotifyUUID : string := "cdeacb81-5235-4c07-8846-93a37ee6b86d".
Definition glucometerServiceUUID : string := "00001000-0000-1000-8000-00805f9b34fb".
Definition glucometerCharacteristicReadUUID : string := "00001002-0000-1000-8000-00805f9b34fb".
Definition glucometerCharacteristicWriteUUID : string := "00001001-0000-1000-8000-00805f9b34fb".

(** The object literal [_destroyPromises] passes to [new BleError]. *)
Record NativeBleError (Code : Type) : Type := {
  errorCode : Code;
  attErrorCode : option Z;
  iosErrorCode : option Z;
  androidErrorCode : option Z;
  reason : option string
}.
Arguments errorCode {Code} _.
Arguments attErrorCode {Code} _.
Arguments iosErrorCode {Code} _.
Arguments androidErrorCode {Code} _.
Arguments reason {Code} _.

(** Modelled from the spec: [./BleError] ([BleError], [BleErrorCode],
    [parseBleError]) and the payload types of [./BleModule] are imported by
    [BleManager.js] and are not among the sources. The manager uses them
    through this interface only: it builds an error from an object literal and
    the code-to-message mapping, reads the [message] of whatever a promise was
    rejected with, and parses a message back into a structured error. *)
Class BleErrorApi : Type := {
  Native : Type;
  Mapping : Type;
  BleErrorCode : Type;
  BluetoothManagerDestroyed : BleErrorCode;
  BleError : Type;
  new_BleError : NativeBleError BleErrorCode → Mapping → BleError;
  BleError_message : BleError → string;
  BleError_errorCode : BleError → BleErrorCode;
  parseBleError : string → Mapping → BleError
}.

(** A listener is a callback of the caller; it is known by reference. *)
Definition Listener : Type := nat.

Section Mediation.
Context `{Api : BleErrorApi}.

(** What a promise can be rejected with: the error [_destroyPromises] built,
    or an [Error] of the native module, of which only [message] is read. *)
Inductive Thrown : Type :=
| ThrownBleError (e : BleError)
| ThrownNative (message : string).

Definition message_of (t : Thrown) : string :=
  match t with
  | ThrownBleError e => BleError_message e
  | ThrownNative message => message
  end.

Inductive Settlement : Type :=
| Fulfilled (v : Native)
| Rejected (t : Thrown).

(** [new Characteristic(nativeCharacteristic, this)]. *)
Record Characteristic : Type := { nativeCharacteristic : Native }.

(** Objects with a [remove] method, by the closure behind it:
    - what [_eventEmitter.addListener] returns;
    - [wrappedSubscription], which captures [id] and [subscription];
    - the object [_handleMonitorCharacteristic] returns, which captures
      [transactionId]. *)
Inductive Subscription : Type :=
| EmitterSubscription (handle : nat)
| WrappedSubscription (id : string) (subscription : Subscription)
| MonitorSubscription (transactionId : string).

(** The [reject] function of the [destroyPromise] of one [_callPromise]
    activation. *)
Inductive RejectFn : Type :=
| RejectDestroyPromise (id : string).

(** What is chained on the promise [_callPromise] returns: the caller's
    [await], or the two handlers of [_handleMonitorCharacteristic]. *)
Inductive Continuation : Type :=
| Awaited
| MonitorThen (wrappedSubscription : Subscription) (listener : Listener).

(** One activation of [_callPromise]. [race] is the state of
    [Promise.race([destroyPromise, promise])]: unsettled, or settled by
    whichever of the two settled first. [resumed] is the outcome of the
    activation once it has run past its [await]. *)
Record Activation : Type := {
  race : option Settlement;
  resumed : option (Native + BleError);
  chained : Continuation
}.

(** Listeners registered on the event emitter for [BleModule.ReadEvent]:
    [monitorListener], which captures [transactionId] and [listener]. *)
Inductive EmitterListener : Type :=
| MonitorListener (transactionId : string) (listener : Listener).

(** Calls into the native module. *)
Inductive BleModuleCall : Type :=
| CreateClient
| DestroyClient
| CancelTransaction (transactionId : string)
| WriteCharacteristicForDevice
    (deviceIdentifier serviceUUID characteristicUUID value : string)
    (withResponse : bool) (transactionId : string)
| MonitorCharacteristicForDevice
    (deviceIdentifier serviceUUID characteristicUUID transactionId : string)
| MonitorCharacteristicForService
    (serviceIdentifier characteristicUUID transactionId : string)
| MonitorCharacteristic (characteristicIdentifier transactionId : string).

(** One invocation [listener(error, characteristic)]. *)
Record ListenerCall : Type := {
  callee : Listener;
  call_error : option BleError;
  call_characteristic : option Characteristic
}.

(** The manager instance, with the part of the world its methods act on:
    the activations of [_callPromise], the listeners of the event emitter,
    the calls made into the native module and the invocations of listeners. *)
Record Manager : Type := {
  _uniqueId : nat;
  _activePromises : gmap string RejectFn;
  _activeSubscriptions : gmap string Subscription;
  _scanEventSubscription : option Subscription;
  _errorCodesToMessagesMapping : Mapping;
  activations : gmap string Activation;
  emitter : gmap nat EmitterListener;
  emitter_next : nat;
  calls : list BleModuleCall;
  heard : list ListenerCall
}.

Definition upd_uniqueId (f : nat → nat) (m : Manager) : Manager :=
  {| _uniqueId := f (_uniqueId m); _activePromises := _activePromises m;
     _activeSubscriptions := _activeSubscriptions m;
     _scanEventSubscription := _scanEventSubscription m;
     _errorCodesToMessagesMapping := _errorCodesToMessagesMapping m;
     activations := activations m; emitter := emitter m;
     emitter_next := emitter_next m; calls := calls m; heard := heard m |}.

Definition upd_activePromises (f : gmap string RejectFn → gmap string RejectFn)
    (m : Manager) : Manager :=
  {| _uniqueId := _uniqueId m; _activePromises := f (_activePromises m);
     _activeSubscriptions := _activeSubscriptions m;
     _scanEventSubscription := _scanEventSubscription m;
     _errorCodesToMessagesMapping := _errorCodesToMessagesMapping m;
     activations := activations m; emitter := emitter m;
     emitter_next := emitter_next m; calls := calls m; heard := heard m |}.

Definition upd_activeSubscriptions
    (f : gmap string Subscription → gmap string Subscription) (m : Manager) : Manager :=
  {| _uniqueId := _uniqueId m; _activePromises := _activePromises m;
     _activeSubscriptions := f (_activeSubscriptions m);
     _scanEventSubscription := _scanEventSubscription m;
     _errorCodesToMessagesMapping := _errorCodesToMessagesMapping m;
     activations := activations m; emitter := emitter m;
     emitter_next := emitter_next m; calls := calls m; heard := heard m |}.

Definition set_scanEventSubscription (s : option Subscription) (m : Manager) : Manager :=
  {| _uniqueId := _uniqueId m; _activePromises := _activePromises m;
     _activeSubscriptions := _activeSubscriptions m;
     _scanEventSubscription := s;
     _errorCodesToMessagesMapping := _errorCodesToMessagesMapping m;
     activations := activations m; emitter := emitter m;
     emitter_next := emitter_next m; calls := calls m; heard := heard m |}.

Definition upd_activations (f : gmap string Activation → gmap string Activation)
    (m : Manager) : Manager :=
  {| _uniqueId := _uniqueId m; _activePromises := _activePromises m;
     _activeSubscriptions := _activeSubscriptions m;
     _scanEventSubscription := _scanEventSubscription m;
     _errorCodesToMessagesMapping := _errorCodesToMessagesMapping m;
     activations := f (activations m); emitter := emitter m;
     emitter_next := emitter_next m; calls := calls m; heard := heard m |}.

Definition upd_emitter (f : gmap nat EmitterListener → gmap nat EmitterListener)
    (g : nat → nat) (m : Manager) : Manager :=
  {| _uniqueId := _uniqueId m; _activePromises := _activePromises m;
     _activeSubscriptions := _activeSubscriptions m;
     _scanEventSubscription := _scanEventSubscription m;
     _errorCodesToMessagesMapping := _errorCodesToMessagesMapping m;
     activations := activations m; emitter := f (emitter m);
     emitter_next := g (emitter_next m); calls := calls m; heard := heard m |}.

Definition upd_calls (f : list BleModuleCall → list BleModuleCall) (m : Manager) : Manager :=
  {| _uniqueId := _uniqueId m; _activePromises := _activePromises m;
     _activeSubscriptions := _activeSubscriptions m;
     _scanEventSubscription := _scanEventSubscription m;
     _errorCodesToMessagesMapping := _errorCodesToMessagesMapping m;
     activations := activations m; emitter := emitter m;
     emitter_next := emitter_next m; calls := f (calls m); heard := heard m |}.

Definition upd_heard (f : list ListenerCall → list ListenerCall) (m : Manager) : Manager :=
  {| _uniqueId := _uniqueId m; _activePromises := _activePromises m;
     _activeSubscriptions := _activeSubscriptions m;
     _scanEventSubscription := _scanEventSubscription m;
     _errorCodesToMessagesMapping := _errorCodesToMessagesMapping m;
     activations := activations m; emitter := emitter m;
     emitter_next := emitter_next m; calls := calls m; heard := f (heard m) |}.

(** *** Methods: state passing with exceptions *)

Inductive Exn : Type :=
| ReferenceError (name : string).

Inductive Completion (A : Type) : Type :=
| Normal (a : A)
| Throw (e : Exn).
Arguments Normal {A} _.
Arguments Throw {A} _.

Definition M (A : Type) : Type := Manager → Completion A * Manager.

Definition ret {A} (a : A) : M A := λ m, (Normal a, m).
Definition throw {A} (e : Exn) : M A := λ m, (Throw e, m).
Definition bind {A B} (c : M A) (k : A → M B) : M B :=
  λ m, match c m with
       | (Normal a, m') => k a m'
       | (Throw e, m') => (Throw e, m')
       end.
Definition modify (f : Manager → Manager) : M unit := λ m, (Normal tt, f m).
Definition read {A} (f : Manager → A) : M A := λ m, (Normal (f m), m).
Definition exec {A} (c : M A) (m : Manager) : Manager := snd (c m).

Fixpoint for_each {A} (l : list A) (body : A → M unit) : M unit :=
  match l with
  | [] => ret tt
  | x :: l' => bind (body x) (λ _, for_each l' body)
  end.

End Mediation.

Arguments Normal {A} _.
Arguments Throw {A} _.

Declare Scope js_scope.
Delimit Scope js_scope with js.
Notation "'let*' x := c 'in' k" := (bind c (λ x, k))
  (at level 10, x name, c at level 100, k at level 200) : js_scope.
Notation "'do' c 'in' k" := (bind c (λ _, k))
  (at level 10, c at level 100, k at level 200) : js_scope.

Section Methods.
Context `{Api : BleErrorApi}.
Local Open Scope js_scope.

(** [new BleManager()] with options that carry no restore-state function;
    [mapping] is [options.errorCodesToMessagesMapping] or the default
    table. *)
Definition constructor (mapping : Mapping) : Manager :=
  {| _uniqueId := 0; _activePromises := ∅; _activeSubscriptions := ∅;
     _scanEventSubscription := None;
     _errorCodesToMessagesMapping := mapping;
     activations := ∅; emitter := ∅; emitter_next := 0;
     calls := [CreateClient]; heard := [] |}.

(** [_nextUniqueID()]. *)
Definition _nextUniqueID : M string :=
  do modify (upd_uniqueId S) in
  let* n := read _uniqueId in
  ret (pretty n).

(** A call into the native module: it is recorded, returns nothing the
    manager looks at synchronously, and does not throw. *)
Definition BleModule (c : BleModuleCall) : M unit :=
  modify (upd_calls (λ l, l ++ [c])).

(** [_eventEmitter.addListener(BleModule.ReadEvent, l)]. *)
Definition addListener (l : EmitterListener) : M Subscription :=
  let* handle := read emitter_next in
  do modify (upd_emitter <[handle := l]> S) in
  ret (EmitterSubscription handle).

(** Invoking a listener of the caller: the invocation is recorded; what the
    listener does is outside the model. *)
Definition invoke (listener : Listener) (error : option BleError)
    (characteristic : option Characteristic) : M unit :=
  modify (upd_heard (λ l, l ++ [ {| callee := listener; call_error := error;
                                    call_characteristic := characteristic |} ])).

(** [s.remove()]. *)
Fixpoint remove (s : Subscription) : M unit :=
  match s with
  | EmitterSubscription handle => modify (upd_emitter (delete handle) id)
  | WrappedSubscription id subscription =>
      let* active := read _activeSubscriptions in
      match active !! id with
      | Some _ =>
          do modify (upd_activeSubscriptions (delete id)) in
          remove subscription
      | None => ret tt
      end
  | MonitorSubscription transactionId =>
      BleModule (CancelTransaction transactionId)
  end.

(** [cancelTransaction(transactionId)]. *)
Definition cancelTransaction (transactionId : string) : M unit :=
  BleModule (CancelTransaction transactionId).

(** A value in a condition: [null], [undefined] and the empty string are
    falsy. *)
Definition truthy (s : option string) : option string :=
  match s with
  | Some EmptyString => None
  | _ => s
  end.

(** [if (!transactionId) transactionId = this._nextUniqueID()] and
    [transactionId || this._nextUniqueID()]. *)
Definition fill (transactionId : option string) : M string :=
  match truthy transactionId with
  | Some t => ret t
  | None => _nextUniqueID
  end.

(** [_callPromise(promise)] up to its [await]: a fresh id, the reject
    function of [destroyPromise] stored under it, and the race started.
    The result is the id, which stands for the returned promise. *)
Definition _callPromise (chained : Continuation) : M string :=
  let* id := _nextUniqueID in
  do modify (upd_activePromises <[id := RejectDestroyPromise id]>) in
  do modify (upd_activations
               <[id := {| race := None; resumed := None; chained := chained |}]>) in
  ret id.

(** First settlement wins: settling a race that is already settled does
    nothing. *)
Definition settle_race (s : Settlement) (a : Activation) : Activation :=
  match race a with
  | None => {| race := Some s; resumed := resumed a; chained := chained a |}
  | Some _ => a
  end.

(** The promise handed to activation [id] settles. *)
Definition settle (id : string) (s : Settlement) (m : Manager) : Manager :=
  upd_activations (alter (settle_race s) id) m.

(** Calling a stored reject function. *)
Definition call_reject (f : RejectFn) (error : BleError) : M unit :=
  match f with
  | RejectDestroyPromise id => modify (settle id (Rejected (ThrownBleError error)))
  end.

(** The handlers chained on the promise of an activation. *)
Definition run_chained (k : Continuation) (outcome : Native + BleError) : M unit :=
  match k with
  | Awaited => ret tt
  | MonitorThen wrappedSubscription listener =>
      match outcome with
      | inl _ => remove wrappedSubscription
      | inr error =>
          do invoke listener (Some error) None in
          remove wrappedSubscription
      end
  end.

(** Activation [id] runs on after its [await], once the race is settled:
    the entry is deleted, and the value is returned or
    [parseBleError(error.message, ...)] is thrown. *)
Definition resume (id : string) (m : Manager) : Manager :=
  match activations m !! id with
  | Some a =>
      match race a, resumed a with
      | Some s, None =>
          let m := upd_activePromises (delete id) m in
          let outcome :=
            match s with
            | Fulfilled value => inl value
            | Rejected error =>
                inr (parseBleError (message_of error) (_errorCodesToMessagesMapping m))
            end in
          let m := upd_activations
                     <[id := {| race := race a; resumed := Some outcome;
                                chained := chained a |}]> m in
          exec (run_chained (chained a) outcome) m
      | _, _ => m
      end
  | None => m
  end.

(** The reaction jobs of all activations run. *)
Definition run_jobs (m : Manager) : Manager :=
  fold_left (λ m id, resume id m) (map_to_list (activations m)).*1 m.

(** The error [_destroyPromises] builds. *)
Definition destroyedError (mapping : Mapping) : BleError :=
  new_BleError
    {| errorCode := BluetoothManagerDestroyed; attErrorCode := None;
       iosErrorCode := None; androidErrorCode := None; reason := None |}
    mapping.

(** [_destroyPromises()]: [for (const id in this._activePromises)] visits
    the keys present when the loop starts, and skips one deleted before its
    turn. The order of the visits does not matter to what follows. *)
Definition _destroyPromises : M unit :=
  let* mapping := read _errorCodesToMessagesMapping in
  let destroyedError := destroyedError mapping in
  let* promises := read _activePromises in
  for_each (map_to_list promises).*1 (λ id,
    let* current := read _activePromises in
    match current !! id with
    | Some reject => call_reject reject destroyedError
    | None => ret tt
    end).

(** [_destroySubscriptions()]. *)
Definition _destroySubscriptions : M unit :=
  let* subscriptions := read _activeSubscriptions in
  for_each (map_to_list subscriptions).*1 (λ id,
    let* current := read _activeSubscriptions in
    match current !! id with
    | Some subscription => remove subscription
    | None => ret tt
    end).

(** [destroy()]. *)
Definition destroy : M unit :=
  do BleModule DestroyClient in
  let* scan := read _scanEventSubscription in
  do match scan with
     | Some subscription =>
         do remove subscription in
         modify (set_scanEventSubscription None)
     | None => ret tt
     end in
  do _destroySubscriptions in
  _destroyPromises.

(** *** Monitoring *)

(** [monitorListener], the listener [_handleMonitorCharacteristic]
    registers; the event is [[error, characteristic, msgTransactionId]]. *)
Definition monitorListener (transactionId : string) (listener : Listener)
    (event : option string * Native * string) : M unit :=
  let '(error, characteristic, msgTransactionId) := event in
  if negb (String.eqb transactionId msgTransactionId) then ret tt
  else
    match truthy error with
    | Some error =>
        let* mapping := read _errorCodesToMessagesMapping in
        invoke listener (Some (parseBleError error mapping)) None
    | None =>
        invoke listener None (Some {| nativeCharacteristic := characteristic |})
    end.

Definition run_listener (l : EmitterListener)
    (event : option string * Native * string) : M unit :=
  match l with
  | MonitorListener transactionId listener => monitorListener transactionId listener event
  end.

(** The event emitter delivers one [ReadEvent] to the listeners registered
    at that moment. *)
Definition emit_ReadEvent (event : option string * Native * string) (m : Manager) : Manager :=
  exec (for_each (map_to_list (emitter m)).*2 (λ l, run_listener l event)) m.

(** [_handleMonitorCharacteristic(monitorPromise, transactionId, listener)].
    [monitorPromise] is the promise the activation awaits. *)
Definition _handleMonitorCharacteristic (transactionId : string) (listener : Listener)
    : M Subscription :=
  let* subscription := addListener (MonitorListener transactionId listener) in
  let* id := _nextUniqueID in
  let wrappedSubscription := WrappedSubscription id subscription in
  do modify (upd_activeSubscriptions <[id := wrappedSubscription]>) in
  let* _p := _callPromise (MonitorThen wrappedSubscription listener) in
  ret (MonitorSubscription transactionId).

Definition monitorCharacteristicForDevice
    (deviceIdentifier serviceUUID characteristicUUID : string)
    (listener : Listener) (transactionId : option string) : M Subscription :=
  let* filledTransactionId := fill transactionId in
  do BleModule (MonitorCharacteristicForDevice deviceIdentifier serviceUUID
                  characteristicUUID filledTransactionId) in
  _handleMonitorCharacteristic filledTransactionId listener.

Definition monitorScaleResponse (deviceIdentifier : string)
    (listener : Listener) (transactionId : option string) : M Subscription :=
  let* filledTransactionId := fill transactionId in
  do BleModule (MonitorCharacteristicForDevice deviceIdentifier scaleServiceUUID
                  scaleReadCharacteristic filledTransactionId) in
  _handleMonitorCharacteristic filledTransactionId listener.

Definition monitorAlternativeScaleFinalResponse (deviceIdentifier : string)
    (listener : Listener) (transactionId : option string) : M Subscription :=
  let* filledTransactionId := fill transactionId in
  do BleModule (MonitorCharacteristicForDevice deviceIdentifier scaleServiceUUID
                  alternativeScaleReadFinalCharacteristic filledTransactionId) in
  _handleMonitorCharacteristic filledTransactionId listener.

Definition listenForAlternativeScaleResponse (deviceIdentifier : string)
    (listener : Listener) (transactionId : option string) : M Subscription :=
  let* filledTransactionId := fill transactionId in
  do BleModule (MonitorCharacteristicForDevice deviceIdentifier scaleServiceUUID
                  alternativeScaleReadCharacteristic filledTransactionId) in
  _handleMonitorCharacteristic filledTransactionId listener.

Definition monitorTrackerResponse (deviceIdentifier : string)
    (listener : Listener) (transactionId : option string) : M Subscription :=
  let* filledTransactionId := fill transactionId in
  do BleModule (MonitorCharacteristicForDevice deviceIdentifier trackerServiceUUID
                  trackerReadCharacteristic filledTransactionId) in
  _handleMonitorCharacteristic filledTransactionId listener.

Definition _monitorCharacteristicForService (serviceIdentifier characteristicUUID : string)
    (listener : Listener) (transactionId : option string) : M Subscription :=
  let* filledTransactionId := fill transactionId in
  do BleModule (MonitorCharacteristicForService serviceIdentifier characteristicUUID
                  filledTransactionId) in
  _handleMonitorCharacteristic filledTransactionId listener.

Definition _monitorCharacteristic (characteristicIdentifier : string)
    (listener : Listener) (transactionId : option string) : M Subscription :=
  let* filledTransactionId := fill transactionId in
  do BleModule (MonitorCharacteristic characteristicIdentifier filledTransactionId) in
  _handleMonitorCharacteristic filledTransactionId listener.

Definition monitorBloodPressureResponse (deviceIdentifier : string)
    (listener : Listener) (transactionId : option string) : M Subscription :=
  let* filledTransactionId := fill transactionId in
  do BleModule (MonitorCharacteristicForDevice deviceIdentifier bloodPressureServiceUUID
                  bloodPressureCharacteristicUUID filledTransactionId) in
  _handleMonitorCharacteristic filledTransactionId listener.

Definition monitorGlucometerResponse (deviceIdentifier : string)
    (listener : Listener) (transactionId : option string) : M Subscription :=
  let* filledTransactionId := fill transactionId in
  do BleModule (MonitorCharacteristicForDevice deviceIdentifier glucometerServiceUUID
                  glucometerCharacteristicReadUUID filledTransactionId) in
  _handleMonitorCharacteristic filledTransactionId listener.

Definition monitorOximeterResponse (deviceIdentifier : string)
    (listener : Listener) (transactionId : option string) : M Subscription :=
  let* filledTransactionId := fill transactionId in
  do BleModule (MonitorCharacteristicForDevice deviceIdentifier oximeterServiceUUID
                  oximeterCharacteristicNotifyUUID filledTransactionId) in
  _handleMonitorCharacteristic filledTransactionId listener.

End Methods.

(** ** Named protocol operations

    Each is an [async] method: its body runs synchronously up to
    [await this._callPromise(...)]. The result is the id of the activation it
    awaits; an exception thrown before that point rejects the returned
    promise, and nothing after the throwing statement is evaluated. *)

(** A binding that is read while it may not hold a value yet. *)
Inductive Binding (A : Type) : Type :=
| Uninitialized
| Initialized (a : A).
Arguments Uninitialized {A}.
Arguments Initialized {A} _.

(** How the build the file runs in treats a [const] declaration. The file
    carries type annotations and runs only after a transform. Where the
    transform keeps block scoping, the language's own semantics apply: the
    binding exists from the entry of its block and is uninitialised until its
    declaration has been evaluated. Where the transform compiles [const] to
    [var], as the React Native preset does, the binding is hoisted to the
    function and holds [undefined] until it is assigned. *)
Inductive Scoping : Type :=
| BlockScoped
| FunctionScoped.

(** The binding of a [const] while its own initialiser is evaluated. *)
Definition in_own_initialiser (scoping : Scoping) : Binding value :=
  match scoping with
  | BlockScoped => Uninitialized
  | FunctionScoped => Initialized VUndefined
  end.

(** The [uint16] array of [selectProfileAlternativeScale]. *)
Definition selectProfileAlternativeScale_uint16 (user : string) : list Z :=
  set8_all (new_Uint8Array 13)
    [ (0%nat, Num 65); (1%nat, Num 0); (2%nat, Num 130);
      (3%nat, parseInt (slice user 0 2) (Some 16));
      (4%nat, parseInt (slice user 2 4) (Some 16));
      (5%nat, parseInt (slice user 4 6) (Some 16));
      (6%nat, parseInt (slice user 6 8) (Some 16)) ].

(** [v === 'text']. *)
Definition strict_equal_string (v : value) (text : string) : bool :=
  match v with
  | VString s => String.eqb s text
  | _ => false
  end.

Section Operations.
Context `{Api : BleErrorApi}.
Local Open Scope js_scope.

(** Reading an identifier: a binding that is not initialised yet throws a
    [ReferenceError]. *)
Definition read_binding {A} (name : string) (b : Binding A) : M A :=
  match b with
  | Initialized a => ret a
  | Uninitialized => throw (ReferenceError name)
  end.

Definition setUserProfileToAlternativeScale (deviceIdentifier user : string)
    (age height gender : number) (transactionId : option string) : M string :=
  let* transactionId := fill transactionId in
  let uint16 := setUserProfileToAlternativeScale_uint16 user age height gender in
  let value := base64ArrayBuffer uint16 in
  do BleModule (WriteCharacteristicForDevice deviceIdentifier scaleServiceUUID
                  alternativeScaleWriteCharacteristic value false transactionId) in
  _callPromise Awaited.

Definition synchronizeAlternativeScale (deviceIdentifier user measurement : string)
    (transactionId : option string) : M string :=
  let* transactionId := fill transactionId in
  let measurementUnit := if String.eqb measurement "metric" then Num 0 else Num 1 in
  let uint16 :=
    set8_all (new_Uint8Array 13)
      [ (0%nat, Num 65); (1%nat, Num 0); (2%nat, Num 132);
        (3%nat, parseInt (slice user 0 2) (Some 16));
        (4%nat, parseInt (slice user 2 4) (Some 16));
        (5%nat, parseInt (slice user 4 6) (Some 16));
        (6%nat, parseInt (slice user 6 8) (Some 16));
        (7%nat, parseInt (JS.toString measurementUnit 10) (Some 16)) ] in
  let value := base64ArrayBuffer uint16 in
  do BleModule (WriteCharacteristicForDevice deviceIdentifier scaleServiceUUID
                  alternativeScaleWriteCharacteristic value false transactionId) in
  _callPromise Awaited.

(** [const measurementUnit = measurementUnit === 'metric' ? 0 : 1]: the
    initialiser reads the binding it is about to initialise. What the read
    gives depends on the build, [scoping]: a [ReferenceError], or
    [undefined], which is not ['metric']. The value of [measurementUnit] is
    not used afterwards. *)
Definition selectProfileAlternativeScale (scoping : Scoping)
    (deviceIdentifier user : string) (transactionId : option string) : M string :=
  let* transactionId := fill transactionId in
  let measurementUnit_binding := in_own_initialiser scoping in
  let* measurementUnit_read := read_binding "measurementUnit" measurementUnit_binding in
  let measurementUnit :=
    if strict_equal_string measurementUnit_read "metric" then Num 0 else Num 1 in
  let uint16 := selectProfileAlternativeScale_uint16 user in
  let value := base64ArrayBuffer uint16 in
  do BleModule (WriteCharacteristicForDevice deviceIdentifier scaleServiceUUID
                  alternativeScaleWriteCharacteristic value false transactionId) in
  _callPromise Awaited.

Definition setDeviceTime (deviceIdentifier date : string)
    (transactionId : option string) : M string :=
  let* transactionId := fill transactionId in
  let uint16 := setDeviceTime_uint16 date in
  let value := base64ArrayBuffer uint16 in
  do BleModule (WriteCharacteristicForDevice deviceIdentifier trackerServiceUUID
                  trackerWriteCharacteristic value true transactionId) in
  _callPromise Awaited.

Definition setUserProfileToScales (deviceIdentifier : string) (age height : number)
    (gender : string) (transactionId : option string) : M string :=
  let* transactionId := fill transactionId in
  let array := setUserProfileToScales_array age height gender in
  let value := base64ArrayBuffer array in
  do BleModule (WriteCharacteristicForDevice deviceIdentifier "fff0" "fff3"
                  value false transactionId) in
  _callPromise Awaited.

(** [currentTime] is what [new Date()] reads when the method runs. *)
Definition fetchAdditionalGlucometerRecord (currentTime : Date) (deviceIdentifier : string)
    (transactionId : option string) : M string :=
  let* transactionId := fill transactionId in
  let payload := fetchAdditionalGlucometerRecord_payload currentTime in
  let value := base64ArrayBuffer payload in
  do BleModule (WriteCharacteristicForDevice deviceIdentifier glucometerServiceUUID
                  glucometerCharacteristicWriteUUID value false transactionId) in
  _callPromise Awaited.

Definition setGlucometerTime (currentTime : Date) (deviceIdentifier : string)
    (withResponse : bool) (transactionId : option string) : M string :=
  let* transactionId := fill transactionId in
  let payload := setGlucometerTime_payload currentTime in
  let value := base64ArrayBuffer payload in
  do BleModule (WriteCharacteristicForDevice deviceIdentifier glucometerServiceUUID
                  glucometerCharacteristicWriteUUID value withResponse transactionId) in
  _callPromise Awaited.

(** The bytes of the values written to characteristics so far, as the
    transport decodes them. *)
Definition written (m : Manager) : list (option (list Z)) :=
  omap (λ c, match c with
             | WriteCharacteristicForDevice _ _ _ value _ _ =>
                 Some (Base64Std.decode value)
             | _ => None
             end) (calls m).

End Operations.

(** ** Reference definitions of the properties *)

(** The elements of an array that are numeric (for which [isNaN] is false),
    as numbers. *)
Definition numeric_elements (b : list value) : list number :=
  ToNumber <$> filter (λ v, isNaN v = false) b.

(** Left fold of [^] over the numeric elements. *)
Definition xor_fold (b : list value) : number :=
  fold_left bxor (numeric_elements b) (Num 0).

Definition is_byte (x : Z) : Prop := 0 ≤ x < 256.

(** A reading of the wall clock: the ranges of the calendar fields of a
    JavaScript date, from year 0 to the last representable year. *)
Definition wall_clock (t : Date) : Prop :=
  0 ≤ getFullYear t ≤ 275760 ∧ 0 ≤ getMonth t ≤ 11 ∧ 1 ≤ getDate t ≤ 31 ∧
  0 ≤ getHours t ≤ 23 ∧ 0 ≤ getMinutes t ≤ 59.

(** ** Definitions used in the proofs *)

(** The text the glucometer commands make of a field, and what the typed
    array and [parseInt] read back from it. *)
Definition hex_text (z : Z) : string := "0X" +:+ JS.toString (Num z) 16.

(** The symbol of a sextet. *)
Definition symbol (v : Z) : ascii :=
  default Base64Std.pad (String.get (Z.to_nat v) encodings).

Definition chunk3 (b0 b1 b2 : Z) : Z := b0 * 65536 + b1 * 256 + b2.


(** What [base64ArrayBuffer] does after its main loop. *)
Definition base64_finish (bytes : list Z) (mainLength byteRemainder : nat)
    (base64 : string) : string :=
  if (byteRemainder =? 1)%nat then
    let chunk := get8 bytes mainLength in
    let a := shr (band chunk (Num 252)) (Num 2) in
    let b := shl (band chunk (Num 3)) (Num 4) in
    base64 +:+ ((encodings_at a +:+ encodings_at b) +:+ "==")
  else if (byteRemainder =? 2)%nat then
    let chunk := bor (shl (get8 bytes mainLength) (Num 8)) (get8 bytes (mainLength + 1)) in
    let a := shr (band chunk (Num 64512)) (Num 10) in
    let b := shr (band chunk (Num 1008)) (Num 4) in
    let c := shl (band chunk (Num 15)) (Num 2) in
    base64 +:+ (((encodings_at a +:+ encodings_at b) +:+ encodings_at c) +:+ "=")
  else base64.

(** Bounded checks, decided by evaluation: [check_range f lo n] holds when [f]
    holds on the [n] integers from [lo] on. *)
Fixpoint check_range (f : Z → bool) (lo : Z) (n : nat) : bool :=
  match n with
  | O => true
  | S n' => f lo && check_range f (lo + 1) n'
  end.

Definition number_eqb (a b : number) : bool :=
  match a, b with
  | Num x, Num y => x =? y
  | NaN, NaN => true
  | _, _ => false
  end.

(** The text of one group of the encoder's output: three bytes, and the final
    groups for one and for two remaining bytes. *)
Definition group3 (b0 b1 b2 : Z) : string :=
  let chunk := bor (bor (shl (Num b0) (Num 16)) (shl (Num b1) (Num 8))) (Num b2) in
  let a := shr (band chunk (Num 16515072)) (Num 18) in
  let b := shr (band chunk (Num 258048)) (Num 12) in
  let c := shr (band chunk (Num 4032)) (Num 6) in
  let d := band chunk (Num 63) in
  ((encodings_at a +:+ encodings_at b) +:+ encodings_at c) +:+ encodings_at d.

Definition group1 (b0 : Z) : string :=
  let chunk := Num b0 in
  let a := shr (band chunk (Num 252)) (Num 2) in
  let b := shl (band chunk (Num 3)) (Num 4) in
  (encodings_at a +:+ encodings_at b) +:+ "==".

Definition group2 (b0 b1 : Z) : string :=
  let chunk := bor (shl (Num b0) (Num 8)) (Num b1) in
  let a := shr (band chunk (Num 64512)) (Num 10) in
  let b := shr (band chunk (Num 1008)) (Num 4) in
  let c := shl (band chunk (Num 15)) (Num 2) in
  ((encodings_at a +:+ encodings_at b) +:+ encodings_at c) +:+ "=".

(** The encoder's output, by recursion on the bytes. *)
Fixpoint encode_groups (bytes : list Z) : string :=
  match bytes with
  | b0 :: b1 :: b2 :: rest => group3 b0 b1 b2 +:+ encode_groups rest
  | [b0] => group1 b0
  | [b0; b1] => group2 b0 b1
  | [] => EmptyString
  end.

Section Properties.
Context `{Api : BleErrorApi}.

(** The characteristic-monitoring operations, by name and arguments; all of
    them go through [_handleMonitorCharacteristic]. *)
Inductive MonitoringOperation : Type :=
| ForDevice (deviceIdentifier serviceUUID characteristicUUID : string)
| ScaleResponse (deviceIdentifier : string)
| AlternativeScaleFinalResponse (deviceIdentifier : string)
| AlternativeScaleResponse (deviceIdentifier : string)
| TrackerResponse (deviceIdentifier : string)
| ForService (serviceIdentifier characteristicUUID : string)
| ForCharacteristic (characteristicIdentifier : string)
| BloodPressureResponse (deviceIdentifier : string)
| GlucometerResponse (deviceIdentifier : string)
| OximeterResponse (deviceIdentifier : string).

Definition monitoring (op : MonitoringOperation)
    : Listener → option string → M Subscription :=
  match op with
  | ForDevice d s c => monitorCharacteristicForDevice d s c
  | ScaleResponse d => monitorScaleResponse d
  | AlternativeScaleFinalResponse d => monitorAlternativeScaleFinalResponse d
  | AlternativeScaleResponse d => listenForAlternativeScaleResponse d
  | TrackerResponse d => monitorTrackerResponse d
  | ForService s c => _monitorCharacteristicForService s c
  | ForCharacteristic c => _monitorCharacteristic c
  | BloodPressureResponse d => monitorBloodPressureResponse d
  | GlucometerResponse d => monitorGlucometerResponse d
  | OximeterResponse d => monitorOximeterResponse d
  end.

(** The named protocol operations of the model, by name and arguments. *)
Inductive ProtocolOperation : Type :=
| SetUserProfileToAlternativeScale (deviceIdentifier user : string)
    (age height gender : number)
| SynchronizeAlternativeScale (deviceIdentifier user measurement : string)
| SelectProfileAlternativeScale (scoping : Scoping) (deviceIdentifier user : string)
| SetDeviceTime (deviceIdentifier date : string)
| SetUserProfileToScales (deviceIdentifier : string) (age height : number)
    (gender : string)
| FetchAdditionalGlucometerRecord (currentTime : Date) (deviceIdentifier : string)
| SetGlucometerTime (currentTime : Date) (deviceIdentifier : string)
    (withResponse : bool).

Definition protocol (op : ProtocolOperation) : option string → M string :=
  match op with
  | SetUserProfileToAlternativeScale d user age height gender =>
      setUserProfileToAlternativeScale d user age height gender
  | SynchronizeAlternativeScale d user measurement =>
      synchronizeAlternativeScale d user measurement
  | SelectProfileAlternativeScale scoping d user =>
      selectProfileAlternativeScale scoping d user
  | SetDeviceTime d date => setDeviceTime d date
  | SetUserProfileToScales d age height gender =>
      setUserProfileToScales d age height gender
  | FetchAdditionalGlucometerRecord currentTime d =>
      fetchAdditionalGlucometerRecord currentTime d
  | SetGlucometerTime currentTime d withResponse =>
      setGlucometerTime currentTime d withResponse
  end.

(** A mediated operation is pending when its race is not settled yet. *)
Definition pending (m : Manager) (id : string) : Prop :=
  ∃ a, activations m !! id = Some a ∧ race a = None.

(** The outcome of a mediated operation that has run to its end. *)
Definition outcome (m : Manager) (id : string) : option (Native + BleError) :=
  a ← activations m !! id; resumed a.

(** What the user and the world can do to a manager. *)
Inductive step : Manager → Manager → Prop :=
| step_call m k : step m (exec (_callPromise k) m)
| step_settle m id s : step m (settle id s m)
| step_resume m id : step m (resume id m)
| step_monitor m op listener transactionId :
    step m (exec (monitoring op listener transactionId) m)
| step_protocol m op transactionId : step m (exec (protocol op transactionId) m)
| step_remove m s : step m (exec (remove s) m)
| step_emit m event : step m (emit_ReadEvent event m)
| step_cancel m transactionId : step m (exec (cancelTransaction transactionId) m)
| step_destroy m : step m (exec destroy m).

Inductive reachable : Manager → Prop :=
| reachable_new mapping : reachable (constructor mapping)
| reachable_step m m' : reachable m → step m m' → reachable m'.

(** Every unsettled race has its reject function in the registry, under its
    own id, and has not run past its [await]; ids are the decimal forms of
    the counter values handed out. *)
Definition registry_consistent (m : Manager) : Prop :=
  (∀ id a, activations m !! id = Some a → race a = None →
           _activePromises m !! id = Some (RejectDestroyPromise id) ∧
           resumed a = None) ∧
  (∀ id, is_Some (activations m !! id) →
         ∃ n : nat, id = pretty n ∧ (1 ≤ n ≤ _uniqueId m)%nat).

(** [m'] has the same activations, registry and message table as [m], and a
    counter that is not smaller. *)
Definition mediation_kept (m m' : Manager) : Prop :=
  activations m' = activations m ∧
  _activePromises m' = _activePromises m ∧
  _errorCodesToMessagesMapping m' = _errorCodesToMessagesMapping m ∧
  (_uniqueId m ≤ _uniqueId m')%nat.

(** A method that never throws and keeps the mediation state. *)
Definition keeps {A} (c : M A) : Prop :=
  ∀ m, (∃ a, fst (c m) = Normal a) ∧ mediation_kept m (snd (c m)).

End Properties.

Section Proof_support.
Context `{Api : BleErrorApi}.

(** What [destroy] does before [_destroyPromises]. *)
Definition destroy_prefix : M unit :=
  bind (BleModule DestroyClient) (λ _,
  bind (read _scanEventSubscription) (λ scan,
  bind (match scan with
        | Some subscription =>
            bind (remove subscription) (λ _, modify (set_scanEventSubscription None))
        | None => ret tt
        end) (λ _, _destroySubscriptions))).

(** What one visit of the loop of [_destroyPromises] does. *)
Definition reject_visit (error : BleError) (id : string) : M unit :=
  bind (read _activePromises) (λ current,
    match current !! id with
    | Some reject => call_reject reject error
    | None => ret tt
    end).

(** What an activation returns or throws once its race is settled. *)
Definition outcome_of (s : Settlement) (mapping : Mapping) : Native + BleError :=
  match s with
  | Fulfilled value => inl value
  | Rejected error => inr (parseBleError (message_of error) mapping)
  end.

Definition resumed_with (a : Activation) (out : Native + BleError) : Activation :=
  {| race := race a; resumed := Some out; chained := chained a |}.

(** A method under which the registry stays consistent. *)
Definition preserves {A} (c : M A) : Prop :=
  ∀ m, registry_consistent m → registry_consistent (snd (c m)).

End Proof_support.


(** Modelled from the spec: a concrete [./BleError], which is not among the
    sources. A structured error is an error code, an optional reason and a
    message. An error built from a code takes its message from the
    code-to-message table. [parseBleError] translates a raw transport failure:
    a payload, the JSON text of an error object, gives the error of the code
    it carries; a text that is not a payload gives the unknown error, with
    the text as its reason. Of a payload only the error code is read here,
    and an object that carries none is treated like a text that is not a
    payload. The instance serves to run the model on examples. *)
Module Example_api.

Definition UnknownError : nat := 0.
Definition ManagerDestroyed : nat := 1.

Record StructuredError : Type := {
  error_code : nat;
  error_reason : option string;
  error_message : string
}.

(** The default table, of which the entries of the two codes above are
    written out. *)
Definition BleErrorCodeMessage : gmap nat string :=
  {[ UnknownError :=
       "Unknown error occurred. This is probably a bug! Check reason property.";
     ManagerDestroyed := "BleManager was destroyed" ]}.

(** The message of an error with code [c]: the text of the table for [c],
    or the text of the unknown error where the table has none. *)
Definition message_for (mapping : gmap nat string) (c : nat) : string :=
  default (default EmptyString (mapping !! UnknownError)) (mapping !! c).

(** The error code in a payload; [None] for a text that is not the text of
    an object with an [errorCode] entry. The entry is the key between quotes,
    a colon and a decimal number. *)
Definition payload_code (payload : string) : option nat :=
  match payload with
  | String "{" _ =>
      match index 0 "errorCode" payload with
      | Some i =>
          match parseInt (substring (i + 11) (String.length payload) payload)
                  (Some 10) with
          | Num z => Some (Z.to_nat z)
          | NaN => None
          end
      | None => None
      end
  | _ => None
  end.

Definition build (native : NativeBleError nat) (mapping : gmap nat string)
    : StructuredError :=
  {| error_code := errorCode native; error_reason := reason native;
     error_message := message_for mapping (errorCode native) |}.

Definition parse (errorMessage : string) (mapping : gmap nat string)
    : StructuredError :=
  match payload_code errorMessage with
  | Some c =>
      {| error_code := c; error_reason := None; error_message := message_for mapping c |}
  | None =>
      {| error_code := UnknownError; error_reason := Some errorMessage;
         error_message := message_for mapping UnknownError |}
  end.

#[export] Instance api : BleErrorApi :=
  {| Native := string;
     Mapping := gmap nat string;
     BleErrorCode := nat;
     BluetoothManagerDestroyed := ManagerDestroyed;
     BleError := StructuredError;
     new_BleError := build;
     BleError_message := error_message;
     BleError_errorCode := error_code;
     parseBleError := parse |}.

(** A manager just created with the default table, and one with two
    mediated operations in flight. *)
Definition fresh : Manager := constructor (BleErrorCodeMessage : Mapping).

Definition two_pending : Manager :=
  exec (_callPromise Awaited) (exec (_callPromise Awaited) fresh).

End Example_api.


(** ** Further operations *)

Definition bloodPressureCharacteristicWriteUUID : string :=
  "00002af1-0000-1000-8000-00805f9b34fb".

(** *** Tracker frames *)

(** The [uint16] array of [activateVibration]. *)
Definition activateVibration_uint16 (duration : number) : list Z :=
  let durationUnit := if gt duration (Num 10) then Num 10 else duration in
  let uint16 := new_Uint8Array 16 in
  let uint16 := set8_all uint16 [ (0%nat, Num 54); (1%nat, durationUnit) ] in
  set8 uint16 15 (Num (calculateChecksum uint16)).

(** The [uint16] array of [setTrackerDistanceUnit]. *)
Definition setTrackerDistanceUnit_uint16 (unit : string) : list Z :=
  let measurementType := if String.eqb unit "us" then Num 1 else Num 0 in
  let uint16 := new_Uint8Array 16 in
  let uint16 := set8_all uint16 [ (0%nat, Num 15); (1%nat, measurementType) ] in
  set8 uint16 15 (Num (calculateChecksum uint16)).

(** The [uint16] array of [getDetailedDayActivity]. *)
Definition getDetailedDayActivity_uint16 (date : number) : list Z :=
  let uint16 := new_Uint8Array 16 in
  let uint16 := set8_all uint16 [ (0%nat, Num 67); (1%nat, date) ] in
  set8 uint16 15 (Num (calculateChecksum uint16)).

(** The [uint16] array of [getSummaryDayActivity]. *)
Definition getSummaryDayActivity_uint16 (date : number) : list Z :=
  let uint16 := new_Uint8Array 16 in
  let uint16 := set8_all uint16 [ (0%nat, Num 7); (1%nat, date) ] in
  set8 uint16 15 (Num (calculateChecksum uint16)).

(** The commands of the tracker family, by name and arguments. *)
Inductive TrackerCommand : Type :=
| Vibration (duration : number)
| DeviceTime (date : string)
| DistanceUnit (unit : string)
| DetailedDayActivity (date : number)
| SummaryDayActivity (date : number).

Definition tracker_uint16 (c : TrackerCommand) : list Z :=
  match c with
  | Vibration duration => activateVibration_uint16 duration
  | DeviceTime date => setDeviceTime_uint16 date
  | DistanceUnit unit => setTrackerDistanceUnit_uint16 unit
  | DetailedDayActivity date => getDetailedDayActivity_uint16 date
  | SummaryDayActivity date => getSummaryDayActivity_uint16 date
  end.

(** *** Blood-pressure frames *)

(** The four fixed commands: [fetchBloodPressureMode],
    [fetchHistoricBloodPressureMeasurement], [turnBloodPressureVoiceOff] and
    [startBloodPressureTesting]. *)
Definition fetchBloodPressureMode_payload : list Z :=
  Uint8Array_of_numbers [2; 64; 220; 1; 178; 47].
Definition fetchHistoricBloodPressureMeasurement_payload : list Z :=
  Uint8Array_of_numbers [2; 64; 220; 1; 177; 44].
Definition turnBloodPressureVoiceOff_payload : list Z :=
  Uint8Array_of_numbers [2; 64; 220; 1; 163; 62].
Definition startBloodPressureTesting_payload : list Z :=
  Uint8Array_of_numbers [2; 64; 220; 1; 161; 60].

(** What the calls into the date library give [setBloodPressureTime]:
    [moment().format('YY')] of the current time, and the calendar fields of
    [moment(date)] for the argument ([NaN] for a date that is not valid).
    [month] counts from 0. *)
Record MomentReading : Type := {
  format_YY : string;
  moment_month : number;
  moment_date : number;
  moment_hour : number;
  moment_minute : number;
  moment_second : number
}.

(** The [payload] array of [setBloodPressureTime], after [push]. It is an
    ordinary array; [base64ArrayBuffer] converts it when it builds its
    [Uint8Array]. *)
Definition setBloodPressureTime_payload (r : MomentReading) : list value :=
  let year := parseInt (format_YY r) None in
  let month := add (moment_month r) (Num 1) in
  let day := moment_date r in
  let hour := moment_hour r in
  let minute := moment_minute r in
  let second := moment_second r in
  let payload :=
    VNumber <$> [Num 2; Num 64; Num 220; Num 7; Num 176;
                 year; month; day; hour; minute; second] in
  let xorValue := XOR payload in
  payload ++ [VNumber xorValue].

Section Further_operations.
Context `{Api : BleErrorApi}.
Local Open Scope js_scope.

Definition activateVibration (deviceIdentifier : string) (duration : number)
    (transactionId : option string) : M string :=
  let* transactionId := fill transactionId in
  let uint16 := activateVibration_uint16 duration in
  let value := base64ArrayBuffer uint16 in
  do BleModule (WriteCharacteristicForDevice deviceIdentifier trackerServiceUUID
                  trackerWriteCharacteristic value true transactionId) in
  _callPromise Awaited.

Definition setTrackerDistanceUnit (deviceIdentifier unit : string)
    (transactionId : option string) : M string :=
  let* transactionId := fill transactionId in
  let uint16 := setTrackerDistanceUnit_uint16 unit in
  let value := base64ArrayBuffer uint16 in
  do BleModule (WriteCharacteristicForDevice deviceIdentifier trackerServiceUUID
                  trackerWriteCharacteristic value true transactionId) in
  _callPromise Awaited.

Definition getDetailedDayActivity (deviceIdentifier : string) (date : number)
    (transactionId : option string) : M string :=
  let* transactionId := fill transactionId in
  let uint16 := getDetailedDayActivity_uint16 date in
  let value := base64ArrayBuffer uint16 in
  do BleModule (WriteCharacteristicForDevice deviceIdentifier trackerServiceUUID
                  trackerWriteCharacteristic value true transactionId) in
  _callPromise Awaited.

Definition getSummaryDayActivity (deviceIdentifier : string) (date : number)
    (transactionId : option string) : M string :=
  let* transactionId := fill transactionId in
  let uint16 := getSummaryDayActivity_uint16 date in
  let value := base64ArrayBuffer uint16 in
  do BleModule (WriteCharacteristicForDevice deviceIdentifier trackerServiceUUID
                  trackerWriteCharacteristic value true transactionId) in
  _callPromise Awaited.

Definition tracker (c : TrackerCommand) (deviceIdentifier : string)
    : option string → M string :=
  match c with
  | Vibration duration => activateVibration deviceIdentifier duration
  | DeviceTime date => setDeviceTime deviceIdentifier date
  | DistanceUnit unit => setTrackerDistanceUnit deviceIdentifier unit
  | DetailedDayActivity date => getDetailedDayActivity deviceIdentifier date
  | SummaryDayActivity date => getSummaryDayActivity deviceIdentifier date
  end.

(** [const measurementUnit = measurementUnit === 'metric' ? 0 : 1] again:
    what the read gives depends on the build, [scoping]; the value is not
    used afterwards. *)
Definition resetAlternativeScale (scoping : Scoping) (deviceIdentifier : string)
    (transactionId : option string) : M string :=
  let* transactionId := fill transactionId in
  let measurementUnit_binding := in_own_initialiser scoping in
  let* measurementUnit_read := read_binding "measurementUnit" measurementUnit_binding in
  let measurementUnit :=
    if strict_equal_string measurementUnit_read "metric" then Num 0 else Num 1 in
  let uint16 := Uint8Array_of_numbers [1] in
  let value := base64ArrayBuffer uint16 in
  do BleModule (WriteCharacteristicForDevice deviceIdentifier scaleServiceUUID
                  alternativeScaleReadFinalCharacteristic value true transactionId) in
  _callPromise Awaited.

(** The shape shared by the four fixed blood-pressure commands. *)
Definition bloodPressureCommand (payload : list Z) (deviceIdentifier : string)
    (transactionId : option string) : M string :=
  let* transactionId := fill transactionId in
  let value := base64ArrayBuffer payload in
  do BleModule (WriteCharacteristicForDevice deviceIdentifier bloodPressureServiceUUID
                  bloodPressureCharacteristicWriteUUID value true transactionId) in
  _callPromise Awaited.

Definition fetchBloodPressureMode : string → option string → M string :=
  bloodPressureCommand fetchBloodPressureMode_payload.
Definition fetchHistoricBloodPressureMeasurement : string → option string → M string :=
  bloodPressureCommand fetchHistoricBloodPressureMeasurement_payload.
Definition turnBloodPressureVoiceOff : string → option string → M string :=
  bloodPressureCommand turnBloodPressureVoiceOff_payload.
Definition startBloodPressureTesting : string → option string → M string :=
  bloodPressureCommand startBloodPressureTesting_payload.

(** [reading] is what the date library returns when the method runs. *)
Definition setBloodPressureTime (reading : MomentReading) (deviceIdentifier : string)
    (transactionId : option string) : M string :=
  let* transactionId := fill transactionId in
  let payload := setBloodPressureTime_payload reading in
  let value := base64ArrayBuffer (Uint8Array_from payload) in
  do BleModule (WriteCharacteristicForDevice deviceIdentifier bloodPressureServiceUUID
                  bloodPressureCharacteristicWriteUUID value true transactionId) in
  _callPromise Awaited.

End Further_operations.

(** [writeCharacteristicWithResponseForDevice] and
    [writeCharacteristicWithoutResponseForDevice]. *)
Section Plain_writes.
Context `{Api : BleErrorApi}.
Local Open Scope js_scope.

Definition writeCharacteristicWithResponseForDevice
    (deviceIdentifier serviceUUID characteristicUUID base64Value : string)
    (transactionId : option string) : M string :=
  let* transactionId := fill transactionId in
  do BleModule (WriteCharacteristicForDevice deviceIdentifier serviceUUID
                  characteristicUUID base64Value true transactionId) in
  _callPromise Awaited.

Definition writeCharacteristicWithoutResponseForDevice
    (deviceIdentifier serviceUUID characteristicUUID base64Value : string)
    (transactionId : option string) : M string :=
  let* transactionId := fill transactionId in
  do BleModule (WriteCharacteristicForDevice deviceIdentifier serviceUUID
                  characteristicUUID base64Value false transactionId) in
  _callPromise Awaited.

End Plain_writes.

(** ** Reference definitions of the further properties *)

(** The first byte of each tracker command. *)
Definition tracker_opcode (c : TrackerCommand) : Z :=
  match c with
  | Vibration _ => 54
  | DeviceTime _ => 1
  | DistanceUnit _ => 15
  | DetailedDayActivity _ => 67
  | SummaryDayActivity _ => 7
  end.

(** The two decimal digits of a field below 100, and the text of a date and
    time made of such fields: [CCYY-MM-DDThh:mm:ss]. *)
Definition two_digit_text (v : Z) : string :=
  String (digit_char (v / 10)) (String (digit_char (v mod 10)) EmptyString).

Definition date_time_text (century year month day hour minute second : Z) : string :=
  two_digit_text century +:+ two_digit_text year +:+ "-" +:+ two_digit_text month
    +:+ "-" +:+ two_digit_text day +:+ "T" +:+ two_digit_text hour
    +:+ ":" +:+ two_digit_text minute +:+ ":" +:+ two_digit_text second.

(** Binary-coded decimal: the tens in the high nibble, the ones in the low. *)
Definition bcd (v : Z) : Z := 16 * (v / 10) + v mod 10.

(** The two lower-case hexadecimal digits of a byte, and the text of a
    four-byte user id. *)
Definition hex_pair (b : Z) : string :=
  String (digit_char (b / 16)) (String (digit_char (b mod 16)) EmptyString).

Definition user_text (u0 u1 u2 u3 : Z) : string :=
  hex_pair u0 +:+ hex_pair u1 +:+ hex_pair u2 +:+ hex_pair u3.

(** Saturation of [x] to the range from [lo] to [hi]. *)
Definition saturate (lo hi x : Z) : Z := lo `max` (x `min` hi).

(** Exclusive-or of a list of integers. *)
Definition xor_bytes (l : list Z) : Z := fold_left Z.lxor l 0.

(** A reading of the date library for a valid date: the two digits of the
    current year and the calendar fields of the argument. *)
Definition moment_reading (yy month day hour minute second : Z) : MomentReading :=
  {| format_YY := two_digit_text yy;
     moment_month := Num month; moment_date := Num day; moment_hour := Num hour;
     moment_minute := Num minute; moment_second := Num second |}.

Definition calendar_fields (yy month day hour minute second : Z) : Prop :=
  0 ≤ yy ≤ 99 ∧ 0 ≤ month ≤ 11 ∧ 1 ≤ day ≤ 31 ∧ 0 ≤ hour ≤ 23 ∧
  0 ≤ minute ≤ 59 ∧ 0 ≤ second ≤ 59.

(** The four blood-pressure commands with a fixed frame, by name. *)
Inductive FixedBloodPressureCommand : Type :=
| FetchMode
| FetchHistoricMeasurement
| VoiceOff
| StartTesting.

Definition fixed_payload (c : FixedBloodPressureCommand) : list Z :=
  match c with
  | FetchMode => fetchBloodPressureMode_payload
  | FetchHistoricMeasurement => fetchHistoricBloodPressureMeasurement_payload
  | VoiceOff => turnBloodPressureVoiceOff_payload
  | StartTesting => startBloodPressureTesting_payload
  end.

Section Further_properties.
Context `{Api : BleErrorApi}.

Definition fixed_command (c : FixedBloodPressureCommand)
    : string → option string → M string :=
  match c with
  | FetchMode => fetchBloodPressureMode
  | FetchHistoricMeasurement => fetchHistoricBloodPressureMeasurement
  | VoiceOff => turnBloodPressureVoiceOff
  | StartTesting => startBloodPressureTesting
  end.

(** The transaction id an operation uses when it is given [transactionId]
    in state [m]: the argument when it is truthy, the next unique id
    otherwise. *)
Definition filled (transactionId : option string) (m : Manager) : string :=
  default (pretty (S (_uniqueId m))) (truthy transactionId).

(** The id of the activation of [_callPromise] such an operation awaits. *)
Definition awaited (transactionId : option string) (m : Manager) : string :=
  match truthy transactionId with
  | Some _ => pretty (S (_uniqueId m))
  | None => pretty (S (S (_uniqueId m)))
  end.

End Further_properties.

Section Further_mediation.
Context `{Api : BleErrorApi}.

(** The operations added above, by name and arguments. *)
Inductive FurtherOperation : Type :=
| Tracker (c : TrackerCommand) (deviceIdentifier : string)
| ResetAlternativeScale (scoping : Scoping) (deviceIdentifier : string)
| FixedBloodPressure (c : FixedBloodPressureCommand) (deviceIdentifier : string)
| SetBloodPressureTime (reading : MomentReading) (deviceIdentifier : string)
| WriteWithResponse (deviceIdentifier serviceUUID characteristicUUID base64Value : string)
| WriteWithoutResponse
    (deviceIdentifier serviceUUID characteristicUUID base64Value : string).

Definition further (op : FurtherOperation) : option string → M string :=
  match op with
  | Tracker c d => tracker c d
  | ResetAlternativeScale scoping d => resetAlternativeScale scoping d
  | FixedBloodPressure c d => fixed_command c d
  | SetBloodPressureTime reading d => setBloodPressureTime reading d
  | WriteWithResponse d s c v => writeCharacteristicWithResponseForDevice d s c v
  | WriteWithoutResponse d s c v => writeCharacteristicWithoutResponseForDevice d s c v
  end.

(** The operations that reach their write; under block scoping
    [resetAlternativeScale] throws before it. *)
Definition writes (op : FurtherOperation) : bool :=
  match op with
  | ResetAlternativeScale BlockScoped _ => false
  | _ => true
  end.

(** What the user and the world can do to a manager, with these operations
    included. *)
Inductive move : Manager → Manager → Prop :=
| move_step m m' : step m m' → move m m'
| move_further m op transactionId : move m (exec (further op transactionId) m).

Inductive attainable : Manager → Prop :=
| attainable_new mapping : attainable (constructor mapping)
| attainable_move m m' : attainable m → move m m' → attainable m'.

(** [m'] is [m] at the same moment or later. *)
Inductive later (m : Manager) : Manager → Prop :=
| later_now : later m m
| later_move m' m'' : later m m' → move m' m'' → later m m''.

(** Every tracked subscription is the [wrappedSubscription] made for its own
    id around a subscription of the event emitter, and no scan is running. *)
Definition subscriptions_owned (m : Manager) : Prop :=
  _scanEventSubscription m = None ∧
  ∀ id s, _activeSubscriptions m !! id = Some s →
          ∃ handle, s = WrappedSubscription id (EmitterSubscription handle).

(** Every reject function in the registry is the one of the activation it is
    stored under, and that activation has not run past its [await]. *)
Definition registry_backed (m : Manager) : Prop :=
  ∀ id f, _activePromises m !! id = Some f →
          f = RejectDestroyPromise id ∧
          ∃ a, activations m !! id = Some a ∧ resumed a = None.

(** From [m] to [m'] no activation is lost or given other handlers, no
    settled race is settled again, and no outcome changes; the counter does
    not decrease and the message table stays. *)
Definition continues (m m' : Manager) : Prop :=
  (_uniqueId m ≤ _uniqueId m')%nat ∧
  _errorCodesToMessagesMapping m' = _errorCodesToMessagesMapping m ∧
  ∀ id a, activations m !! id = Some a →
    ∃ a', activations m' !! id = Some a' ∧ chained a' = chained a ∧
          (∀ s, race a = Some s → race a' = Some s) ∧
          (∀ o, resumed a = Some o → resumed a' = Some o).

(** What one registered listener of the emitter passes on of an event. *)
Definition delivery (mapping : Mapping) (event : option string * Native * string)
    (l : EmitterListener) : option ListenerCall :=
  let '(error, characteristic, msgTransactionId) := event in
  match l with
  | MonitorListener transactionId listener =>
      if String.eqb transactionId msgTransactionId then
        Some match truthy error with
             | Some error =>
                 {| callee := listener;
                    call_error := Some (parseBleError error mapping);
                    call_characteristic := None |}
             | None =>
                 {| callee := listener; call_error := None;
                    call_characteristic :=
                      Some {| nativeCharacteristic := characteristic |} |}
             end
      else None
  end.

(** A method under which a property of the manager stays. *)
Definition maintains {A} (P : Manager → Prop) (c : M A) : Prop :=
  ∀ m, P m → P (snd (c m)).

(** What one visit of the loop of [_destroySubscriptions] does. *)
Definition remove_visit (id : string) : M unit :=
  bind (read _activeSubscriptions) (λ current,
    match current !! id with
    | Some subscription => remove subscription
    | None => ret tt
    end).

End Further_mediation.

(** The transaction id a call into the native module carries. *)
Definition transaction_of `{Api : BleErrorApi} (c : BleModuleCall) : option string :=
  match c with
  | CreateClient | DestroyClient => None
  | CancelTransaction t => Some t
  | WriteCharacteristicForDevice _ _ _ _ _ t => Some t
  | MonitorCharacteristicForDevice _ _ _ t => Some t
  | MonitorCharacteristicForService _ _ t => Some t
  | MonitorCharacteristic _ t => Some t
  end.

(** The call into the native module each monitoring operation makes. *)
Definition monitor_call `{Api : BleErrorApi} (op : MonitoringOperation)
    (transactionId : string) : BleModuleCall :=
  match op with
  | ForDevice d s c => MonitorCharacteristicForDevice d s c transactionId
  | ScaleResponse d =>
      MonitorCharacteristicForDevice d scaleServiceUUID scaleReadCharacteristic
        transactionId
  | AlternativeScaleFinalResponse d =>
      MonitorCharacteristicForDevice d scaleServiceUUID
        alternativeScaleReadFinalCharacteristic transactionId
  | AlternativeScaleResponse d =>
      MonitorCharacteristicForDevice d scaleServiceUUID
        alternativeScaleReadCharacteristic transactionId
  | TrackerResponse d =>
      MonitorCharacteristicForDevice d trackerServiceUUID trackerReadCharacteristic
        transactionId
  | ForService s c => MonitorCharacteristicForService s c transactionId
  | ForCharacteristic c => MonitorCharacteristic c transactionId
  | BloodPressureResponse d =>
      MonitorCharacteristicForDevice d bloodPressureServiceUUID
        bloodPressureCharacteristicUUID transactionId
  | GlucometerResponse d =>
      MonitorCharacteristicForDevice d glucometerServiceUUID
        glucometerCharacteristicReadUUID transactionId
  | OximeterResponse d =>
      MonitorCharacteristicForDevice d oximeterServiceUUID
        oximeterCharacteristicNotifyUUID transactionId
  end.
(** * Properties *)

(** ** Support *)

Lemma check_range_spec (f : Z → bool) (n : nat) :
  ∀ lo, check_range f lo n = true → ∀ z, lo ≤ z < lo + Z.of_nat n → f z = true.
Proof.
  induction n as [|n IH]; intros lo Hc z Hz; [lia|].
  simpl in Hc. apply andb_prop in Hc as [Hlo Hrest].
  destruct (decide (z = lo)) as [->|Hne]; [done|].
  apply (IH (lo + 1)); [done|lia].
Qed.

Lemma number_eqb_eq (a b : number) : number_eqb a b = true → a = b.
Proof.
  destruct a, b; simpl; try done.
  intros H. apply Z.eqb_eq in H. by subst.
Qed.

Lemma append_cons (c : ascii) (s1 s2 : string) :
  String c s1 +:+ s2 = String c (s1 +:+ s2).
Proof. reflexivity. Qed.

Lemma append_empty_l (s : string) : EmptyString +:+ s = s.
Proof. reflexivity. Qed.

Lemma append_assoc (s1 s2 s3 : string) : (s1 +:+ s2) +:+ s3 = s1 +:+ (s2 +:+ s3).
Proof.
  induction s1 as [|c s1 IH]; [done|].
  by rewrite !append_cons, IH.
Qed.

Lemma append_empty_r (s : string) : s +:+ EmptyString = s.
Proof.
  induction s as [|c s IH]; [done|].
  by rewrite append_cons, IH.
Qed.

Lemma toInt32z_small (z : Z) : - two31 ≤ z < two31 → toInt32z z = z.
Proof.
  intros Hz. unfold toInt32z. rewrite Z.mod_small; unfold two31, two32 in *; lia.
Qed.

(** ** C4 *)


(** ** C6, C10: the scale user profiles *)

(** [parseInt(n)] gives back an integer that fits a byte. *)
Lemma parseInt_number_byte (z : Z) : 0 ≤ z < 256 → parseInt_number (Num z) = Num z.
Proof.
  intros Hz. apply number_eqb_eq.
  apply (check_range_spec (λ z, number_eqb (parseInt_number (Num z)) (Num z)) 256 0);
    [by vm_compute|lia].
Qed.

Lemma clamp_lt_gt (lo hi x : Z) :
  lo ≤ hi →
  (if lt (Num x) (Num lo) then Num lo else if gt (Num x) (Num hi) then Num hi else Num x)
  = Num (lo `max` (x `min` hi)).
Proof.
  intros Hle. unfold gt, lt.
  destruct (Z.ltb_spec x lo), (Z.ltb_spec hi x); f_equal; lia.
Qed.

(** The alternative-scale profile saturates both fields: whatever the
    arguments, byte 8 is the height clamped to [100, 218] and byte 9 the age
    clamped to [10, 98]. *)
Lemma setUserProfileToAlternativeScale_saturates (user : string) (age height : Z)
    (gender : number) :
  let frame := setUserProfileToAlternativeScale_uint16 user (Num age) (Num height) gender in
  frame !! 8%nat = Some (100 `max` (height `min` 218)) ∧
  frame !! 9%nat = Some (10 `max` (age `min` 98)).
Proof.
  unfold setUserProfileToAlternativeScale_uint16.
  rewrite !clamp_lt_gt by lia.
  split.
  - change (Some (ToUint8 (parseInt_number (Num (100 `max` (height `min` 218)))))
            = Some (100 `max` (height `min` 218))).
    rewrite parseInt_number_byte by lia. simpl. f_equal. apply Z.mod_small. lia.
  - change (Some (ToUint8 (parseInt_number (Num (10 `max` (age `min` 98)))))
            = Some (10 `max` (age `min` 98))).
    rewrite parseInt_number_byte by lia. simpl. f_equal. apply Z.mod_small. lia.
Qed.

(** The bytes [base64ArrayBuffer] reads from the array of
    [setUserProfileToScales]. *)
Lemma setUserProfileToScales_bytes (age height : Z) (gender : string) :
  Uint8Array_of_numbers (setUserProfileToScales_array (Num age) (Num height) gender) =
  [253; 83; 0; 0; 255;
   (age + (if String.eqb gender "male" then 128 else 0)) mod 256;
   100 `max` (height `min` 218)].
Proof.
  unfold setUserProfileToScales_array.
  rewrite clamp_lt_gt by lia.
  assert (Hg : ∀ x, (x mod 65536) mod 256 = x mod 256).
  { intros x. apply Z.mod_mod_divide. by exists 256. }
  unfold Uint8Array_of_numbers, Uint16Array_from. simpl.
  do 5 f_equal. f_equal; [|f_equal].
  - destruct (String.eqb gender "male"); simpl; rewrite Hg; [done|].
    by rewrite Z.add_0_r.
  - rewrite Hg. apply Z.mod_small. lia.
Qed.

(** C6, at the failing input. In [setUserProfileToScales] the age is not
    saturated: age 5 is transmitted as 5 (as 133 for a male profile) and age
    150 as 150, while the height of the same call is saturated. *)
Theorem setUserProfileToScales_age_not_saturated :
  Uint8Array_of_numbers (setUserProfileToScales_array (Num 5) (Num 50) "female")
    = [253; 83; 0; 0; 255; 5; 100] ∧
  Uint8Array_of_numbers (setUserProfileToScales_array (Num 5) (Num 50) "male")
    = [253; 83; 0; 0; 255; 133; 100] ∧
  Uint8Array_of_numbers (setUserProfileToScales_array (Num 150) (Num 300) "female")
    = [253; 83; 0; 0; 255; 150; 218].
Proof. by vm_compute. Qed.

(** ** C3: the XOR trailer *)

Lemma numeric_elements_cons (v : value) (l : list value) :
  numeric_elements (v :: l) =
  if isNaN v then numeric_elements l else ToNumber v :: numeric_elements l.
Proof.
  unfold numeric_elements. rewrite filter_cons.
  destruct (isNaN v) eqn:Hv.
  - by rewrite decide_False.
  - by rewrite decide_True.
Qed.

Lemma XOR_loop_fold (input : list value) :
  ∀ total, XOR_loop input total = fold_left bxor (numeric_elements input) total.
Proof.
  induction input as [|v input IH]; intros total; [done|].
  simpl. rewrite numeric_elements_cons.
  destruct (isNaN v); simpl; apply IH.
Qed.

Lemma bxor_self (z : Z) : bxor (Num z) (Num z) = Num 0.
Proof. unfold bxor. by rewrite Z.lxor_nilpotent. Qed.

(** Once an element has been folded in, a total that started as [NaN] is the
    same as one that started as 0. *)
Lemma fold_bxor_NaN (x : number) (l : list number) :
  fold_left bxor (x :: l) NaN = fold_left bxor (x :: l) (Num 0).
Proof. reflexivity. Qed.

Lemma isNaN_false_Num (v : value) : isNaN v = false → ∃ z, ToNumber v = Num z.
Proof. unfold isNaN. destruct (ToNumber v); [eauto|done]. Qed.

(** C3, as amended. [XOR(b)] is the left fold of [^] over the numeric elements
    of [b] after index 0: a numeric first element is folded in twice and
    cancels, non-numeric elements are skipped, and an array without a numeric
    element gives [NaN]. *)
Theorem XOR_folds_after_first (b : list value) :
  XOR b = match numeric_elements b with
          | [] => NaN
          | _ => xor_fold (tail b)
          end.
Proof.
  unfold XOR. rewrite XOR_loop_fold.
  destruct b as [|v rest]; [done|].
  simpl. rewrite numeric_elements_cons. unfold xor_fold.
  destruct (isNaN v) eqn:Hv.
  - unfold isNaN in Hv. destruct (ToNumber v); [done|].
    destruct (numeric_elements rest); [done|]. apply fold_bxor_NaN.
  - apply isNaN_false_Num in Hv as [z ->]. simpl. by rewrite bxor_self.
Qed.

(** C3 as stated fails: on a one-element array the fold over all numeric
    elements is that element, and [XOR] gives 0; on the frame of the
    blood-pressure time command the first byte is missing from the result. *)
Lemma XOR_not_fold_of_all :
  XOR [VNumber (Num 1)] ≠ xor_fold [VNumber (Num 1)] ∧
  XOR (VNumber ∘ Num <$> [2; 64; 220; 7; 176; 24; 3; 5; 13; 45; 12])
    ≠ xor_fold (VNumber ∘ Num <$> [2; 64; 220; 7; 176; 24; 3; 5; 13; 45; 12]).
Proof. by vm_compute. Qed.

(** The four fixed blood-pressure commands carry precomputed trailers; each is
    what [XOR] gives on the bytes before it, that is, the exclusive-or of the
    bytes after the leading 0x02. *)
Lemma blood_pressure_fixed_trailers :
  XOR (VNumber ∘ Num <$> [2; 64; 220; 1; 178]) = Num 47 ∧
  XOR (VNumber ∘ Num <$> [2; 64; 220; 1; 177]) = Num 44 ∧
  XOR (VNumber ∘ Num <$> [2; 64; 220; 1; 163]) = Num 62 ∧
  XOR (VNumber ∘ Num <$> [2; 64; 220; 1; 161]) = Num 60.
Proof. by vm_compute. Qed.

(** ** Additive checksum *)

Lemma toInt32z_mod_256 (z : Z) : toInt32z z mod 256 = z mod 256.
Proof. unfold toInt32z, two31, two32. Z.div_mod_to_equations. lia. Qed.

(** For all byte sequences, the additive checksum is the sum modulo 256. *)
Lemma calculateChecksum_sum (array : list Z) :
  calculateChecksum array = fold_left Z.add array 0 mod 256.
Proof.
  unfold calculateChecksum, band, ToInt32.
  change (toInt32z 255) with (Z.ones 8).
  rewrite Z.land_ones by lia. change (2 ^ 8) with 256.
  rewrite toInt32z_mod_256.
  change (λ sum x : Z, sum + x) with Z.add.
  pose proof (Z.mod_pos_bound (fold_left Z.add array 0) 256).
  rewrite (toInt32z_small (_ mod 256)) by (unfold two31; lia).
  apply toInt32z_small. unfold two31. lia.
Qed.

(** ** C7: the glucometer frames *)

Lemma hex_text_reads_back (z : Z) :
  0 ≤ z < 256 →
  StringToNumber (hex_text z) = Num z ∧ parseInt (hex_text z) (Some 16) = Num z.
Proof.
  intros Hz.
  pose proof (check_range_spec
    (λ z, number_eqb (StringToNumber (hex_text z)) (Num z) &&
          number_eqb (parseInt (hex_text z) (Some 16)) (Num z)) 256 0) as H.
  specialize (H ltac:(by vm_compute) z ltac:(lia)).
  apply andb_prop in H as [H1 H2]. split; by apply number_eqb_eq.
Qed.

(** Digits are put in front of what has been produced so far. *)
Lemma to_digits_acc (radix : Z) (fuel : nat) :
  ∀ z acc, to_digits fuel radix z acc = to_digits fuel radix z EmptyString +:+ acc.
Proof.
  induction fuel as [|fuel IH]; intros z acc; [done|].
  simpl. destruct (z / radix =? 0); [done|].
  rewrite IH, (IH _ (String _ EmptyString)). by rewrite append_assoc.
Qed.

Lemma substring_all (s : string) : substring 0 (String.length s) s = s.
Proof. induction s as [|c s IH]; simpl; [done|by rewrite IH]. Qed.

Lemma substr_last_append (p s : string) :
  substr_last (p +:+ s) (String.length s) = s.
Proof.
  unfold substr_last.
  induction p as [|c p IH].
  - rewrite append_empty_l, Nat.sub_diag. apply substring_all.
  - rewrite append_cons. simpl String.length.
    assert (Hlen : ∀ a b, String.length (a +:+ b) = (String.length a + String.length b)%nat).
    { intros a b. induction a as [|c' a IHa]; [done|].
      rewrite append_cons. simpl. by rewrite IHa. }
    rewrite Hlen in *.
    replace (S (String.length p + String.length s) - String.length s)%nat
      with (S (String.length p + String.length s - String.length s)) by lia.
    simpl. exact IH.
Qed.

Lemma two_digits_read_back (v : Z) :
  0 ≤ v < 100 →
  parseInt (String (digit_char (v / 10 mod 10)) (String (digit_char (v mod 10)) EmptyString)) None
  = Num v.
Proof.
  intros Hv. apply number_eqb_eq.
  apply (check_range_spec
    (λ v, number_eqb
            (parseInt (String (digit_char (v / 10 mod 10))
                         (String (digit_char (v mod 10)) EmptyString)) None) (Num v)) 100 0);
    [by vm_compute|lia].
Qed.

Lemma one_digit_read_back (v : Z) :
  0 ≤ v < 10 →
  parseInt (substr_last (JS.toString (Num v) 10) 2) None = Num v.
Proof.
  intros Hv. apply number_eqb_eq.
  apply (check_range_spec
    (λ v, number_eqb (parseInt (substr_last (JS.toString (Num v) 10) 2) None) (Num v))
    10 0); [by vm_compute|lia].
Qed.

(** The last two decimal digits of the year, read as a number. *)
Lemma year_two_digits (y : Z) :
  0 ≤ y →
  parseInt (substr_last (JS.toString (Num y) 10) 2) None = Num (y mod 100).
Proof.
  intros Hy. destruct (decide (y < 10)) as [Hlt|Hge].
  { rewrite one_digit_read_back by lia. by rewrite Z.mod_small by lia. }
  assert (H10 : y / 10 ≠ 0) by (Z.div_mod_to_equations; lia).
  assert (Hlog : 1 ≤ Z.log2 y) by (apply Z.log2_le_pow2; simpl; lia).
  unfold JS.toString. rewrite (proj2 (Z.ltb_ge y 0)) by lia.
  destruct (Z.to_nat (Z.log2 y)) as [|fuel] eqn:Hfuel; [lia|].
  cbn [to_digits]. rewrite (proj2 (Z.eqb_neq _ _) H10).
  set (tail := String (digit_char (y / 10 mod 10)) (String (digit_char (y mod 10)) EmptyString)).
  assert (Hs : ∃ p,
    (if y / 10 / 10 =? 0 then tail else to_digits fuel 10 (y / 10 / 10) tail) = p +:+ tail).
  { destruct (y / 10 / 10 =? 0); [by exists EmptyString|].
    eexists. apply to_digits_acc. }
  destruct Hs as [p ->].
  change 2%nat with (String.length tail). rewrite substr_last_append.
  subst tail.
  replace (y / 10 mod 10) with ((y mod 100) / 10 mod 10) by (Z.div_mod_to_equations; lia).
  replace (y mod 10) with ((y mod 100) mod 10) by (Z.div_mod_to_equations; lia).
  apply two_digits_read_back. apply Z.mod_pos_bound. lia.
Qed.

Lemma glucometer_trailer_value (y mo d h mi : Z) :
  0 ≤ y < 256 → 0 ≤ mo < 256 → 0 ≤ d < 256 → 0 ≤ h < 256 → 0 ≤ mi < 256 →
  glucometer_trailer (hex_text y) (hex_text mo) (hex_text d) (hex_text h) (hex_text mi)
  = hex_text ((90 + 10 + 0 + y + mo + d + h + mi + 2) mod 256).
Proof.
  intros Hy Hmo Hd Hh Hmi. unfold glucometer_trailer.
  rewrite (proj2 (hex_text_reads_back y Hy)), (proj2 (hex_text_reads_back mo Hmo)),
    (proj2 (hex_text_reads_back d Hd)), (proj2 (hex_text_reads_back h Hh)),
    (proj2 (hex_text_reads_back mi Hmi)).
  change (parseInt "5a" (Some 16)) with (Num 90).
  change (parseInt "0a" (Some 16)) with (Num 10).
  change (parseInt "00" (Some 16)) with (Num 0).
  unfold add, rem. change (256 =? 0) with false. cbv iota.
  rewrite Z.rem_mod_nonneg by lia. reflexivity.
Qed.

Lemma glucometer_fields (t : Date) :
  wall_clock t →
  glucometer_year t = hex_text (getFullYear t mod 100) ∧
  glucometer_month t = hex_text (getMonth t + 1) ∧
  glucometer_dayNumber t = hex_text (getDate t) ∧
  glucometer_hour t = hex_text (getHours t) ∧
  glucometer_minutes t = hex_text (getMinutes t).
Proof.
  intros (Hy & _). unfold glucometer_year. rewrite year_two_digits by lia.
  done.
Qed.

Lemma Uint8_of_hex_text (z : Z) :
  0 ≤ z < 256 → ToUint8 (ToNumber (VString (hex_text z))) = z.
Proof.
  intros Hz. cbn [ToNumber]. rewrite (proj1 (hex_text_reads_back z Hz)).
  cbn [ToUint8]. by apply Z.mod_small.
Qed.

(** The bytes of the two glucometer frames, for every reading of the clock. *)
Lemma glucometer_payload_bytes (opcode : Z) (t : Date) :
  wall_clock t →
  let yy := getFullYear t mod 100 in
  let trailer := (90 + 10 + 0 + yy + (getMonth t + 1) + getDate t + getHours t
                  + getMinutes t + 2) mod 256 in
  Uint8Array_from
    [ VNumber (Num 90); VNumber (Num 10); VNumber (Num opcode);
      VString (glucometer_year t); VString (glucometer_month t);
      VString (glucometer_dayNumber t); VString (glucometer_hour t);
      VString (glucometer_minutes t); VNumber (Num 0);
      VString (glucometer_trailer (glucometer_year t) (glucometer_month t)
                 (glucometer_dayNumber t) (glucometer_hour t) (glucometer_minutes t)) ]
  = [90; 10; opcode mod 256; yy; getMonth t + 1; getDate t; getHours t; getMinutes t; 0;
     trailer].
Proof.
  intros Ht yy trailer.
  destruct (glucometer_fields t Ht) as (-> & -> & -> & -> & ->).
  destruct Ht as (Hy & Hmo & Hd & Hh & Hmi).
  pose proof (Z.mod_pos_bound (getFullYear t) 100).
  rewrite glucometer_trailer_value by lia.
  unfold Uint8Array_from. rewrite !fmap_cons, fmap_nil.
  rewrite !Uint8_of_hex_text; [done|subst trailer yy..]; try lia.
  apply Z.mod_pos_bound. lia.
Qed.

(** C7, as amended. For the glucometer time-set command, the outbound frame
    has 10 bytes and its last byte is the sum of the nine preceding bytes plus
    2, modulo 256, for every reading of the wall clock. *)
Theorem setGlucometerTime_trailer (t : Date) :
  wall_clock t →
  let frame := setGlucometerTime_payload t in
  length frame = 10%nat ∧
  frame !! 9%nat = Some ((fold_left Z.add (take 9 frame) 0 + 2) mod 256).
Proof.
  intros Ht frame. subst frame. unfold setGlucometerTime_payload.
  rewrite (glucometer_payload_bytes 0 t Ht). split; [done|].
  simpl. change (0 mod 256) with 0. do 2 f_equal. lia.
Qed.

Lemma setGlucometerTime_trailer_witness :
  let t := {| getFullYear := 2024; getMonth := 11; getDate := 31;
              getHours := 23; getMinutes := 59 |} in
  wall_clock t ∧
  length (setGlucometerTime_payload t) = 10%nat ∧
  setGlucometerTime_payload t !! 9%nat =
    Some ((fold_left Z.add (take 9 (setGlucometerTime_payload t)) 0 + 2) mod 256).
Proof.
  intros t. assert (Ht : wall_clock t) by (unfold wall_clock; simpl; lia).
  split; [exact Ht|]. exact (setGlucometerTime_trailer t Ht).
Defined.

(** The fetch-additional-record command adds the same constants as the
    time-set command, although its third byte is 3: its last byte is one less
    than the sum of the nine preceding bytes, modulo 256. *)
Lemma fetchAdditionalGlucometerRecord_trailer (t : Date) :
  wall_clock t →
  let frame := fetchAdditionalGlucometerRecord_payload t in
  length frame = 10%nat ∧
  frame !! 9%nat = Some ((fold_left Z.add (take 9 frame) 0 - 1) mod 256).
Proof.
  intros Ht frame. subst frame. unfold fetchAdditionalGlucometerRecord_payload.
  rewrite (glucometer_payload_bytes 3 t Ht). split; [done|].
  simpl. change (3 mod 256) with 3. do 2 f_equal. lia.
Qed.

(** C7 as stated fails: on 31 December 2024 at 23:59 the last byte of both
    frames is 251, and the additive checksum of the nine preceding bytes is
    249 for the time-set command and 252 for the fetch command. *)
Lemma glucometer_trailer_not_additive :
  let t := {| getFullYear := 2024; getMonth := 11; getDate := 31;
              getHours := 23; getMinutes := 59 |} in
  wall_clock t ∧
  setGlucometerTime_payload t !! 9%nat = Some 251 ∧
  additive_trailer (setGlucometerTime_payload t) = 249 ∧
  fetchAdditionalGlucometerRecord_payload t !! 9%nat = Some 251 ∧
  additive_trailer (fetchAdditionalGlucometerRecord_payload t) = 252.
Proof. split; [unfold wall_clock; simpl; lia|by vm_compute]. Qed.

(** ** C5: base64 framing *)

(** *** The bitwise operators on small non-negative numbers *)

Lemma land_bound (x m : Z) : 0 ≤ x → 0 ≤ m < two31 → 0 ≤ Z.land x m < two31.
Proof.
  intros Hx Hm. split; [apply Z.land_nonneg; lia|].
  destruct (decide (Z.land x m = 0)) as [->|Hne]; [done|].
  assert (0 ≤ Z.land x m) by (apply Z.land_nonneg; lia).
  assert (m ≠ 0) by (intros ->; by rewrite Z.land_0_r in Hne).
  unfold two31 in *. change 2147483648 with (2 ^ 31).
  apply Z.log2_lt_pow2; [lia|].
  pose proof (Z.log2_land x m Hx (proj1 Hm)).
  assert (Z.log2 m < 31) by (apply Z.log2_lt_pow2; [lia|simpl; lia]).
  lia.
Qed.

Lemma band_small (x m : Z) :
  0 ≤ x < two31 → 0 ≤ m < two31 → band (Num x) (Num m) = Num (Z.land x m).
Proof.
  intros Hx Hm. unfold band, ToInt32.
  rewrite (toInt32z_small x), (toInt32z_small m) by (unfold two31 in *; lia).
  rewrite toInt32z_small; [done|].
  pose proof (land_bound x m (proj1 Hx) Hm). unfold two31 in *; lia.
Qed.

Lemma shr_small (x k : Z) :
  0 ≤ x < two31 → 0 ≤ k < 32 → shr (Num x) (Num k) = Num (x / 2 ^ k).
Proof.
  intros Hx Hk. unfold shr, ToInt32.
  rewrite (toInt32z_small x), (toInt32z_small k) by (unfold two31 in *; lia).
  rewrite (Z.mod_small k 32) by lia.
  rewrite Z.shiftr_div_pow2 by lia.
  rewrite toInt32z_small; [done|].
  assert (0 < 2 ^ k) by (apply Z.pow_pos_nonneg; lia).
  assert (0 ≤ x / 2 ^ k ≤ x).
  { split; [apply Z.div_pos; lia|]. apply Z.div_le_upper_bound; nia. }
  unfold two31 in *. lia.
Qed.

Lemma shl_small (x k : Z) :
  0 ≤ x → 0 ≤ k < 32 → x * 2 ^ k < two31 → shl (Num x) (Num k) = Num (x * 2 ^ k).
Proof.
  intros Hx Hk Hlt. unfold shl, ToInt32.
  assert (0 < 2 ^ k) by (apply Z.pow_pos_nonneg; lia).
  assert (x ≤ x * 2 ^ k) by nia.
  rewrite (toInt32z_small x), (toInt32z_small k) by (unfold two31 in *; lia).
  rewrite (Z.mod_small k 32) by lia.
  rewrite Z.shiftl_mul_pow2 by lia.
  apply f_equal, toInt32z_small. unfold two31 in *. nia.
Qed.

Lemma lor_disjoint (hi lo k : Z) :
  0 ≤ k → 0 ≤ lo < 2 ^ k → Z.lor (hi * 2 ^ k) lo = hi * 2 ^ k + lo.
Proof.
  intros Hk Hlo.
  assert (Hland : Z.land (hi * 2 ^ k) lo = 0).
  { rewrite <- (Z.mod_small lo (2 ^ k)) by lia.
    rewrite <- (Z.land_ones lo k) by lia.
    rewrite (Z.land_comm lo), Z.land_assoc, Z.land_ones by lia.
    rewrite Z.mod_mul by lia. apply Z.land_0_l. }
  pose proof (Z.add_lor_land (hi * 2 ^ k) lo). lia.
Qed.

Lemma bor_disjoint (hi lo k : Z) :
  0 ≤ hi → 0 ≤ k → 0 ≤ lo < 2 ^ k → hi * 2 ^ k + lo < two31 →
  bor (Num (hi * 2 ^ k)) (Num lo) = Num (hi * 2 ^ k + lo).
Proof.
  intros Hhi Hk Hlo Hlt. unfold bor, ToInt32.
  assert (0 < 2 ^ k) by (apply Z.pow_pos_nonneg; lia).
  assert (0 ≤ hi * 2 ^ k) by nia.
  rewrite (toInt32z_small (hi * 2 ^ k)), (toInt32z_small lo) by (unfold two31 in *; lia).
  rewrite lor_disjoint by lia.
  apply f_equal, toInt32z_small. unfold two31 in *. lia.
Qed.

(** A field of a chunk: mask, then shift down. *)
Lemma field_of_chunk (x mask k w : Z) :
  0 ≤ x < two31 → 0 ≤ mask < two31 → 0 ≤ k < 32 → 0 ≤ w →
  Z.shiftr mask k = Z.ones w →
  shr (band (Num x) (Num mask)) (Num k) = Num (x / 2 ^ k mod 2 ^ w).
Proof.
  intros Hx Hm Hk Hw Hmask.
  rewrite band_small by done.
  rewrite shr_small by (auto using land_bound with lia).
  rewrite <- Z.shiftr_div_pow2 by lia.
  rewrite Z.shiftr_land, Hmask, Z.land_ones by lia.
  by rewrite Z.shiftr_div_pow2 by lia.
Qed.

Lemma low_field_of_chunk (x w : Z) :
  0 ≤ x < two31 → 0 ≤ w < 31 →
  band (Num x) (Num (Z.ones w)) = Num (x mod 2 ^ w).
Proof.
  intros Hx Hw.
  assert (0 < 2 ^ w < two31).
  { split; [apply Z.pow_pos_nonneg; lia|].
    unfold two31. change 2147483648 with (2 ^ 31). apply Z.pow_lt_mono_r; lia. }
  rewrite band_small; [by rewrite Z.land_ones by lia|done|].
  rewrite Z.ones_equiv. lia.
Qed.

(** *** The alphabet *)

Lemma symbol_spec (v : Z) :
  0 ≤ v < 64 →
  encodings_at (Num v) = String (symbol v) EmptyString ∧
  Base64Std.sextet (symbol v) = Some v ∧
  Ascii.eqb (symbol v) Base64Std.pad = false.
Proof.
  intros Hv.
  pose proof (check_range_spec
    (λ v, String.eqb (encodings_at (Num v)) (String (symbol v) EmptyString) &&
          bool_decide (Base64Std.sextet (symbol v) = Some v) &&
          negb (Ascii.eqb (symbol v) Base64Std.pad)) 64 0) as H.
  specialize (H ltac:(by vm_compute) v ltac:(lia)).
  apply andb_prop in H as [H H3]. apply andb_prop in H as [H1 H2].
  split; [by apply String.eqb_eq|].
  split; [by apply bool_decide_eq_true in H2|].
  by apply negb_true_iff.
Qed.

(** *** The groups of the encoder *)

Lemma group3_symbols (b0 b1 b2 : Z) :
  is_byte b0 → is_byte b1 → is_byte b2 →
  let n := chunk3 b0 b1 b2 in
  group3 b0 b1 b2 =
  String (symbol (n / 262144 mod 64)) (String (symbol (n / 4096 mod 64))
    (String (symbol (n / 64 mod 64)) (String (symbol (n mod 64)) EmptyString))).
Proof.
  intros H0 H1 H2 n. unfold is_byte, chunk3 in *. unfold group3.
  rewrite (shl_small b0 16), (shl_small b1 8) by (unfold two31; simpl; lia).
  rewrite (bor_disjoint b0 (b1 * 2 ^ 8) 16) by (unfold two31; simpl; lia).
  replace (b0 * 2 ^ 16 + b1 * 2 ^ 8) with ((b0 * 256 + b1) * 2 ^ 8) by (simpl; lia).
  rewrite (bor_disjoint (b0 * 256 + b1) b2 8) by (unfold two31; simpl; lia).
  replace ((b0 * 256 + b1) * 2 ^ 8 + b2) with n by (subst n; simpl; lia).
  assert (Hn : 0 ≤ n < 16777216) by (subst n; lia).
  rewrite (field_of_chunk n 16515072 18 6), (field_of_chunk n 258048 12 6),
    (field_of_chunk n 4032 6 6) by (unfold two31; (done || lia)).
  change 63 with (Z.ones 6).
  rewrite (low_field_of_chunk n 6) by (unfold two31; lia).
  change (2 ^ 18) with 262144. change (2 ^ 12) with 4096. change (2 ^ 6) with 64.
  assert (Hb : ∀ x, 0 ≤ x mod 64 < 64) by (intros; apply Z.mod_pos_bound; lia).
  rewrite (proj1 (symbol_spec _ (Hb (n / 262144)))), (proj1 (symbol_spec _ (Hb (n / 4096)))),
    (proj1 (symbol_spec _ (Hb (n / 64)))), (proj1 (symbol_spec _ (Hb n))).
  reflexivity.
Qed.

Lemma group1_symbols (b0 : Z) :
  is_byte b0 →
  group1 b0 =
  String (symbol (b0 / 4)) (String (symbol (b0 mod 4 * 16))
    (String Base64Std.pad (String Base64Std.pad EmptyString))).
Proof.
  unfold is_byte. intros H0. unfold group1.
  rewrite (field_of_chunk b0 252 2 6) by (unfold two31; (done || lia)).
  change 3 with (Z.ones 2).
  rewrite (low_field_of_chunk b0 2) by (unfold two31; lia).
  change (2 ^ 2) with 4. change (2 ^ 6) with 64.
  assert (0 ≤ b0 mod 4 < 4) by (apply Z.mod_pos_bound; lia).
  rewrite (shl_small (b0 mod 4) 4) by (unfold two31; simpl; lia).
  change (2 ^ 4) with 16.
  assert (Ha : 0 ≤ b0 / 4 mod 64 < 64) by (apply Z.mod_pos_bound; lia).
  assert (Hb : 0 ≤ b0 mod 4 * 16 < 64) by lia.
  rewrite (proj1 (symbol_spec _ Ha)), (proj1 (symbol_spec _ Hb)).
  rewrite (Z.mod_small (b0 / 4) 64) by (Z.div_mod_to_equations; lia).
  reflexivity.
Qed.

Lemma group2_symbols (b0 b1 : Z) :
  is_byte b0 → is_byte b1 →
  let n := b0 * 256 + b1 in
  group2 b0 b1 =
  String (symbol (n / 1024)) (String (symbol (n / 16 mod 64))
    (String (symbol (n mod 16 * 4)) (String Base64Std.pad EmptyString))).
Proof.
  intros H0 H1 n. unfold is_byte in *. unfold group2.
  rewrite (shl_small b0 8) by (unfold two31; simpl; lia).
  rewrite (bor_disjoint b0 b1 8) by (unfold two31; simpl; lia).
  replace (b0 * 2 ^ 8 + b1) with n by (subst n; simpl; lia).
  assert (Hn : 0 ≤ n < 65536) by (subst n; lia).
  rewrite (field_of_chunk n 64512 10 6), (field_of_chunk n 1008 4 6)
    by (unfold two31; (done || lia)).
  change 15 with (Z.ones 4).
  rewrite (low_field_of_chunk n 4) by (unfold two31; lia).
  change (2 ^ 10) with 1024. change (2 ^ 4) with 16. change (2 ^ 6) with 64.
  assert (0 ≤ n mod 16 < 16) by (apply Z.mod_pos_bound; lia).
  rewrite (shl_small (n mod 16) 2) by (unfold two31; simpl; lia).
  change (2 ^ 2) with 4.
  assert (Ha : 0 ≤ n / 1024 mod 64 < 64) by (apply Z.mod_pos_bound; lia).
  assert (Hb : 0 ≤ n / 16 mod 64 < 64) by (apply Z.mod_pos_bound; lia).
  assert (Hc : 0 ≤ n mod 16 * 4 < 64) by lia.
  rewrite (proj1 (symbol_spec _ Ha)), (proj1 (symbol_spec _ Hb)),
    (proj1 (symbol_spec _ Hc)).
  rewrite (Z.mod_small (n / 1024) 64) by (Z.div_mod_to_equations; lia).
  reflexivity.
Qed.

(** *** The loop of the encoder *)

Lemma base64ArrayBuffer_finish (arrayBuffer : list Z) :
  base64ArrayBuffer arrayBuffer =
  let bytes := Uint8Array_of_numbers arrayBuffer in
  let mainLength := (length bytes - length bytes mod 3)%nat in
  base64_finish bytes mainLength (length bytes mod 3)
    (base64_main_loop mainLength bytes mainLength 0 EmptyString).
Proof. reflexivity. Qed.

(** Induction on a list three elements at a time. *)
Lemma list_ind3 {A} (P : list A → Prop) :
  P [] → (∀ a, P [a]) → (∀ a b, P [a; b]) →
  (∀ a b c l, P l → P (a :: b :: c :: l)) →
  ∀ l, P l.
Proof.
  intros H0 H1 H2 H3. fix IH 1.
  intros [|a [|b [|c l]]]; [exact H0|apply H1|apply H2|].
  apply H3, IH.
Qed.

Lemma get8_app (pre l : list Z) (k : nat) :
  get8 (pre ++ l) (length pre + k) = get8 l k.
Proof.
  unfold get8. rewrite lookup_app_r by lia.
  by replace (length pre + k - length pre)%nat with k by lia.
Qed.

Lemma get8_app_0 (pre l : list Z) : get8 (pre ++ l) (length pre) = get8 l 0.
Proof. by rewrite <- (get8_app pre l 0), Nat.add_0_r. Qed.

Lemma base64_finish_0 (bytes : list Z) (mainLength : nat) (base64 : string) :
  base64_finish bytes mainLength 0 base64 = base64.
Proof. reflexivity. Qed.

Lemma base64_finish_1 (bytes : list Z) (mainLength : nat) (base64 : string) (a : Z) :
  get8 bytes mainLength = Num a →
  base64_finish bytes mainLength 1 base64 = base64 +:+ group1 a.
Proof.
  intros Ha. unfold base64_finish, group1. cbn [Nat.eqb]. rewrite Ha. reflexivity.
Qed.

Lemma base64_finish_2 (bytes : list Z) (mainLength : nat) (base64 : string) (a b : Z) :
  get8 bytes mainLength = Num a → get8 bytes (mainLength + 1) = Num b →
  base64_finish bytes mainLength 2 base64 = base64 +:+ group2 a b.
Proof.
  intros Ha Hb. unfold base64_finish, group2. cbn [Nat.eqb]. rewrite Ha, Hb. reflexivity.
Qed.

Lemma main_loop_step (fuel : nat) (bytes : list Z) (mainLength i : nat) (base64 : string)
    (a b c : Z) :
  (i < mainLength)%nat →
  get8 bytes i = Num a → get8 bytes (i + 1) = Num b → get8 bytes (i + 2) = Num c →
  base64_main_loop (S fuel) bytes mainLength i base64 =
  base64_main_loop fuel bytes mainLength (i + 3) (base64 +:+ group3 a b c).
Proof.
  intros Hi Ha Hb Hc. cbn [base64_main_loop].
  rewrite (proj2 (Nat.ltb_lt i mainLength) Hi), Ha, Hb, Hc.
  unfold group3. reflexivity.
Qed.

Lemma mod3_step (n : nat) : (S (S (S n)) mod 3 = n mod 3)%nat.
Proof.
  replace (S (S (S n))) with (n + 1 * 3)%nat by lia. apply Nat.Div0.mod_add.
Qed.

Lemma main_loop_groups (l : list Z) :
  ∀ (pre : list Z) (acc : string) (fuel : nat),
    (length l - length l mod 3 ≤ 3 * fuel)%nat →
    base64_finish (pre ++ l) (length pre + (length l - length l mod 3))
      (length l mod 3)
      (base64_main_loop fuel (pre ++ l) (length pre + (length l - length l mod 3))
         (length pre) acc)
    = acc +:+ encode_groups l.
Proof.
  induction l as [|a|a b|a b c l IH] using list_ind3; intros pre acc fuel Hfuel.
  - cbn [length]. change (0 mod 3)%nat with 0%nat.
    rewrite Nat.sub_0_r, Nat.add_0_r.
    assert (Hloop : base64_main_loop fuel (pre ++ []) (length pre) (length pre) acc = acc).
    { destruct fuel; [done|]. cbn [base64_main_loop]. by rewrite Nat.ltb_irrefl. }
    rewrite Hloop, base64_finish_0. cbn [encode_groups]. by rewrite append_empty_r.
  - cbn [length]. change (1 mod 3)%nat with 1%nat.
    change (1 - 1)%nat with 0%nat. rewrite Nat.add_0_r.
    assert (Hloop : base64_main_loop fuel (pre ++ [a]) (length pre) (length pre) acc = acc).
    { destruct fuel; [done|]. cbn [base64_main_loop]. by rewrite Nat.ltb_irrefl. }
    rewrite Hloop. apply base64_finish_1. by rewrite get8_app_0.
  - cbn [length]. change (2 mod 3)%nat with 2%nat.
    change (2 - 2)%nat with 0%nat. rewrite Nat.add_0_r.
    assert (Hloop : base64_main_loop fuel (pre ++ [a; b]) (length pre) (length pre) acc = acc).
    { destruct fuel; [done|]. cbn [base64_main_loop]. by rewrite Nat.ltb_irrefl. }
    rewrite Hloop. apply base64_finish_2; [by rewrite get8_app_0|by rewrite get8_app].
  - cbn [length] in *. rewrite mod3_step in *.
    pose proof (Nat.mod_upper_bound (length l) 3 ltac:(lia)) as Hr.
    pose proof (Nat.Div0.mod_le (length l) 3) as Hle.
    destruct fuel as [|fuel]; [lia|].
    rewrite (main_loop_step fuel _ _ _ _ a b c);
      [|lia|by rewrite get8_app_0|by rewrite get8_app|by rewrite get8_app].
    specialize (IH (pre ++ [a; b; c]) (acc +:+ group3 a b c) fuel ltac:(lia)).
    rewrite <- app_assoc in IH. cbn [app] in IH.
    rewrite length_app in IH. cbn [length] in IH.
    replace (length pre + (S (S (S (length l))) - length l mod 3))%nat
      with (length pre + 3 + (length l - length l mod 3))%nat by lia.
    rewrite IH. cbn [encode_groups]. by rewrite append_assoc.
Qed.

Lemma base64ArrayBuffer_groups (arrayBuffer : list Z) :
  base64ArrayBuffer arrayBuffer = encode_groups (Uint8Array_of_numbers arrayBuffer).
Proof.
  rewrite base64ArrayBuffer_finish. cbv zeta.
  pose proof (main_loop_groups (Uint8Array_of_numbers arrayBuffer) [] EmptyString
    (length (Uint8Array_of_numbers arrayBuffer)
     - length (Uint8Array_of_numbers arrayBuffer) mod 3)%nat ltac:(lia)) as H.
  cbn [app length Nat.add] in H. by rewrite H.
Qed.

(** *** Decoding what the encoder produced *)

Lemma decode_full_group (c0 c1 c2 c3 : ascii) (rest : string) (v0 v1 v2 v3 : Z) :
  Base64Std.sextet c0 = Some v0 → Base64Std.sextet c1 = Some v1 →
  Base64Std.sextet c2 = Some v2 → Base64Std.sextet c3 = Some v3 →
  Ascii.eqb c3 Base64Std.pad = false →
  Base64Std.decode (String c0 (String c1 (String c2 (String c3 rest)))) =
  tl ← Base64Std.decode rest;
  let n := v0 * 262144 + v1 * 4096 + v2 * 64 + v3 in
  Some ((n / 65536) mod 256 :: (n / 256) mod 256 :: n mod 256 :: tl).
Proof.
  intros H0 H1 H2 H3 Hp. cbn [Base64Std.decode].
  rewrite Hp, H0, H1, H2, H3. reflexivity.
Qed.

Lemma decode_one_byte_group (c0 c1 : ascii) (v0 v1 : Z) :
  Base64Std.sextet c0 = Some v0 → Base64Std.sextet c1 = Some v1 →
  Base64Std.decode (String c0 (String c1 (String Base64Std.pad (String Base64Std.pad EmptyString))))
  = Some [(v0 * 4 + v1 / 16) mod 256].
Proof.
  intros H0 H1. cbn [Base64Std.decode].
  change (Ascii.eqb Base64Std.pad Base64Std.pad) with true. cbv iota.
  rewrite H0, H1. reflexivity.
Qed.

Lemma decode_two_byte_group (c0 c1 c2 : ascii) (v0 v1 v2 : Z) :
  Base64Std.sextet c0 = Some v0 → Base64Std.sextet c1 = Some v1 →
  Base64Std.sextet c2 = Some v2 → Ascii.eqb c2 Base64Std.pad = false →
  Base64Std.decode (String c0 (String c1 (String c2 (String Base64Std.pad EmptyString))))
  = Some [((v0 * 4096 + v1 * 64 + v2) / 1024) mod 256;
          ((v0 * 4096 + v1 * 64 + v2) / 4) mod 256].
Proof.
  intros H0 H1 H2 Hp. cbn [Base64Std.decode].
  change (Ascii.eqb Base64Std.pad Base64Std.pad) with true. cbv iota.
  rewrite Hp, H0, H1, H2. reflexivity.
Qed.

Lemma sextet_bound (x : Z) : 0 ≤ x mod 64 < 64.
Proof. apply Z.mod_pos_bound. lia. Qed.

Lemma decode_encode_groups (bytes : list Z) :
  Forall is_byte bytes → Base64Std.decode (encode_groups bytes) = Some bytes.
Proof.
  induction bytes as [|a|a b|a b c l IH] using list_ind3; intros Hbytes.
  - reflexivity.
  - apply Forall_cons in Hbytes as [Ha _].
    cbn [encode_groups]. rewrite group1_symbols by done. unfold is_byte in Ha.
    assert (H0 : 0 ≤ a / 4 < 64) by (Z.div_mod_to_equations; lia).
    assert (H1 : 0 ≤ a mod 4 * 16 < 64) by (Z.div_mod_to_equations; lia).
    rewrite (decode_one_byte_group _ _ _ _
               (proj1 (proj2 (symbol_spec _ H0))) (proj1 (proj2 (symbol_spec _ H1)))).
    do 2 f_equal. Z.div_mod_to_equations. lia.
  - apply Forall_cons in Hbytes as [Ha Hbytes]. apply Forall_cons in Hbytes as [Hb _].
    cbn [encode_groups]. rewrite group2_symbols by done. unfold is_byte in Ha, Hb.
    set (n := a * 256 + b).
    assert (Hn : 0 ≤ n < 65536) by (subst n; lia).
    assert (H0 : 0 ≤ n / 1024 < 64) by (Z.div_mod_to_equations; lia).
    assert (H2 : 0 ≤ n mod 16 * 4 < 64) by (Z.div_mod_to_equations; lia).
    rewrite (decode_two_byte_group _ _ _ _ _ _
               (proj1 (proj2 (symbol_spec _ H0)))
               (proj1 (proj2 (symbol_spec _ (sextet_bound (n / 16)))))
               (proj1 (proj2 (symbol_spec _ H2)))
               (proj2 (proj2 (symbol_spec _ H2)))).
    assert (Hsum : n / 1024 * 4096 + n / 16 mod 64 * 64 + n mod 16 * 4 = n * 4)
      by (Z.div_mod_to_equations; lia).
    rewrite Hsum. f_equal. f_equal; [|f_equal]; subst n; Z.div_mod_to_equations; lia.
  - apply Forall_cons in Hbytes as [Ha Hbytes]. apply Forall_cons in Hbytes as [Hb Hbytes].
    apply Forall_cons in Hbytes as [Hc Hl].
    cbn [encode_groups]. rewrite group3_symbols by done. cbv zeta.
    rewrite !append_cons, append_empty_l.
    set (n := chunk3 a b c).
    rewrite (decode_full_group _ _ _ _ _ _ _ _ _
               (proj1 (proj2 (symbol_spec _ (sextet_bound (n / 262144)))))
               (proj1 (proj2 (symbol_spec _ (sextet_bound (n / 4096)))))
               (proj1 (proj2 (symbol_spec _ (sextet_bound (n / 64)))))
               (proj1 (proj2 (symbol_spec _ (sextet_bound n))))
               (proj2 (proj2 (symbol_spec _ (sextet_bound n))))).
    rewrite (IH Hl). cbn [mbind option_bind].
    unfold is_byte in Ha, Hb, Hc.
    assert (Hn : 0 ≤ n < 16777216) by (subst n; unfold chunk3; lia).
    assert (Hsum : n / 262144 mod 64 * 262144 + n / 4096 mod 64 * 4096
                   + n / 64 mod 64 * 64 + n mod 64 = n)
      by (Z.div_mod_to_equations; lia).
    cbv zeta. rewrite Hsum.
    f_equal. f_equal; [|f_equal; [|f_equal]]; subst n; unfold chunk3;
      Z.div_mod_to_equations; lia.
Qed.

(** Decoding the output of the encoder gives the bytes the encoder read. *)
Lemma decode_base64ArrayBuffer (arrayBuffer : list Z) :
  Base64Std.decode (base64ArrayBuffer arrayBuffer) = Some (Uint8Array_of_numbers arrayBuffer).
Proof.
  rewrite base64ArrayBuffer_groups. apply decode_encode_groups.
  unfold Uint8Array_of_numbers. apply Forall_fmap, Forall_forall.
  intros z _. simpl. apply Z.mod_pos_bound. lia.
Qed.

Lemma Uint8Array_of_bytes (bytes : list Z) :
  Forall is_byte bytes → Uint8Array_of_numbers bytes = bytes.
Proof.
  intros Hbytes. unfold Uint8Array_of_numbers.
  induction Hbytes as [|z l Hz _ IH]; [done|].
  rewrite fmap_cons, IH. f_equal. simpl. apply Z.mod_small, Hz.
Qed.

(** *** Padding *)

Lemma trailing_pads_cons (c : ascii) (s : string) :
  Ascii.eqb c Base64Std.pad = false →
  Base64Std.trailing_pads (String c s) = Base64Std.trailing_pads s.
Proof.
  intros Hc. destruct s as [|c' s]; cbn [Base64Std.trailing_pads]; rewrite Hc; [done|].
  by rewrite andb_false_r.
Qed.

Lemma trailing_pads_groups (bytes : list Z) :
  Forall is_byte bytes →
  Base64Std.trailing_pads (encode_groups bytes) =
  match (length bytes mod 3)%nat with
  | 1%nat => 2%nat
  | 2%nat => 1%nat
  | _ => 0%nat
  end.
Proof.
  induction bytes as [|a|a b|a b c l IH] using list_ind3; intros Hbytes.
  - reflexivity.
  - apply Forall_cons in Hbytes as [Ha _].
    cbn [encode_groups]. rewrite group1_symbols by done. unfold is_byte in Ha.
    assert (H0 : 0 ≤ a / 4 < 64) by (Z.div_mod_to_equations; lia).
    assert (H1 : 0 ≤ a mod 4 * 16 < 64) by (Z.div_mod_to_equations; lia).
    rewrite !trailing_pads_cons by apply symbol_spec, (conj (proj1 H0) (proj2 H0)) ||
                                    apply symbol_spec, (conj (proj1 H1) (proj2 H1)).
    reflexivity.
  - apply Forall_cons in Hbytes as [Ha Hbytes]. apply Forall_cons in Hbytes as [Hb _].
    cbn [encode_groups]. rewrite group2_symbols by done. unfold is_byte in Ha, Hb.
    cbv zeta. set (n := a * 256 + b).
    assert (Hn : 0 ≤ n < 65536) by (subst n; lia).
    assert (H0 : 0 ≤ n / 1024 < 64) by (Z.div_mod_to_equations; lia).
    assert (H2 : 0 ≤ n mod 16 * 4 < 64) by (Z.div_mod_to_equations; lia).
    rewrite (trailing_pads_cons (symbol (n / 1024))) by apply symbol_spec, H0.
    rewrite (trailing_pads_cons (symbol (n / 16 mod 64))) by apply symbol_spec, sextet_bound.
    rewrite (trailing_pads_cons (symbol (n mod 16 * 4))) by apply symbol_spec, H2.
    reflexivity.
  - apply Forall_cons in Hbytes as [Ha Hbytes]. apply Forall_cons in Hbytes as [Hb Hbytes].
    apply Forall_cons in Hbytes as [Hc Hl].
    cbn [encode_groups length]. rewrite mod3_step.
    rewrite group3_symbols by done. cbv zeta.
    rewrite !append_cons, append_empty_l.
    rewrite !trailing_pads_cons by apply symbol_spec, sextet_bound.
    by apply IH.
Qed.

(** ** C5 *)

(** C5. For every byte buffer [b], decoding [base64ArrayBuffer(b)] with the
    standard decoder gives [b] again; when the length of [b] modulo 3 is 1 the
    encoded string ends with exactly two [=], and when it is 2 with exactly
    one. *)
Theorem base64ArrayBuffer_round_trip (b : list Z) :
  Forall is_byte b →
  Base64Std.decode (base64ArrayBuffer b) = Some b ∧
  ((length b mod 3)%nat = 1%nat →
     Base64Std.trailing_pads (base64ArrayBuffer b) = 2%nat) ∧
  ((length b mod 3)%nat = 2%nat →
     Base64Std.trailing_pads (base64ArrayBuffer b) = 1%nat).
Proof.
  intros Hb. split.
  - rewrite decode_base64ArrayBuffer. f_equal. by apply Uint8Array_of_bytes.
  - rewrite base64ArrayBuffer_groups, (Uint8Array_of_bytes b Hb).
    rewrite (trailing_pads_groups b Hb).
    split; intros ->; reflexivity.
Qed.

Lemma base64ArrayBuffer_round_trip_witness :
  Forall is_byte [77; 97; 110; 255; 0; 1; 2] ∧
  Base64Std.decode (base64ArrayBuffer [77; 97; 110; 255; 0; 1; 2])
    = Some [77; 97; 110; 255; 0; 1; 2] ∧
  Base64Std.trailing_pads (base64ArrayBuffer [77; 97; 110; 255; 0; 1; 2]) = 2%nat.
Proof.
  assert (H : Forall is_byte [77; 97; 110; 255; 0; 1; 2]).
  { repeat constructor; unfold is_byte; lia. }
  split; [exact H|].
  destruct (base64ArrayBuffer_round_trip _ H) as (Hd & H1 & _).
  split; [exact Hd|]. apply H1. reflexivity.
Defined.

(** ** The mediation layer *)

Section Mediation_properties.
Context `{Api : BleErrorApi}.

(** *** Filling the transaction id *)

Lemma fill_calls (transactionId : option string) (m : Manager) :
  ∃ t, fst (fill transactionId m) = Normal t ∧ calls (snd (fill transactionId m)) = calls m.
Proof.
  unfold fill. destruct (truthy transactionId) as [t|]; eexists; split; reflexivity.
Qed.

(** Under function scoping the read gives [undefined] and the operation is
    a plain write of its frame. *)
Lemma selectProfileAlternativeScale_hoisted (deviceIdentifier user : string)
    (transactionId : option string) :
  selectProfileAlternativeScale FunctionScoped deviceIdentifier user transactionId =
  bind (fill transactionId) (λ t,
  bind (BleModule (WriteCharacteristicForDevice deviceIdentifier scaleServiceUUID
                     alternativeScaleWriteCharacteristic
                     (base64ArrayBuffer (selectProfileAlternativeScale_uint16 user))
                     false t))
    (λ _, _callPromise Awaited)).
Proof. reflexivity. Qed.

(** The sibling operation, whose initialiser reads its parameter, issues
    its write. *)
Lemma synchronizeAlternativeScale_writes
    (deviceIdentifier user measurement : string) (transactionId : option string)
    (m : Manager) :
  ∃ value t id,
    fst (synchronizeAlternativeScale deviceIdentifier user measurement transactionId m)
      = Normal id ∧
    calls (snd (synchronizeAlternativeScale deviceIdentifier user measurement
                  transactionId m))
      = calls m ++ [WriteCharacteristicForDevice deviceIdentifier scaleServiceUUID
                      alternativeScaleWriteCharacteristic value false t].
Proof.
  unfold synchronizeAlternativeScale, bind.
  destruct (fill_calls transactionId m) as (t & Ht & Hc).
  destruct (fill transactionId m) as [[t'|e] m']; simpl in *; [|done].
  do 3 eexists. split; [reflexivity|]. by rewrite Hc.
Qed.

(** *** C1 *)

Lemma remove_MonitorSubscription (transactionId : string) (m : Manager) :
  remove (MonitorSubscription transactionId) m =
  (Normal tt, upd_calls (λ l, l ++ [CancelTransaction transactionId]) m).
Proof. reflexivity. Qed.

Lemma _handleMonitorCharacteristic_returns (transactionId : string) (listener : Listener)
    (m : Manager) :
  fst (_handleMonitorCharacteristic transactionId listener m)
    = Normal (MonitorSubscription transactionId).
Proof. reflexivity. Qed.

(** Every monitoring operation returns the object that captures the filled
    transaction id. *)
Lemma monitoring_returns (op : MonitoringOperation) (listener : Listener)
    (transactionId : option string) (m : Manager) :
  fst (monitoring op listener transactionId m)
    = Normal (MonitorSubscription
                (default (pretty (S (_uniqueId m))) (truthy transactionId))).
Proof.
  destruct op; simpl;
    (unfold monitorCharacteristicForDevice, monitorScaleResponse,
       monitorAlternativeScaleFinalResponse, listenForAlternativeScaleResponse,
       monitorTrackerResponse, _monitorCharacteristicForService, _monitorCharacteristic,
       monitorBloodPressureResponse, monitorGlucometerResponse, monitorOximeterResponse,
       fill, bind;
     destruct (truthy transactionId); reflexivity).
Qed.

(** C1, as amended. For every subscription object returned by a
    characteristic-monitoring operation, calling [remove()] a second time
    does not throw, and it issues a second [cancelTransaction] for the
    subscription's transaction id: in any state of the manager, each call of
    [remove()] issues exactly one [cancelTransaction] and changes nothing
    else. *)
Theorem monitor_remove_cancels_each_time (op : MonitoringOperation) (listener : Listener)
    (transactionId : option string) (m : Manager) :
  ∃ subscription filled,
    fst (monitoring op listener transactionId m) = Normal subscription ∧
    filled = default (pretty (S (_uniqueId m))) (truthy transactionId) ∧
    ∀ m' : Manager,
      remove subscription m'
        = (Normal tt, upd_calls (λ l, l ++ [CancelTransaction filled]) m') ∧
      fst (remove subscription (exec (remove subscription) m')) = Normal tt ∧
      calls (exec (remove subscription) (exec (remove subscription) m'))
        = calls m' ++ [CancelTransaction filled; CancelTransaction filled].
Proof.
  eexists _, _. split; [apply monitoring_returns|]. split; [reflexivity|].
  intros m'. split; [apply remove_MonitorSubscription|].
  split; [reflexivity|].
  unfold exec. rewrite !remove_MonitorSubscription. simpl.
  by rewrite <- app_assoc.
Qed.

(** The internal [wrappedSubscription] is the guarded one: its second
    removal changes nothing. *)
Lemma remove_WrappedSubscription_idempotent (id : string) (handle : nat) (m : Manager) :
  let wrapped := WrappedSubscription id (EmitterSubscription handle) in
  exec (remove wrapped) (exec (remove wrapped) m) = exec (remove wrapped) m.
Proof.
  intros wrapped. unfold exec. simpl. unfold bind, read, modify. simpl.
  destruct (_activeSubscriptions m !! id) eqn:Hid; simpl.
  - by rewrite lookup_delete_eq.
  - by rewrite Hid.
Qed.

(** *** C8 *)

Lemma monitorListener_ignores (B A : string) (listener : Listener)
    (error : option string) (characteristic : Native) (m : Manager) :
  A ≠ B → monitorListener B listener (error, characteristic, A) m = (Normal tt, m).
Proof.
  intros HAB. unfold monitorListener.
  by rewrite (proj2 (String.eqb_neq B A)) by congruence.
Qed.

(** C8. A monitor subscription created with transaction id [B] registers on
    the emitter a listener that ignores every event tagged with an id [A]
    different from [B]: the caller's listener is not invoked and nothing
    changes; the caller's listener is invoked only for events whose tag
    is [B]. *)
Theorem monitor_transaction_isolation (B A : string) (listener : Listener)
    (error : option string) (characteristic : Native) (m m' : Manager) :
  A ≠ B →
  emitter (exec (_handleMonitorCharacteristic B listener) m) !! emitter_next m
    = Some (MonitorListener B listener) ∧
  run_listener (MonitorListener B listener) (error, characteristic, A) m'
    = (Normal tt, m') ∧
  heard (exec (run_listener (MonitorListener B listener) (error, characteristic, A)) m')
    = heard m' ∧
  ∀ (tag : string) (error : option string) (characteristic : Native) (m'' : Manager),
    heard (exec (run_listener (MonitorListener B listener)
                   (error, characteristic, tag)) m'') ≠ heard m'' →
    tag = B.
Proof.
  intros HAB. split; [|split; [|split]].
  - unfold exec. simpl. apply lookup_insert_eq.
  - by apply monitorListener_ignores.
  - unfold exec, run_listener. by rewrite monitorListener_ignores.
  - intros tag e c m'' Hheard. destruct (decide (tag = B)) as [|Hne]; [done|].
    exfalso. apply Hheard. unfold exec, run_listener. by rewrite monitorListener_ignores.
Qed.

End Mediation_properties.

(** ** Teardown *)

Create HintDb keeps_db discriminated.

(** A field update that leaves the mediation state alone. *)
Ltac solve_kept :=
  let m := fresh "m" in
  intros m; unfold mediation_kept; simpl; repeat split; (done || lia).

Section Teardown.
Context `{Api : BleErrorApi}.

(** *** Methods that keep the mediation state *)

Lemma mediation_kept_refl (m : Manager) : mediation_kept m m.
Proof. by unfold mediation_kept. Qed.

Lemma mediation_kept_trans (m1 m2 m3 : Manager) :
  mediation_kept m1 m2 → mediation_kept m2 m3 → mediation_kept m1 m3.
Proof.
  intros (Ha & Hp & Hm & Hu) (Ha' & Hp' & Hm' & Hu').
  repeat split; [congruence..|lia].
Qed.

Lemma keeps_ret {A} (a : A) : keeps (ret a).
Proof. intros m. split; [by exists a|apply mediation_kept_refl]. Qed.

Lemma keeps_read {A} (f : Manager → A) : keeps (read f).
Proof. intros m. split; [by eexists|apply mediation_kept_refl]. Qed.

Lemma keeps_bind {A B} (c : M A) (k : A → M B) :
  keeps c → (∀ a, keeps (k a)) → keeps (bind c k).
Proof.
  intros Hc Hk m. unfold bind.
  destruct (Hc m) as [[a Ha] Hm]. destruct (c m) as [[a'|e] m1]; simpl in *; [|done].
  destruct (Hk a' m1) as [Hn Hm1]. split; [done|].
  by eapply mediation_kept_trans.
Qed.

Lemma keeps_modify (f : Manager → Manager) :
  (∀ m, mediation_kept m (f m)) → keeps (modify f).
Proof. intros Hf m. split; [by exists tt|apply Hf]. Qed.

Lemma keeps_for_each {A} (l : list A) (body : A → M unit) :
  (∀ x, keeps (body x)) → keeps (for_each l body).
Proof.
  intros Hbody. induction l as [|x l IH]; simpl.
  - apply keeps_ret.
  - apply keeps_bind; [apply Hbody|by intros _].
Qed.

Lemma keeps_BleModule (c : BleModuleCall) : keeps (BleModule c).
Proof. apply keeps_modify. solve_kept. Qed.

Lemma keeps_invoke (listener : Listener) error characteristic :
  keeps (invoke listener error characteristic).
Proof. apply keeps_modify. solve_kept. Qed.

Lemma keeps_nextUniqueID : keeps _nextUniqueID.
Proof.
  unfold _nextUniqueID. apply keeps_bind; [|intros _; apply keeps_bind].
  - apply keeps_modify. solve_kept.
  - apply keeps_read.
  - intros n. apply keeps_ret.
Qed.

Lemma keeps_fill (transactionId : option string) : keeps (fill transactionId).
Proof.
  unfold fill. destruct (truthy transactionId); [apply keeps_ret|apply keeps_nextUniqueID].
Qed.

Lemma keeps_addListener (l : EmitterListener) : keeps (addListener l).
Proof.
  unfold addListener. apply keeps_bind; [apply keeps_read|].
  intros h. apply keeps_bind; [|intros _; apply keeps_ret].
  apply keeps_modify. solve_kept.
Qed.

Lemma keeps_remove (s : Subscription) : keeps (remove s).
Proof.
  induction s as [h|id s IH|t]; simpl.
  - apply keeps_modify. solve_kept.
  - apply keeps_bind; [apply keeps_read|].
    intros active. destruct (active !! id); [|apply keeps_ret].
    apply keeps_bind; [|by intros _].
    apply keeps_modify. solve_kept.
  - apply keeps_BleModule.
Qed.

Hint Resolve keeps_ret keeps_read keeps_BleModule keeps_invoke keeps_nextUniqueID
  keeps_fill keeps_addListener keeps_remove : keeps_db.

Lemma keeps_cancelTransaction (transactionId : string) :
  keeps (cancelTransaction transactionId).
Proof. apply keeps_BleModule. Qed.

Lemma keeps_run_chained (k : Continuation) (outcome : Native + BleError) :
  keeps (run_chained k outcome).
Proof.
  destruct k as [|wrapped listener], outcome; simpl; auto using keeps_bind with keeps_db.
Qed.

Lemma keeps_run_listener (l : EmitterListener) event : keeps (run_listener l event).
Proof.
  destruct l as [t listener], event as [[error characteristic] msg]. simpl.
  destruct (negb _), (truthy error); auto using keeps_bind with keeps_db.
Qed.

Lemma keeps_destroySubscriptions : keeps _destroySubscriptions.
Proof.
  unfold _destroySubscriptions. apply keeps_bind; [apply keeps_read|].
  intros subscriptions. apply keeps_for_each. intros id.
  apply keeps_bind; [apply keeps_read|].
  intros current. destruct (current !! id); [apply keeps_remove|apply keeps_ret].
Qed.

Lemma keeps_destroy_prefix : keeps destroy_prefix.
Proof.
  unfold destroy_prefix.
  apply keeps_bind; [apply keeps_BleModule|intros _].
  apply keeps_bind; [apply keeps_read|intros scan].
  apply keeps_bind; [|intros _; apply keeps_destroySubscriptions].
  destruct scan; [|apply keeps_ret].
  apply keeps_bind; [apply keeps_remove|intros _].
  apply keeps_modify. solve_kept.
Qed.

Lemma destroy_split (m : Manager) :
  destroy m = _destroyPromises (snd (destroy_prefix m)) ∧
  mediation_kept m (snd (destroy_prefix m)).
Proof.
  destruct (keeps_destroy_prefix m) as [[u Hu] Hkept]. split; [|done].
  clear Hkept. revert Hu. unfold destroy, destroy_prefix, bind.
  destruct (BleModule DestroyClient m) as [[[]|e] m1]; simpl; [|done].
  destruct (_scanEventSubscription m1) as [subscription|]; simpl.
  - destruct (remove subscription m1) as [[[]|e] m2]; simpl; [|done].
    by destruct (_destroySubscriptions _) as [[[]|e] m3].
  - by destruct (_destroySubscriptions m1) as [[[]|e] m3].
Qed.

End Teardown.

(** A fold reaches a property that one of its steps establishes and the
    others keep. *)
Lemma fold_left_reaches {S K} (step : S → K → S) (good done : S → Prop) (k0 : K) :
  (∀ s k, good s → good (step s k)) →
  (∀ s k, good s → done s → done (step s k)) →
  (∀ s, good s → done (step s k0)) →
  ∀ l s, good s → k0 ∈ l → done (fold_left step l s).
Proof.
  intros Hgood Hdone Hk0.
  assert (Hkeep : ∀ l s, good s → done s → done (fold_left step l s)).
  { induction l as [|k l IH]; intros s Hs Hd; [done|]. simpl. apply IH; auto. }
  induction l as [|k l IH]; intros s Hs Hin.
  - by apply elem_of_nil in Hin.
  - simpl. apply elem_of_cons in Hin as [<-|Hin].
    + apply Hkeep; auto.
    + apply IH; auto.
Qed.

Section Registry.
Context `{Api : BleErrorApi}.

Lemma for_each_fold {A} (l : list A) (body : A → M unit) :
  (∀ x m, ∃ u, fst (body x m) = Normal u) →
  ∀ m, snd (for_each l body m) = fold_left (λ m x, snd (body x m)) l m.
Proof.
  intros Hbody. induction l as [|x l IH]; intros m; [done|].
  simpl. unfold bind. destruct (Hbody x m) as [u Hu].
  destruct (body x m) as [[u'|e] m1]; simpl in *; [apply IH|done].
Qed.

(** *** Settling a race *)

Lemma settle_race_idem (s : Settlement) (a : Activation) :
  settle_race s (settle_race s a) = settle_race s a.
Proof. unfold settle_race. destruct (race a) eqn:Hr; simpl; by rewrite ?Hr. Qed.

Lemma settle_race_pending (s : Settlement) (a : Activation) :
  race a = None →
  settle_race s a = {| race := Some s; resumed := resumed a; chained := chained a |}.
Proof. intros Hr. unfold settle_race. by rewrite Hr. Qed.

Lemma settle_race_settled (s : Settlement) (a : Activation) :
  is_Some (race a) → settle_race s a = a.
Proof. intros [s' Hr]. unfold settle_race. by rewrite Hr. Qed.

Lemma _destroyPromises_loop (m : Manager) :
  _destroyPromises m =
  for_each (map_to_list (_activePromises m)).*1
    (reject_visit (destroyedError (_errorCodesToMessagesMapping m))) m.
Proof. reflexivity. Qed.

Lemma reject_visit_normal (error : BleError) (id : string) (m : Manager) :
  ∃ u, fst (reject_visit error id m) = Normal u.
Proof.
  unfold reject_visit, bind, read. simpl.
  destruct (_activePromises m !! id) as [[t]|]; by eexists.
Qed.

Lemma reject_visit_state (error : BleError) (id : string) (m : Manager) :
  snd (reject_visit error id m) =
  match _activePromises m !! id with
  | Some (RejectDestroyPromise t) => settle t (Rejected (ThrownBleError error)) m
  | None => m
  end.
Proof.
  unfold reject_visit, bind, read. simpl.
  by destruct (_activePromises m !! id) as [[t]|].
Qed.

Lemma settle_lookup (t id : string) (s : Settlement) (m : Manager) :
  activations (settle t s m) !! id =
  if decide (t = id) then settle_race s <$> activations m !! id
  else activations m !! id.
Proof.
  unfold settle. simpl. rewrite lookup_alter.
  by destruct (decide (t = id)) as [->|].
Qed.

(** [_destroyPromises] rejects the race of every activation whose reject
    function is in the registry. *)
Lemma _destroyPromises_settles (m : Manager) (id : string) (a : Activation) :
  activations m !! id = Some a →
  _activePromises m !! id = Some (RejectDestroyPromise id) →
  let error := destroyedError (_errorCodesToMessagesMapping m) in
  let m' := snd (_destroyPromises m) in
  activations m' !! id = Some (settle_race (Rejected (ThrownBleError error)) a) ∧
  _errorCodesToMessagesMapping m' = _errorCodesToMessagesMapping m.
Proof.
  intros Ha Hp error m'. subst m'.
  rewrite _destroyPromises_loop. fold error.
  rewrite for_each_fold by apply reject_visit_normal.
  set (s := Rejected (ThrownBleError error)).
  set (good := λ m' : Manager,
    _activePromises m' = _activePromises m ∧
    _errorCodesToMessagesMapping m' = _errorCodesToMessagesMapping m ∧
    (activations m' !! id = Some a ∨ activations m' !! id = Some (settle_race s a))).
  set (finished := λ m' : Manager,
    activations m' !! id = Some (settle_race s a) ∧
    _errorCodesToMessagesMapping m' = _errorCodesToMessagesMapping m).
  apply (fold_left_reaches _ good finished id).
  - intros m1 k (Hp1 & Hm1 & Ha1). rewrite reject_visit_state.
    destruct (_activePromises m1 !! k) as [[t]|]; [|done].
    split; [done|]. split; [done|].
    rewrite settle_lookup. destruct (decide (t = id)) as [_|_]; [|done].
    right. destruct Ha1 as [-> | ->]; simpl; [done|by rewrite settle_race_idem].
  - intros m1 k (Hp1 & Hm1 & _) (Hd & _). rewrite reject_visit_state.
    destruct (_activePromises m1 !! k) as [[t]|]; [|done].
    split; [|done]. rewrite settle_lookup. destruct (decide (t = id)) as [_|_]; [|done].
    rewrite Hd. simpl. by rewrite settle_race_idem.
  - intros m1 (Hp1 & Hm1 & Ha1). rewrite reject_visit_state, Hp1, Hp.
    split; [|done]. rewrite settle_lookup, decide_True by done.
    destruct Ha1 as [-> | ->]; simpl; [done|by rewrite settle_race_idem].
  - by repeat split; [..|left].
  - apply list_elem_of_fmap. exists (id, RejectDestroyPromise id).
    split; [done|]. by apply elem_of_map_to_list.
Qed.

(** *** Running past the [await] *)

Lemma resume_mapping (id : string) (m : Manager) :
  _errorCodesToMessagesMapping (resume id m) = _errorCodesToMessagesMapping m.
Proof.
  unfold resume. destruct (activations m !! id) as [a|]; [|done].
  destruct (race a) as [s|]; [|done]. destruct (resumed a); [done|].
  unfold exec.
  match goal with |- context [run_chained ?k ?o ?m1] =>
    destruct (keeps_run_chained k o m1) as [_ (_ & _ & -> & _)] end.
  done.
Qed.

Lemma resume_lookup (id' id : string) (m : Manager) :
  activations (resume id' m) !! id =
  match activations m !! id' with
  | Some a =>
      match race a, resumed a with
      | Some s, None =>
          if decide (id' = id)
          then Some (resumed_with a (outcome_of s (_errorCodesToMessagesMapping m)))
          else activations m !! id
      | _, _ => activations m !! id
      end
  | None => activations m !! id
  end.
Proof.
  unfold resume. destruct (activations m !! id') as [a|]; [|done].
  destruct (race a) as [s|] eqn:Hs; [|done]. destruct (resumed a); [done|].
  unfold exec.
  match goal with |- context [run_chained ?k ?o ?m1] =>
    destruct (keeps_run_chained k o m1) as [_ (-> & _)] end.
  simpl. rewrite lookup_insert. unfold resumed_with, outcome_of. rewrite Hs.
  by destruct (decide (id' = id)).
Qed.

(** Once the reaction jobs have run, a settled activation has its outcome. *)
Lemma run_jobs_resumes (m : Manager) (id : string) (a : Activation) (s : Settlement) :
  activations m !! id = Some a → race a = Some s → resumed a = None →
  activations (run_jobs m) !! id
    = Some (resumed_with a (outcome_of s (_errorCodesToMessagesMapping m))).
Proof.
  intros Ha Hs Hr. unfold run_jobs.
  set (out := outcome_of s (_errorCodesToMessagesMapping m)).
  set (good := λ m' : Manager,
    _errorCodesToMessagesMapping m' = _errorCodesToMessagesMapping m ∧
    (activations m' !! id = Some a ∨ activations m' !! id = Some (resumed_with a out))).
  set (finished := λ m' : Manager, activations m' !! id = Some (resumed_with a out)).
  apply (fold_left_reaches (λ m id, resume id m) good finished id).
  - intros m1 k (Hm1 & Ha1). split; [by rewrite resume_mapping|].
    rewrite resume_lookup.
    destruct (activations m1 !! k) as [ak|] eqn:Hk; [|done].
    destruct (race ak) as [sk|] eqn:Hsk; [|done].
    destruct (resumed ak) eqn:Hrk; [done|].
    destruct (decide (k = id)) as [->|_]; [|done].
    right. destruct Ha1 as [Ha1|Ha1]; rewrite Ha1 in Hk; simplify_eq.
    subst out. by rewrite Hm1.
  - intros m1 k (Hm1 & _) Hd. unfold finished in *. rewrite resume_lookup.
    destruct (activations m1 !! k) as [ak|] eqn:Hk; [|done].
    destruct (race ak) as [sk|] eqn:Hsk; [|done].
    destruct (resumed ak) eqn:Hrk; [done|].
    destruct (decide (k = id)) as [->|_]; [|done].
    rewrite Hd in Hk. by simplify_eq.
  - intros m1 (Hm1 & Ha1). unfold finished. rewrite resume_lookup.
    destruct Ha1 as [Ha1|Ha1]; rewrite Ha1; simpl.
    + rewrite Hs, Hr, decide_True by done. subst out. by rewrite Hm1.
    + by rewrite Hs.
  - split; [done|by left].
  - apply list_elem_of_fmap. exists (id, a). split; [done|].
    by apply elem_of_map_to_list.
Qed.

End Registry.

Section Invariant.
Context `{Api : BleErrorApi}.

(** *** The registry invariant *)

Lemma registry_consistent_kept (m m' : Manager) :
  mediation_kept m m' → registry_consistent m → registry_consistent m'.
Proof.
  intros (Ha & Hp & _ & Hu) [H1 H2]. split.
  - intros id a. rewrite Ha, Hp. apply H1.
  - intros id. rewrite Ha. intros Hid.
    destruct (H2 id Hid) as (n & -> & Hn). exists n. split; [done|lia].
Qed.

Lemma preserves_keeps {A} (c : M A) : keeps c → preserves c.
Proof. intros Hc m. apply registry_consistent_kept, Hc. Qed.

Lemma preserves_bind {A B} (c : M A) (k : A → M B) :
  preserves c → (∀ a, preserves (k a)) → preserves (bind c k).
Proof.
  intros Hc Hk m Hm. unfold bind. specialize (Hc m Hm).
  destruct (c m) as [[a|e] m1]; simpl in *; [by apply Hk|done].
Qed.

Lemma preserves_for_each {A} (l : list A) (body : A → M unit) :
  (∀ x, preserves (body x)) → preserves (for_each l body).
Proof.
  intros Hbody. induction l as [|x l IH]; simpl; [by intros m|].
  apply preserves_bind; [apply Hbody|by intros _].
Qed.

Lemma constructor_consistent (mapping : Mapping) :
  registry_consistent (constructor mapping).
Proof.
  split.
  - intros id a. simpl. by rewrite lookup_empty.
  - intros id. simpl. rewrite lookup_empty. by intros [? ?].
Qed.

Lemma _callPromise_state (k : Continuation) (m : Manager) :
  let id := pretty (S (_uniqueId m)) in
  fst (_callPromise k m) = Normal id ∧
  _uniqueId (snd (_callPromise k m)) = S (_uniqueId m) ∧
  _activePromises (snd (_callPromise k m))
    = <[id := RejectDestroyPromise id]> (_activePromises m) ∧
  activations (snd (_callPromise k m))
    = <[id := {| race := None; resumed := None; chained := k |}]> (activations m).
Proof. by repeat split. Qed.

Lemma preserves_callPromise (k : Continuation) : preserves (_callPromise k).
Proof.
  intros m [H1 H2].
  destruct (_callPromise_state k m) as (_ & Hu & Hp & Ha).
  split.
  - intros id a. rewrite Ha, Hp.
    destruct (decide (pretty (S (_uniqueId m)) = id)) as [<-|Hne].
    + rewrite !lookup_insert_eq. intros [= <-] _. done.
    + rewrite !lookup_insert_ne by done. apply H1.
  - intros id. rewrite Ha, Hu.
    destruct (decide (pretty (S (_uniqueId m)) = id)) as [<-|Hne].
    + intros _. exists (S (_uniqueId m)). split; [done|lia].
    + rewrite lookup_insert_ne by done. intros Hid.
      destruct (H2 id Hid) as (n & -> & Hn). exists n. split; [done|lia].
Qed.

(** A fresh id: no activation is overwritten. *)
Lemma _callPromise_fresh (k : Continuation) (m : Manager) :
  registry_consistent m → activations m !! pretty (S (_uniqueId m)) = None.
Proof.
  intros [_ H2]. destruct (activations m !! _) eqn:Hid; [|done].
  destruct (H2 _ (mk_is_Some _ _ Hid)) as (n & Hn & Hle).
  apply (inj pretty) in Hn. lia.
Qed.

Lemma preserves_handleMonitorCharacteristic (transactionId : string) (listener : Listener) :
  preserves (_handleMonitorCharacteristic transactionId listener).
Proof.
  unfold _handleMonitorCharacteristic.
  apply preserves_bind; [apply preserves_keeps, keeps_addListener|intros subscription].
  apply preserves_bind; [apply preserves_keeps, keeps_nextUniqueID|intros id].
  apply preserves_bind.
  { apply preserves_keeps, keeps_modify. solve_kept. }
  intros _. apply preserves_bind; [apply preserves_callPromise|].
  intros _. apply preserves_keeps, keeps_ret.
Qed.

Lemma preserves_monitoring (op : MonitoringOperation) (listener : Listener)
    (transactionId : option string) :
  preserves (monitoring op listener transactionId).
Proof.
  destruct op; simpl;
    (apply preserves_bind; [apply preserves_keeps, keeps_fill|intros filled];
     apply preserves_bind; [apply preserves_keeps, keeps_BleModule|intros _];
     apply preserves_handleMonitorCharacteristic).
Qed.

Lemma preserves_write (d s c value : string) (withResponse : bool)
    (transactionId : option string) :
  preserves (bind (fill transactionId) (λ t,
             bind (BleModule (WriteCharacteristicForDevice d s c value withResponse t))
               (λ _, _callPromise Awaited))).
Proof.
  apply preserves_bind; [apply preserves_keeps, keeps_fill|intros t].
  apply preserves_bind; [apply preserves_keeps, keeps_BleModule|intros _].
  apply preserves_callPromise.
Qed.

Lemma preserves_protocol (op : ProtocolOperation) (transactionId : option string) :
  preserves (protocol op transactionId).
Proof.
  destruct op as [| |[|] d user| | | |]; simpl;
    rewrite ?selectProfileAlternativeScale_hoisted; try apply preserves_write.
  unfold selectProfileAlternativeScale.
  apply preserves_bind; [apply preserves_keeps, keeps_fill|intros t].
  by intros m.
Qed.

Lemma settle_consistent (t : string) (s : Settlement) (m : Manager) :
  registry_consistent m → registry_consistent (settle t s m).
Proof.
  intros [H1 H2]. split.
  - intros id a. rewrite settle_lookup.
    destruct (decide (t = id)) as [->|_]; [|apply H1].
    destruct (activations m !! id) as [a0|] eqn:Hid; [|done].
    simpl. intros [= <-] Hrace. unfold settle_race in Hrace.
    destruct (race a0) eqn:Hr0; simpl in Hrace; congruence.
  - intros id. rewrite settle_lookup. intros Hid. apply H2.
    destruct (decide (t = id)); [|done]. by apply fmap_is_Some in Hid.
Qed.

Lemma resume_consistent (id : string) (m : Manager) :
  registry_consistent m → registry_consistent (resume id m).
Proof.
  intros [H1 H2]. unfold resume.
  destruct (activations m !! id) as [a|] eqn:Hid; [|done].
  destruct (race a) as [s|] eqn:Hs; [|done]. destruct (resumed a) eqn:Hr; [done|].
  unfold exec. eapply registry_consistent_kept; [apply keeps_run_chained|].
  split; simpl.
  - intros id' a'. destruct (decide (id = id')) as [<-|Hne].
    + rewrite lookup_insert_eq. intros [= <-]. simpl. congruence.
    + rewrite lookup_insert_ne, lookup_delete_ne by done. apply H1.
  - intros id'. destruct (decide (id = id')) as [<-|Hne].
    + intros _. apply H2. by rewrite Hid.
    + rewrite lookup_insert_ne by done. apply H2.
Qed.

Lemma preserves_destroy : preserves destroy.
Proof.
  intros m Hm. destruct (destroy_split m) as [-> Hkept].
  apply (registry_consistent_kept _ _ Hkept) in Hm.
  revert Hm. generalize (snd (destroy_prefix m)). clear m Hkept.
  intros m Hm. rewrite _destroyPromises_loop.
  apply preserves_for_each; [|done].
  intros id m1 Hm1. rewrite reject_visit_state.
  destruct (_activePromises m1 !! id) as [[t]|]; [|done].
  by apply settle_consistent.
Qed.

Lemma step_consistent (m m' : Manager) :
  step m m' → registry_consistent m → registry_consistent m'.
Proof.
  intros Hstep Hm. destruct Hstep.
  - by apply preserves_callPromise.
  - by apply settle_consistent.
  - by apply resume_consistent.
  - by apply preserves_monitoring.
  - by apply preserves_protocol.
  - by apply (preserves_keeps _ (keeps_remove s)).
  - unfold emit_ReadEvent, exec.
    refine (preserves_keeps _ _ m Hm).
    apply keeps_for_each. intros l. apply keeps_run_listener.
  - by apply (preserves_keeps _ (keeps_cancelTransaction transactionId)).
  - by apply preserves_destroy.
Qed.

Lemma reachable_consistent (m : Manager) : reachable m → registry_consistent m.
Proof.
  induction 1 as [mapping|m m' _ IH Hstep].
  - apply constructor_consistent.
  - by eapply step_consistent.
Qed.

(** *** C2 *)

(** [destroy] rejects the race of every pending operation with the error
    built for [BluetoothManagerDestroyed], and leaves the message table as
    it is. *)
Lemma destroy_rejects_pending (m : Manager) (id : string) (a : Activation) :
  registry_consistent m →
  activations m !! id = Some a → race a = None →
  let error := destroyedError (_errorCodesToMessagesMapping m) in
  activations (exec destroy m) !! id
    = Some {| race := Some (Rejected (ThrownBleError error)); resumed := None;
              chained := chained a |} ∧
  _errorCodesToMessagesMapping (exec destroy m) = _errorCodesToMessagesMapping m.
Proof.
  intros Hm Ha Hr error. destruct (Hm) as [H1 _].
  destruct (H1 id a Ha Hr) as [Hp Hres].
  unfold exec. destruct (destroy_split m) as [-> (Ha' & Hp' & Hm' & _)].
  rewrite <- Ha' in Ha. rewrite <- Hp' in Hp.
  destruct (_destroyPromises_settles _ id a Ha Hp) as [Hs Hmap].
  rewrite Hs, Hmap, Hm'. split; [|done].
  rewrite settle_race_pending by done. by rewrite Hres.
Qed.

(** What [destroy] makes of a pending operation, whatever [./BleError] is:
    the race is rejected with the error built for
    [BluetoothManagerDestroyed], and once the activation runs on it throws
    what [parseBleError] makes of the message of that error. The error
    [destroy] built is not what the caller receives. *)
Lemma destroy_throws_parsed_message (m : Manager) (id : string) :
  reachable m →
  pending m id →
  outcome (run_jobs (exec destroy m)) id
    = Some (inr (parseBleError
                   (BleError_message
                      (new_BleError
                         {| errorCode := BluetoothManagerDestroyed; attErrorCode := None;
                            iosErrorCode := None; androidErrorCode := None;
                            reason := None |}
                         (_errorCodesToMessagesMapping m)))
                   (_errorCodesToMessagesMapping m))).
Proof.
  intros Hreach (a & Ha & Hr).
  pose proof (reachable_consistent m Hreach) as Hm.
  destruct (destroy_rejects_pending m id a Hm Ha Hr) as [Hd Hmap].
  unfold outcome.
  rewrite (run_jobs_resumes _ id _ _ Hd eq_refl eq_refl). simpl.
  by rewrite Hmap.
Qed.

End Invariant.

Section Operations_properties.
Context `{Api : BleErrorApi}.

(** *** What the protocol operations write *)

Lemma written_app (m : Manager) (c : BleModuleCall) :
  written (upd_calls (λ l, l ++ [c]) m) =
  written m ++ match c with
               | WriteCharacteristicForDevice _ _ _ value _ _ =>
                   [Base64Std.decode value]
               | _ => []
               end.
Proof.
  unfold written. simpl. rewrite omap_app. f_equal. by destruct c.
Qed.

Lemma write_operation_written (d s c value : string) (withResponse : bool)
    (transactionId : option string) (m : Manager) :
  written (exec (bind (fill transactionId) (λ t,
                 bind (BleModule (WriteCharacteristicForDevice d s c value withResponse t))
                   (λ _, _callPromise Awaited))) m)
  = written m ++ [Base64Std.decode value].
Proof.
  unfold exec, bind.
  destruct (fill_calls transactionId m) as (t & Ht & Hc).
  destruct (fill transactionId m) as [[t'|e] m1]; simpl in *; [|done].
  unfold written in *. simpl. rewrite omap_app, Hc. reflexivity.
Qed.

(** The write issued by [setDeviceTime] carries the frame of C4. *)
Lemma setDeviceTime_written (deviceIdentifier : string) (transactionId : option string)
    (m : Manager) :
  written (exec (setDeviceTime deviceIdentifier "2024-03-05T13:45:12" transactionId) m)
  = written m ++ [Some [1; 36; 3; 5; 19; 69; 18; 0; 0; 0; 0; 0; 0; 0; 0; 151]].
Proof.
  unfold setDeviceTime. rewrite write_operation_written.
  by rewrite decode_base64ArrayBuffer.
Qed.

(** *** C10 *)

(** C10. In [setUserProfileToScales] the transmitted gender/age byte is the
    age argument as given, plus 128 for a male profile, modulo 256; the
    clamped [ageUnit] is not part of the frame, so the bytes written do not
    depend on it. *)
Theorem setUserProfileToScales_age_byte (deviceIdentifier : string) (age height : Z)
    (gender : string) (transactionId : option string) (m : Manager) :
  let sent := (age + (if String.eqb gender "male" then 128 else 0)) mod 256 in
  Uint8Array_of_numbers (setUserProfileToScales_array (Num age) (Num height) gender)
    !! 5%nat = Some sent ∧
  written (exec (setUserProfileToScales deviceIdentifier (Num age) (Num height) gender
                   transactionId) m)
  = written m ++ [Some [253; 83; 0; 0; 255; sent; 100 `max` (height `min` 218)]].
Proof.
  intros sent. split.
  - by rewrite setUserProfileToScales_bytes.
  - unfold setUserProfileToScales. rewrite write_operation_written.
    by rewrite decode_base64ArrayBuffer, setUserProfileToScales_bytes.
Qed.

(** *** Delivery of events *)

(** Whatever an emitted event makes the listeners do, every invocation of a
    caller's listener comes from a registration under the tag of the
    event. *)
Lemma emit_ReadEvent_matching (error : option string) (characteristic : Native)
    (tag : string) (m : Manager) :
  ∃ new, heard (emit_ReadEvent (error, characteristic, tag) m) = heard m ++ new ∧
         ∀ c, c ∈ new →
              ∃ h, emitter m !! h = Some (MonitorListener tag (callee c)).
Proof.
  unfold emit_ReadEvent, exec.
  assert (Hreg : ∀ l, l ∈ (map_to_list (emitter m)).*2 → ∃ h, emitter m !! h = Some l).
  { intros l Hl. apply list_elem_of_fmap in Hl as ([h l'] & -> & Hl).
    exists h. by apply elem_of_map_to_list. }
  revert Hreg. generalize (map_to_list (emitter m)).*2 as ls. intros ls.
  cut (∀ m1, (∀ l, l ∈ ls → ∃ h, emitter m !! h = Some l) →
         ∃ new,
           heard (snd (for_each ls
                         (λ l, run_listener l (error, characteristic, tag)) m1))
             = heard m1 ++ new ∧
           ∀ c, c ∈ new → ∃ h, emitter m !! h = Some (MonitorListener tag (callee c))).
  { intros H. apply H. }
  induction ls as [|[t listener] ls IH]; intros m1 Hreg.
  - exists []. split; [by rewrite app_nil_r|]. intros c Hc. by apply elem_of_nil in Hc.
  - assert (Hhead : ∃ new1 m2,
      run_listener (MonitorListener t listener) (error, characteristic, tag) m1
        = (Normal tt, m2) ∧ heard m2 = heard m1 ++ new1 ∧
      ∀ c, c ∈ new1 → callee c = listener ∧ t = tag).
    { simpl. destruct (String.eqb_spec t tag) as [->|Hne]; simpl.
      - destruct (truthy error); eexists [_], _;
          (split; [reflexivity|split; [reflexivity|]]);
          intros c Hc; apply list_elem_of_singleton in Hc as ->; done.
      - exists [], m1. split; [done|]. split; [by rewrite app_nil_r|].
        intros c Hc. by apply elem_of_nil in Hc. }
    destruct Hhead as (new1 & m2 & Hrun & Hheard & Hnew1).
    cbn [for_each]. unfold bind. rewrite Hrun.
    destruct (IH m2) as (new2 & Hheard2 & Hnew2).
    { intros l Hl. apply Hreg. by right. }
    exists (new1 ++ new2). split; [by rewrite Hheard2, Hheard, app_assoc|].
    intros c Hc. apply elem_of_app in Hc as [Hc|Hc]; [|by apply Hnew2].
    destruct (Hnew1 c Hc) as [-> <-]. apply Hreg. by left.
Qed.

End Operations_properties.

(** ** Tracker frames *)

Lemma fold_add_from (l : list Z) (a : Z) : fold_left Z.add l a = a + fold_left Z.add l 0.
Proof.
  revert a. induction l as [|x l IH]; intros a; simpl; [lia|].
  rewrite (IH (a + x)), (IH (0 + x)). lia.
Qed.

Lemma ToUint8_byte (n : number) : is_byte (ToUint8 n).
Proof.
  destruct n as [z|]; unfold is_byte; simpl; [|lia].
  apply Z.mod_pos_bound. lia.
Qed.

(** The frame of a tracker command whose opcode and six argument bytes are
    given: eight zero bytes follow, then the checksum. *)
Lemma tracker_frame_bytes (op b1 b2 b3 b4 b5 b6 : number) :
  let uint16 :=
    set8_all (new_Uint8Array 16)
      [ (0%nat, op); (1%nat, b1); (2%nat, b2); (3%nat, b3); (4%nat, b4);
        (5%nat, b5); (6%nat, b6) ] in
  set8 uint16 15 (Num (calculateChecksum uint16)) =
  [ ToUint8 op; ToUint8 b1; ToUint8 b2; ToUint8 b3; ToUint8 b4; ToUint8 b5; ToUint8 b6;
    0; 0; 0; 0; 0; 0; 0; 0;
    (ToUint8 op + ToUint8 b1 + ToUint8 b2 + ToUint8 b3 + ToUint8 b4 + ToUint8 b5
     + ToUint8 b6) mod 256 ].
Proof.
  intros uint16. unfold uint16.
  rewrite calculateChecksum_sum.
  unfold set8_all, set8, new_Uint8Array. simpl.
  do 15 f_equal. rewrite Z.mod_mod by lia. do 2 f_equal. lia.
Qed.

Lemma short_tracker_frame_bytes (op b1 : number) :
  let uint16 := set8_all (new_Uint8Array 16) [ (0%nat, op); (1%nat, b1) ] in
  set8 uint16 15 (Num (calculateChecksum uint16)) =
  [ ToUint8 op; ToUint8 b1; 0; 0; 0; 0; 0; 0; 0; 0; 0; 0; 0; 0; 0;
    (ToUint8 op + ToUint8 b1) mod 256 ].
Proof.
  intros uint16. unfold uint16.
  rewrite calculateChecksum_sum.
  unfold set8_all, set8, new_Uint8Array. simpl.
  do 15 f_equal. rewrite Z.mod_mod by lia. do 2 f_equal. lia.
Qed.

(** Every tracker frame is an opcode, six argument bytes, eight zero bytes and
    a trailer. *)
Lemma tracker_uint16_shape (c : TrackerCommand) :
  ∃ b1 b2 b3 b4 b5 b6 : Z,
    Forall is_byte [b1; b2; b3; b4; b5; b6] ∧
    tracker_uint16 c =
    [ tracker_opcode c; b1; b2; b3; b4; b5; b6; 0; 0; 0; 0; 0; 0; 0; 0;
      (tracker_opcode c + b1 + b2 + b3 + b4 + b5 + b6) mod 256 ].
Proof.
  assert (Hz : is_byte 0) by (unfold is_byte; lia).
  destruct c as [duration|date|unit|date|date]; simpl tracker_uint16; simpl tracker_opcode.
  - unfold activateVibration_uint16. rewrite short_tracker_frame_bytes.
    change (ToUint8 (Num 54)) with 54.
    match goal with |- context [ToUint8 ?x] => exists (ToUint8 x), 0, 0, 0, 0, 0 end.
    split; [|do 15 f_equal; do 2 f_equal; lia].
    repeat (apply Forall_cons_2; [first [apply ToUint8_byte | exact Hz]|]); apply Forall_nil_2.
  - unfold setDeviceTime_uint16. rewrite tracker_frame_bytes.
    change (ToUint8 (Num 1)) with 1.
    eexists _, _, _, _, _, _. split; [|reflexivity].
    repeat (apply Forall_cons_2; [first [apply ToUint8_byte | exact Hz]|]); apply Forall_nil_2.
  - unfold setTrackerDistanceUnit_uint16. rewrite short_tracker_frame_bytes.
    change (ToUint8 (Num 15)) with 15.
    match goal with |- context [ToUint8 ?x] => exists (ToUint8 x), 0, 0, 0, 0, 0 end.
    split; [|do 15 f_equal; do 2 f_equal; lia].
    repeat (apply Forall_cons_2; [first [apply ToUint8_byte | exact Hz]|]); apply Forall_nil_2.
  - unfold getDetailedDayActivity_uint16. rewrite short_tracker_frame_bytes.
    change (ToUint8 (Num 67)) with 67.
    match goal with |- context [ToUint8 ?x] => exists (ToUint8 x), 0, 0, 0, 0, 0 end.
    split; [|do 15 f_equal; do 2 f_equal; lia].
    repeat (apply Forall_cons_2; [first [apply ToUint8_byte | exact Hz]|]); apply Forall_nil_2.
  - unfold getSummaryDayActivity_uint16. rewrite short_tracker_frame_bytes.
    change (ToUint8 (Num 7)) with 7.
    match goal with |- context [ToUint8 ?x] => exists (ToUint8 x), 0, 0, 0, 0, 0 end.
    split; [|do 15 f_equal; do 2 f_equal; lia].
    repeat (apply Forall_cons_2; [first [apply ToUint8_byte | exact Hz]|]); apply Forall_nil_2.
Qed.

Lemma tracker_uint16_bytes (c : TrackerCommand) : Forall is_byte (tracker_uint16 c).
Proof.
  destruct (tracker_uint16_shape c) as (b1 & b2 & b3 & b4 & b5 & b6 & Hb & ->).
  assert (is_byte (tracker_opcode c)) by (destruct c; unfold is_byte; simpl; lia).
  assert (is_byte 0) by (unfold is_byte; lia).
  assert (is_byte ((tracker_opcode c + b1 + b2 + b3 + b4 + b5 + b6) mod 256))
    by (apply Z.mod_pos_bound; lia).
  inversion_clear Hb as [|? ? ? Hb1]. inversion_clear Hb1 as [|? ? ? Hb2].
  inversion_clear Hb2 as [|? ? ? Hb3]. inversion_clear Hb3 as [|? ? ? Hb4].
  inversion_clear Hb4 as [|? ? ? Hb5]. inversion_clear Hb5 as [|? ? ? Hb6].
  repeat (apply Forall_cons_2; [assumption|]); apply Forall_nil_2.
Qed.

(** X1. Every frame of the tracker family ([activateVibration],
    [setDeviceTime], [setTrackerDistanceUnit], [getDetailedDayActivity],
    [getSummaryDayActivity]), for every argument: 16 bytes, the command's
    opcode first, bytes 7 to 14 zero, and the last byte the additive checksum
    of the fifteen bytes before it, that is their sum modulo 256. *)
Theorem tracker_frame_checksum (c : TrackerCommand) :
  let frame := tracker_uint16 c in
  length frame = 16%nat ∧
  Forall is_byte frame ∧
  frame !! 0%nat = Some (tracker_opcode c) ∧
  take 8 (drop 7 frame) = replicate 8 0 ∧
  frame !! 15%nat = Some (additive_trailer frame) ∧
  frame !! 15%nat = Some (fold_left Z.add (take 15 frame) 0 mod 256).
Proof.
  intros frame. pose proof (tracker_uint16_bytes c) as Hbytes.
  unfold frame in *.
  destruct (tracker_uint16_shape c) as (b1 & b2 & b3 & b4 & b5 & b6 & _ & Heq).
  rewrite Heq in *. clear Heq.
  unfold additive_trailer. rewrite calculateChecksum_sum. simpl.
  repeat split; try assumption; do 2 f_equal; lia.
Qed.
Section Write_operations.
Context `{Api : BleErrorApi}.

(** What an operation of the shape "fill the transaction id, write, await"
    does to the manager. *)
Lemma write_operation_effect (d s c value : string) (withResponse : bool)
    (transactionId : option string) (m : Manager) :
  let op := bind (fill transactionId) (λ t,
            bind (BleModule (WriteCharacteristicForDevice d s c value withResponse t))
              (λ _, _callPromise Awaited)) in
  let id := awaited transactionId m in
  fst (op m) = Normal id ∧
  calls (exec op m)
    = calls m ++ [WriteCharacteristicForDevice d s c value withResponse
                    (filled transactionId m)] ∧
  activations (exec op m)
    = <[id := {| race := None; resumed := None; chained := Awaited |}]> (activations m) ∧
  _activePromises (exec op m)
    = <[id := RejectDestroyPromise id]> (_activePromises m) ∧
  _activeSubscriptions (exec op m) = _activeSubscriptions m ∧
  emitter (exec op m) = emitter m ∧
  heard (exec op m) = heard m.
Proof.
  unfold awaited, filled, fill, exec, bind.
  destruct (truthy transactionId) as [t|]; by repeat split.
Qed.

(** X2. Each operation of the tracker family issues exactly one write: to the
    tracker service and write characteristic, with response, under the
    transaction id given (or the next unique id when none is given), and the
    value written decodes to the command's frame. It returns the id of a new
    pending activation of [_callPromise]. *)
Theorem tracker_command_written (c : TrackerCommand) (deviceIdentifier : string)
    (transactionId : option string) (m : Manager) :
  let m' := exec (tracker c deviceIdentifier transactionId) m in
  fst (tracker c deviceIdentifier transactionId m) = Normal (awaited transactionId m) ∧
  calls m' = calls m ++
    [WriteCharacteristicForDevice deviceIdentifier trackerServiceUUID
       trackerWriteCharacteristic (base64ArrayBuffer (tracker_uint16 c)) true
       (filled transactionId m)] ∧
  written m' = written m ++ [Some (tracker_uint16 c)] ∧
  pending m' (awaited transactionId m).
Proof.
  intros m'.
  assert (Hop : tracker c deviceIdentifier transactionId =
                bind (fill transactionId) (λ t,
                bind (BleModule (WriteCharacteristicForDevice deviceIdentifier
                        trackerServiceUUID trackerWriteCharacteristic
                        (base64ArrayBuffer (tracker_uint16 c)) true t))
                  (λ _, _callPromise Awaited))) by (by destruct c).
  unfold m'. rewrite Hop.
  destruct (write_operation_effect deviceIdentifier trackerServiceUUID
              trackerWriteCharacteristic (base64ArrayBuffer (tracker_uint16 c)) true
              transactionId m) as (Hid & Hcalls & Hact & _).
  repeat split; try assumption.
  - rewrite write_operation_written, decode_base64ArrayBuffer.
    by rewrite (Uint8Array_of_bytes _ (tracker_uint16_bytes c)).
  - eexists. rewrite Hact, lookup_insert_eq. by split.
Qed.

End Write_operations.

(** X3. [activateVibration] caps the duration at 10 and has no lower bound:
    for an integer duration [d] the duration byte is [min d 10] modulo 256
    (a negative duration wraps around), the other argument bytes are zero and
    the trailer is the sum of the opcode 0x36 and the duration byte. *)
Theorem activateVibration_caps_duration (d : Z) :
  activateVibration_uint16 (Num d) =
  [54; (d `min` 10) mod 256; 0; 0; 0; 0; 0; 0; 0; 0; 0; 0; 0; 0; 0;
   (54 + (d `min` 10) mod 256) mod 256] ∧
  activateVibration_uint16 (Num 25) !! 1%nat = Some 10 ∧
  activateVibration_uint16 (Num (-1)) !! 1%nat = Some 255 ∧
  activateVibration_uint16 NaN !! 1%nat = Some 0.
Proof.
  split; [|by vm_compute].
  unfold activateVibration_uint16. rewrite short_tracker_frame_bytes.
  change (ToUint8 (Num 54)) with 54.
  assert ((if gt (Num d) (Num 10) then Num 10 else Num d) = Num (d `min` 10)) as ->.
  { unfold gt, lt. destruct (Z.ltb_spec 10 d); f_equal; lia. }
  reflexivity.
Qed.

(** ** The date of [setDeviceTime] *)

Lemma bcd_read_back (v : Z) :
  0 ≤ v < 100 → parseInt (two_digit_text v) (Some 16) = Num (bcd v).
Proof.
  intros Hv. apply number_eqb_eq.
  apply (check_range_spec
           (λ v, number_eqb (parseInt (two_digit_text v) (Some 16)) (Num (bcd v)))
           100 0); [by vm_compute|lia].
Qed.

Lemma bcd_byte (v : Z) : 0 ≤ v < 100 → 0 ≤ bcd v < 256.
Proof. unfold bcd. intros Hv. Z.div_mod_to_equations. lia. Qed.

Lemma date_time_text_slices (cc yy mo d h mi s : Z) :
  let date := date_time_text cc yy mo d h mi s in
  slice date 2 4 = two_digit_text yy ∧ slice date 5 7 = two_digit_text mo ∧
  slice date 8 10 = two_digit_text d ∧ slice date 11 13 = two_digit_text h ∧
  slice date 14 16 = two_digit_text mi ∧ slice date 17 19 = two_digit_text s.
Proof. by repeat split. Qed.


(** ** Scale frames *)

Lemma hex_pair_read_back (b : Z) :
  0 ≤ b < 256 → parseInt (hex_pair b) (Some 16) = Num b.
Proof.
  intros Hb. apply number_eqb_eq.
  apply (check_range_spec
           (λ b, number_eqb (parseInt (hex_pair b) (Some 16)) (Num b))
           256 0); [by vm_compute|lia].
Qed.

Lemma user_text_slices (u0 u1 u2 u3 : Z) :
  let user := user_text u0 u1 u2 u3 in
  slice user 0 2 = hex_pair u0 ∧ slice user 2 4 = hex_pair u1 ∧
  slice user 4 6 = hex_pair u2 ∧ slice user 6 8 = hex_pair u3.
Proof. by repeat split. Qed.

Lemma setUserProfileToAlternativeScale_bytes (u0 u1 u2 u3 age height gender : Z) :
  is_byte u0 → is_byte u1 → is_byte u2 → is_byte u3 → is_byte gender →
  setUserProfileToAlternativeScale_uint16 (user_text u0 u1 u2 u3)
    (Num age) (Num height) (Num gender) =
  [129; 0; 129; u0; u1; u2; u3; 0; saturate 100 218 height; saturate 10 98 age;
   gender; 0; 0].
Proof.
  unfold is_byte, saturate. intros H0 H1 H2 H3 Hg.
  unfold setUserProfileToAlternativeScale_uint16.
  destruct (user_text_slices u0 u1 u2 u3) as (-> & -> & -> & ->).
  rewrite !clamp_lt_gt by lia.
  rewrite !hex_pair_read_back by assumption.
  rewrite !parseInt_number_byte by lia.
  unfold set8_all, set8, new_Uint8Array. simpl.
  rewrite !Z.mod_small by lia. reflexivity.
Qed.

Section Scale_operations.
Context `{Api : BleErrorApi}.



(** *** C9 *)

Lemma selectProfileAlternativeScale_bytes (u0 u1 u2 u3 : Z) :
  is_byte u0 → is_byte u1 → is_byte u2 → is_byte u3 →
  selectProfileAlternativeScale_uint16 (user_text u0 u1 u2 u3)
  = [65; 0; 130; u0; u1; u2; u3; 0; 0; 0; 0; 0; 0].
Proof.
  unfold is_byte. intros H0 H1 H2 H3.
  unfold selectProfileAlternativeScale_uint16.
  destruct (user_text_slices u0 u1 u2 u3) as (-> & -> & -> & ->).
  rewrite !hex_pair_read_back by assumption.
  unfold set8_all, set8, new_Uint8Array. simpl.
  rewrite !Z.mod_small by lia. reflexivity.
Qed.


(** Under function scoping [resetAlternativeScale] is a plain write of the
    single byte 0x01. *)
Lemma resetAlternativeScale_hoisted (deviceIdentifier : string)
    (transactionId : option string) :
  resetAlternativeScale FunctionScoped deviceIdentifier transactionId =
  bind (fill transactionId) (λ t,
  bind (BleModule (WriteCharacteristicForDevice deviceIdentifier scaleServiceUUID
                     alternativeScaleReadFinalCharacteristic
                     (base64ArrayBuffer (Uint8Array_of_numbers [1])) true t))
    (λ _, _callPromise Awaited)).
Proof. reflexivity. Qed.


End Scale_operations.
(** ** Glucometer frames *)

Section Glucometer_operations.
Context `{Api : BleErrorApi}.

(** X8. The frames of the two glucometer commands, for every reading of the
    wall clock: 0x5a, 0x0a, a command byte (0x00 for [setGlucometerTime],
    0x03 for [fetchAdditionalGlucometerRecord]), the year modulo 100, the
    month counted from 1, the day, the hour and the minute as plain binary
    values, 0x00, and one trailer which is the same in both commands. The
    bytes written to the glucometer write characteristic are these frames. *)
Theorem glucometer_frames (t : Date) (deviceIdentifier : string) (withResponse : bool)
    (transactionId : option string) (m : Manager) :
  wall_clock t →
  let trailer := (90 + 10 + 0 + getFullYear t mod 100 + (getMonth t + 1) + getDate t
                  + getHours t + getMinutes t + 2) mod 256 in
  let frame command :=
    [90; 10; command; getFullYear t mod 100; getMonth t + 1; getDate t; getHours t;
     getMinutes t; 0; trailer] in
  setGlucometerTime_payload t = frame 0 ∧
  fetchAdditionalGlucometerRecord_payload t = frame 3 ∧
  written (exec (setGlucometerTime t deviceIdentifier withResponse transactionId) m)
    = written m ++ [Some (frame 0)] ∧
  written (exec (fetchAdditionalGlucometerRecord t deviceIdentifier transactionId) m)
    = written m ++ [Some (frame 3)].
Proof.
  intros Ht trailer frame.
  assert (H0 : setGlucometerTime_payload t = frame 0)
    by apply (glucometer_payload_bytes 0 t Ht).
  assert (H3 : fetchAdditionalGlucometerRecord_payload t = frame 3)
    by apply (glucometer_payload_bytes 3 t Ht).
  assert (Hbytes : ∀ command, is_byte command → Forall is_byte (frame command)).
  { intros command Hc. unfold frame, trailer. unfold is_byte, wall_clock in *.
    repeat (apply Forall_cons_2; [Z.div_mod_to_equations; lia|]).
    apply Forall_nil_2. }
  repeat split; try assumption.
  - unfold setGlucometerTime.
    rewrite write_operation_written, decode_base64ArrayBuffer, H0.
    rewrite (Uint8Array_of_bytes (frame 0)); [done|].
    apply Hbytes. unfold is_byte. lia.
  - unfold fetchAdditionalGlucometerRecord.
    rewrite write_operation_written, decode_base64ArrayBuffer, H3.
    rewrite (Uint8Array_of_bytes (frame 3)); [done|].
    apply Hbytes. unfold is_byte. lia.
Qed.

End Glucometer_operations.

(** ** The exclusive-or trailer *)

Lemma numeric_elements_app (b1 b2 : list value) :
  numeric_elements (b1 ++ b2) = numeric_elements b1 ++ numeric_elements b2.
Proof. unfold numeric_elements. by rewrite filter_app, fmap_app. Qed.

(** X9. A frame closed with the trailer [XOR] computes for it verifies: when
    [XOR(b)] is a number, [XOR] of [b] followed by that number is 0. *)
Theorem XOR_trailer_verifies (b : list value) (z : Z) :
  XOR b = Num z → XOR (b ++ [VNumber (Num z)]) = Num 0.
Proof.
  destruct b as [|v l]; [intros H; discriminate H|].
  unfold XOR. simpl (_ !! _). simpl default. rewrite !XOR_loop_fold.
  change ((v :: l) ++ [VNumber (Num z)]) with (v :: (l ++ [VNumber (Num z)])).
  change (v :: l ++ [VNumber (Num z)]) with ((v :: l) ++ [VNumber (Num z)]).
  rewrite numeric_elements_app, fold_left_app.
  intros ->. simpl. apply bxor_self.
Qed.

Lemma XOR_trailer_verifies_witness :
  XOR (VNumber ∘ Num <$> [2; 64; 220; 1; 178]) = Num 47 ∧
  XOR ((VNumber ∘ Num <$> [2; 64; 220; 1; 178]) ++ [VNumber (Num 47)]) = Num 0.
Proof.
  split; [reflexivity|].
  apply (XOR_trailer_verifies (VNumber ∘ Num <$> [2; 64; 220; 1; 178]) 47).
  reflexivity.
Defined.

(** ** Blood-pressure frames *)

Lemma lxor_byte (a b : Z) : is_byte a → is_byte b → is_byte (Z.lxor a b).
Proof.
  unfold is_byte. intros Ha Hb.
  assert (H0 : 0 ≤ Z.lxor a b) by (apply Z.lxor_nonneg; lia).
  split; [assumption|].
  destruct (Z.eq_dec (Z.lxor a b) 0) as [->|Hne]; [lia|].
  change 256 with (2 ^ 8). apply Z.log2_lt_pow2; [lia|].
  pose proof (Z.log2_lxor a b ltac:(lia) ltac:(lia)) as Hlog.
  assert (Hla : Z.log2 a < 8).
  { destruct (Z.eq_dec a 0) as [->|]; [by vm_compute|].
    apply Z.log2_lt_pow2; [lia|]. change (2 ^ 8) with 256. lia. }
  assert (Hlb : Z.log2 b < 8).
  { destruct (Z.eq_dec b 0) as [->|]; [by vm_compute|].
    apply Z.log2_lt_pow2; [lia|]. change (2 ^ 8) with 256. lia. }
  lia.
Qed.

Lemma bxor_bytes (a b : Z) :
  is_byte a → is_byte b → bxor (Num a) (Num b) = Num (Z.lxor a b).
Proof.
  intros Ha Hb. pose proof (lxor_byte a b Ha Hb) as Hx.
  unfold is_byte in *. unfold bxor, ToInt32.
  rewrite (toInt32z_small a), (toInt32z_small b) by (unfold two31; lia).
  rewrite toInt32z_small by (unfold two31; lia). reflexivity.
Qed.

Lemma two_digit_text_read_back (v : Z) :
  0 ≤ v < 100 → parseInt (two_digit_text v) None = Num v.
Proof.
  intros Hv. apply number_eqb_eq.
  apply (check_range_spec
           (λ v, number_eqb (parseInt (two_digit_text v) None) (Num v))
           100 0); [by vm_compute|lia].
Qed.

Lemma setBloodPressureTime_bytes (yy month day hour minute second : Z) :
  calendar_fields yy month day hour minute second →
  Uint8Array_from
    (setBloodPressureTime_payload (moment_reading yy month day hour minute second)) =
  [2; 64; 220; 7; 176; yy; month + 1; day; hour; minute; second;
   xor_bytes [64; 220; 7; 176; yy; month + 1; day; hour; minute; second]].
Proof.
  intros (Hyy & Hmo & Hd & Hh & Hmi & Hs).
  unfold setBloodPressureTime_payload, moment_reading. simpl format_YY.
  simpl moment_month. simpl moment_date. simpl moment_hour. simpl moment_minute.
  simpl moment_second.
  rewrite two_digit_text_read_back by lia. cbv zeta.
  unfold add. unfold XOR. simpl (_ !! _). simpl default. simpl ToNumber.
  assert (B : ∀ x, 0 ≤ x < 256 → is_byte x) by (intros; assumption).
  assert (Hx : XOR_loop
                 (VNumber <$> [Num 2; Num 64; Num 220; Num 7; Num 176; Num yy;
                               Num (month + 1); Num day; Num hour; Num minute;
                               Num second]) (Num 2)
               = Num (xor_bytes [64; 220; 7; 176; yy; month + 1; day; hour; minute;
                                 second])).
  { unfold xor_bytes. simpl fmap. simpl XOR_loop. simpl fold_left.
    rewrite bxor_self.
    repeat (rewrite bxor_bytes;
            [|repeat apply lxor_byte; apply B; lia | apply B; lia]).
    reflexivity. }
  rewrite Hx. unfold Uint8Array_from. rewrite fmap_app. simpl.
  assert (Hxb : is_byte (xor_bytes [64; 220; 7; 176; yy; month + 1; day; hour;
                                    minute; second])).
  { unfold xor_bytes. simpl fold_left. repeat apply lxor_byte; apply B; lia. }
  unfold is_byte in Hxb.
  rewrite !Z.mod_small by lia. reflexivity.
Qed.

Section Blood_pressure_operations.
Context `{Api : BleErrorApi}.

(** X10. [setBloodPressureTime], for the two digits of the current year and
    the calendar fields of a valid date: the 12 bytes written (with response,
    to the blood-pressure write characteristic) are 0x02, 0x40, 0xdc, 0x07,
    0xb0, the year, the month counted from 1, the day, the hour, the minute,
    the second, and a trailer which is the exclusive-or of the ten bytes
    between the leading 0x02 and the trailer. *)
Theorem setBloodPressureTime_frame (yy month day hour minute second : Z)
    (deviceIdentifier : string) (transactionId : option string) (m : Manager) :
  calendar_fields yy month day hour minute second →
  let frame :=
    [2; 64; 220; 7; 176; yy; month + 1; day; hour; minute; second;
     xor_bytes [64; 220; 7; 176; yy; month + 1; day; hour; minute; second]] in
  let m' := exec (setBloodPressureTime
                    (moment_reading yy month day hour minute second)
                    deviceIdentifier transactionId) m in
  Forall is_byte frame ∧
  written m' = written m ++ [Some frame] ∧
  calls m' = calls m ++
    [WriteCharacteristicForDevice deviceIdentifier bloodPressureServiceUUID
       bloodPressureCharacteristicWriteUUID (base64ArrayBuffer frame) true
       (filled transactionId m)].
Proof.
  intros Hf frame m'. unfold m', setBloodPressureTime.
  rewrite (setBloodPressureTime_bytes _ _ _ _ _ _ Hf). fold frame.
  assert (Hbytes : Forall is_byte frame).
  { destruct Hf as (Hyy & Hmo & Hd & Hh & Hmi & Hs).
    assert (B : ∀ x, 0 ≤ x < 256 → is_byte x) by (intros; assumption).
    unfold frame.
    repeat (apply Forall_cons_2;
            [first [apply B; lia
                   | unfold xor_bytes; simpl fold_left;
                     repeat apply lxor_byte; apply B; lia]|]).
    apply Forall_nil_2. }
  repeat split; [assumption| |apply write_operation_effect].
  rewrite write_operation_written, decode_base64ArrayBuffer.
  by rewrite (Uint8Array_of_bytes _ Hbytes).
Qed.

(** X11. Each of the four fixed blood-pressure commands
    ([fetchBloodPressureMode], [fetchHistoricBloodPressureMeasurement],
    [turnBloodPressureVoiceOff], [startBloodPressureTesting]) writes its six
    bytes, with response, to the blood-pressure write characteristic, and the
    last of them is what [XOR] computes for the five bytes before it. *)
Theorem fixed_blood_pressure_commands (c : FixedBloodPressureCommand)
    (deviceIdentifier : string) (transactionId : option string) (m : Manager) :
  let frame := fixed_payload c in
  let m' := exec (fixed_command c deviceIdentifier transactionId) m in
  length frame = 6%nat ∧
  take 4 frame = [2; 64; 220; 1] ∧
  Num <$> frame !! 5%nat = Some (XOR (VNumber ∘ Num <$> take 5 frame)) ∧
  written m' = written m ++ [Some frame] ∧
  calls m' = calls m ++
    [WriteCharacteristicForDevice deviceIdentifier bloodPressureServiceUUID
       bloodPressureCharacteristicWriteUUID (base64ArrayBuffer frame) true
       (filled transactionId m)].
Proof.
  intros frame m'.
  assert (Hop : fixed_command c deviceIdentifier transactionId =
                bind (fill transactionId) (λ t,
                bind (BleModule (WriteCharacteristicForDevice deviceIdentifier
                        bloodPressureServiceUUID bloodPressureCharacteristicWriteUUID
                        (base64ArrayBuffer frame) true t))
                  (λ _, _callPromise Awaited))) by (by destruct c).
  unfold m'. rewrite Hop.
  repeat split; try (by destruct c); [|apply write_operation_effect].
  rewrite write_operation_written, decode_base64ArrayBuffer.
  by destruct c.
Qed.

End Blood_pressure_operations.
(** ** The length and the alphabet of the encoder's output *)

Lemma length_append (s1 s2 : string) :
  String.length (s1 +:+ s2) = (String.length s1 + String.length s2)%nat.
Proof.
  induction s1 as [|c s1 IH]; [by rewrite append_empty_l|].
  rewrite append_cons. simpl. by rewrite IH.
Qed.


Lemma Uint8Array_of_numbers_bytes (arrayBuffer : list Z) :
  Forall is_byte (Uint8Array_of_numbers arrayBuffer).
Proof.
  unfold Uint8Array_of_numbers. apply Forall_fmap, Forall_true.
  intros z. apply (ToUint8_byte (Num z)).
Qed.

Lemma encode_groups_length (bytes : list Z) :
  Forall is_byte bytes →
  String.length (encode_groups bytes) = (4 * ((length bytes + 2) / 3))%nat.
Proof.
  induction bytes as [| a | a b | a b c l IH] using list_ind3; intros Hb.
  - reflexivity.
  - inversion_clear Hb. change (encode_groups [a]) with (group1 a).
    rewrite group1_symbols by assumption. cbn [String.length]. reflexivity.
  - inversion_clear Hb as [|? ? ? Hb']. inversion_clear Hb'.
    change (encode_groups [a; b]) with (group2 a b).
    rewrite group2_symbols by assumption. cbn [String.length]. reflexivity.
  - inversion_clear Hb as [|? ? ? Hb1]. inversion_clear Hb1 as [|? ? ? Hb2].
    inversion_clear Hb2 as [|? ? ? Hb3].
    change (encode_groups (a :: b :: c :: l))
      with (group3 a b c +:+ encode_groups l).
    rewrite length_append, IH by assumption.
    rewrite group3_symbols by assumption. cbn [String.length].
    change (length (a :: b :: c :: l)) with (3 + length l)%nat.
    replace (3 + length l + 2)%nat with (1 * 3 + (length l + 2))%nat by lia.
    rewrite Nat.div_add_l by lia. lia.
Qed.


(** X12. The text [base64ArrayBuffer] returns has four characters for every
    three bytes of input, the last group being padded: its length is
    4 * ceil(n / 3) for an input of n elements. *)
Theorem base64ArrayBuffer_length (arrayBuffer : list Z) :
  String.length (base64ArrayBuffer arrayBuffer)
    = (4 * ((length arrayBuffer + 2) / 3))%nat.
Proof.
  rewrite base64ArrayBuffer_groups, encode_groups_length
    by apply Uint8Array_of_numbers_bytes.
  unfold Uint8Array_of_numbers. by rewrite length_fmap.
Qed.
(** ** Properties kept by every move *)

Section Moves.
Context `{Api : BleErrorApi}.

Lemma bind_keeps {A B} (c : M A) (k : A → M B) (m : Manager) :
  keeps c → ∃ a, bind c k m = k a (snd (c m)) ∧ mediation_kept m (snd (c m)).
Proof.
  intros Hc. destruct (Hc m) as [[a Ha] Hkept]. exists a. split; [|done].
  unfold bind. destruct (c m) as [[a'|e] m1]; simpl in *; congruence.
Qed.

Lemma later_trans (m1 m2 m3 : Manager) : later m1 m2 → later m2 m3 → later m1 m3.
Proof. intros H12 H23. induction H23; [done|by eapply later_move]. Qed.

Lemma reachable_attainable (m : Manager) : reachable m → attainable m.
Proof.
  induction 1 as [mapping|m m' _ IH Hstep]; [apply attainable_new|].
  eapply attainable_move; [exact IH|by apply move_step].
Qed.

Lemma attainable_later (m m' : Manager) : attainable m → later m m' → attainable m'.
Proof. intros Hm Hl. induction Hl; [done|by eapply attainable_move]. Qed.

(** The further operations that write have the shape of a plain write. *)
Lemma further_write (op : FurtherOperation) :
  writes op = true →
  ∃ d s c v w, ∀ transactionId,
    further op transactionId =
    bind (fill transactionId) (λ t,
    bind (BleModule (WriteCharacteristicForDevice d s c v w t))
      (λ _, _callPromise Awaited)).
Proof.
  destruct op as [c d|[|] d|c d|reading d|d s c v|d s c v]; simpl; intros Hw;
    try discriminate Hw.
  - exists d, trackerServiceUUID, trackerWriteCharacteristic,
      (base64ArrayBuffer (tracker_uint16 c)), true.
    intros t. by destruct c.
  - eexists d, _, _, _, _. intros t. apply resetAlternativeScale_hoisted.
  - exists d, bloodPressureServiceUUID, bloodPressureCharacteristicWriteUUID,
      (base64ArrayBuffer (fixed_payload c)), true.
    intros t. by destruct c.
  - by eexists d, _, _, _, _.
  - by eexists d, _, _, _, _.
  - by eexists d, _, _, _, _.
Qed.

Lemma faulting_operation_state (transactionId : option string) (m : Manager) {A}
    (k : string → value → M A) :
  snd (bind (fill transactionId) (λ t,
       bind (read_binding "measurementUnit" (in_own_initialiser BlockScoped)) (k t)) m)
  = snd (fill transactionId m).
Proof.
  unfold bind. destruct (fill transactionId m) as [[t|e] m1]; reflexivity.
Qed.

Section Maintained.
Variable P : Manager → Prop.
Hypothesis P_kept : ∀ m m', mediation_kept m m' → P m → P m'.
Hypothesis P_call : ∀ k m, P m → P (exec (_callPromise k) m).
Hypothesis P_settle : ∀ id s m, P m → P (settle id s m).
Hypothesis P_resume : ∀ id m, P m → P (resume id m).

Lemma maintained_keeps {A} (c : M A) : keeps c → maintains P c.
Proof. intros Hc m Hm. destruct (Hc m) as [_ Hkept]. by eapply P_kept. Qed.

Lemma maintained_bind_keeps {A B} (c : M A) (k : A → M B) :
  keeps c → (∀ a, maintains P (k a)) → maintains P (bind c k).
Proof.
  intros Hc Hk m Hm. destruct (bind_keeps c k m Hc) as (a & -> & Hkept).
  apply Hk. by eapply P_kept.
Qed.

Lemma maintained_write (d s c v : string) (w : bool) (transactionId : option string) :
  maintains P (bind (fill transactionId) (λ t,
               bind (BleModule (WriteCharacteristicForDevice d s c v w t))
                 (λ _, _callPromise Awaited))).
Proof.
  apply maintained_bind_keeps; [apply keeps_fill|intros t].
  apply maintained_bind_keeps; [apply keeps_BleModule|intros _].
  intros m. apply P_call.
Qed.

Lemma maintained_handleMonitorCharacteristic (transactionId : string)
    (listener : Listener) :
  maintains P (_handleMonitorCharacteristic transactionId listener).
Proof.
  unfold _handleMonitorCharacteristic.
  apply maintained_bind_keeps; [apply keeps_addListener|intros subscription].
  apply maintained_bind_keeps; [apply keeps_nextUniqueID|intros id].
  apply maintained_bind_keeps; [apply keeps_modify; solve_kept|intros _].
  intros m Hm. unfold bind.
  pose proof (P_call (MonitorThen (WrappedSubscription id subscription) listener) m Hm)
    as Hcall.
  unfold exec in Hcall.
  by destruct (_callPromise _ m) as [[p|e] m1].
Qed.

Lemma maintained_monitoring (op : MonitoringOperation) (listener : Listener)
    (transactionId : option string) :
  maintains P (monitoring op listener transactionId).
Proof.
  destruct op; simpl;
    (apply maintained_bind_keeps; [apply keeps_fill|intros filled];
     apply maintained_bind_keeps; [apply keeps_BleModule|intros _];
     apply maintained_handleMonitorCharacteristic).
Qed.

Lemma maintained_fill_only (transactionId : option string) {A} (c : M A) :
  (∀ m, snd (c m) = snd (fill transactionId m)) → maintains P c.
Proof.
  intros Hc m Hm. rewrite Hc.
  by apply (maintained_keeps _ (keeps_fill transactionId)).
Qed.

Lemma maintained_protocol (op : ProtocolOperation) (transactionId : option string) :
  maintains P (protocol op transactionId).
Proof.
  destruct op as [| |[|] d user| | | |]; simpl;
    rewrite ?selectProfileAlternativeScale_hoisted; try apply maintained_write.
  apply (maintained_fill_only transactionId). intros m.
  unfold selectProfileAlternativeScale. cbv zeta. apply faulting_operation_state.
Qed.

Lemma maintained_further (op : FurtherOperation) (transactionId : option string) :
  maintains P (further op transactionId).
Proof.
  destruct (writes op) eqn:Hw.
  - destruct (further_write op Hw) as (d & s & c & v & w & ->).
    apply maintained_write.
  - destruct op as [|[|] d| | | |]; try discriminate Hw. simpl.
    apply (maintained_fill_only transactionId). intros m.
    unfold resetAlternativeScale. cbv zeta. apply faulting_operation_state.
Qed.

Lemma maintained_destroyPromises : maintains P _destroyPromises.
Proof.
  intros m Hm. rewrite _destroyPromises_loop.
  generalize (destroyedError (_errorCodesToMessagesMapping m)). intros error.
  generalize (map_to_list (_activePromises m)).*1. intros l.
  revert m Hm. induction l as [|id l IH]; intros m Hm; [done|].
  simpl. unfold bind.
  destruct (reject_visit_normal error id m) as [u Hu].
  pose proof (reject_visit_state error id m) as Hs.
  destruct (reject_visit error id m) as [[u'|e] m1]; simpl in *; [|done].
  apply IH. rewrite Hs.
  destruct (_activePromises m !! id) as [[t]|]; [by apply P_settle|done].
Qed.

Lemma maintained_destroy : maintains P destroy.
Proof.
  intros m Hm. destruct (destroy_split m) as [-> Hkept].
  apply maintained_destroyPromises. by eapply P_kept.
Qed.

Lemma maintained_step (m m' : Manager) : step m m' → P m → P m'.
Proof.
  intros Hstep Hm. destruct Hstep.
  - by apply P_call.
  - by apply P_settle.
  - by apply P_resume.
  - by apply maintained_monitoring.
  - by apply maintained_protocol.
  - exact (maintained_keeps _ (keeps_remove s) m Hm).
  - unfold emit_ReadEvent, exec.
    refine (maintained_keeps _ _ m Hm).
    apply keeps_for_each. intros l. apply keeps_run_listener.
  - exact (maintained_keeps _ (keeps_cancelTransaction transactionId) m Hm).
  - by apply maintained_destroy.
Qed.

Lemma maintained_move (m m' : Manager) : move m m' → P m → P m'.
Proof.
  intros Hmove Hm. destruct Hmove as [m m' Hstep|m op t].
  - by apply (maintained_step m).
  - by apply maintained_further.
Qed.

Lemma maintained_later (m m' : Manager) : later m m' → P m → P m'.
Proof. intros Hl Hm. induction Hl; [done|]. eapply maintained_move; eauto. Qed.

Lemma maintained_run_jobs (m : Manager) : P m → P (run_jobs m).
Proof.
  unfold run_jobs. generalize (map_to_list (activations m)).*1. intros l.
  revert m. induction l as [|id l IH]; intros m Hm; [done|].
  simpl. apply IH. by apply P_resume.
Qed.

End Maintained.

End Moves.
Section Continuity.
Context `{Api : BleErrorApi}.

Lemma continues_refl (m : Manager) : continues m m.
Proof. split; [lia|]. split; [done|]. intros id a Ha. by exists a. Qed.

Lemma continues_trans (m1 m2 m3 : Manager) :
  continues m1 m2 → continues m2 m3 → continues m1 m3.
Proof.
  intros (Hu & Hm & Ha) (Hu' & Hm' & Ha'). split; [lia|]. split; [congruence|].
  intros id a Hid. destruct (Ha id a Hid) as (a2 & Hid2 & Hc2 & Hr2 & Ho2).
  destruct (Ha' id a2 Hid2) as (a3 & Hid3 & Hc3 & Hr3 & Ho3).
  exists a3. repeat split; [done|congruence|auto..].
Qed.

Lemma continues_kept (m m' : Manager) : mediation_kept m m' → continues m m'.
Proof.
  intros (Ha & _ & Hm & Hu). split; [done|]. split; [done|].
  intros id a Hid. exists a. rewrite Ha. by repeat split.
Qed.

Lemma continues_call (k : Continuation) (m : Manager) :
  registry_consistent m → continues m (exec (_callPromise k) m).
Proof.
  intros Hm. destruct (_callPromise_state k m) as (_ & Hu & _ & Ha).
  unfold exec. split; [lia|]. split; [done|].
  intros id a Hid. exists a. rewrite Ha.
  rewrite lookup_insert_ne; [by repeat split|].
  intros <-. by rewrite (_callPromise_fresh k m Hm) in Hid.
Qed.

Lemma continues_settle (t : string) (s : Settlement) (m : Manager) :
  continues m (settle t s m).
Proof.
  split; [done|]. split; [done|].
  intros id a Hid. rewrite settle_lookup, Hid.
  destruct (decide (t = id)) as [_|_]; [|by exists a].
  exists (settle_race s a). simpl. unfold settle_race.
  destruct (race a) eqn:Hr; simpl; repeat split; congruence.
Qed.

(** What [resume] does when the activation can run on. *)
Lemma resume_runs (id : string) (m : Manager) (a : Activation) (s : Settlement) :
  activations m !! id = Some a → race a = Some s → resumed a = None →
  let out := outcome_of s (_errorCodesToMessagesMapping m) in
  resume id m =
  exec (run_chained (chained a) out)
    (upd_activations <[id := resumed_with a out]> (upd_activePromises (delete id) m)).
Proof.
  intros Hid Hr Hres out. unfold out, resume, resumed_with.
  rewrite Hid, Hr, Hres. by destruct s.
Qed.

Lemma resume_waits (id : string) (m : Manager) :
  (∀ a s, activations m !! id = Some a → race a = Some s → is_Some (resumed a)) →
  resume id m = m.
Proof.
  intros H. unfold resume. destruct (activations m !! id) as [a|]; [|done].
  destruct (race a) as [s|] eqn:Hr; [|done].
  by destruct (H a s eq_refl Hr) as [o ->].
Qed.

Lemma continues_resume (id : string) (m : Manager) : continues m (resume id m).
Proof.
  destruct (activations m !! id) as [a|] eqn:Hid;
    [|rewrite resume_waits; [apply continues_refl|congruence]].
  destruct (race a) as [s|] eqn:Hr;
    [|rewrite resume_waits; [apply continues_refl|congruence]].
  destruct (resumed a) as [o|] eqn:Hres.
  { rewrite resume_waits; [apply continues_refl|]. intros a' s' Ha' _.
    assert (a' = a) as -> by congruence. by rewrite Hres. }
  rewrite (resume_runs id m a s Hid Hr Hres). cbv zeta.
  eapply continues_trans;
    [|apply continues_kept; unfold exec; apply keeps_run_chained].
  split; [done|]. split; [done|]. simpl.
  intros id' a' Hid'. destruct (decide (id = id')) as [<-|Hne].
  - rewrite lookup_insert_eq. eexists. split; [done|].
    assert (a' = a) as -> by congruence. simpl. by rewrite Hres.
  - rewrite lookup_insert_ne by done. by exists a'.
Qed.

(** Along every move the registry stays consistent and the state continues
    the one before. *)
Lemma later_continues (m m' : Manager) :
  registry_consistent m → later m m' → registry_consistent m' ∧ continues m m'.
Proof.
  intros Hm Hl.
  apply (maintained_later (λ m', registry_consistent m' ∧ continues m m')) with m;
    [| | | |done|by split; [|apply continues_refl]].
  - intros m1 m2 Hkept [H1 H2]. split; [by eapply registry_consistent_kept|].
    eapply continues_trans; [exact H2|by apply continues_kept].
  - intros k m1 [H1 H2]. split; [by apply preserves_callPromise|].
    eapply continues_trans; [exact H2|by apply continues_call].
  - intros id s m1 [H1 H2]. split; [by apply settle_consistent|].
    eapply continues_trans; [exact H2|apply continues_settle].
  - intros id m1 [H1 H2]. split; [by apply resume_consistent|].
    eapply continues_trans; [exact H2|apply continues_resume].
Qed.

Lemma run_jobs_continues (m : Manager) :
  registry_consistent m → registry_consistent (run_jobs m) ∧ continues m (run_jobs m).
Proof.
  intros Hm.
  apply (maintained_run_jobs (λ m', registry_consistent m' ∧ continues m m'));
    [|by split; [|apply continues_refl]].
  intros id m1 [H1 H2]. split; [by apply resume_consistent|].
  eapply continues_trans; [exact H2|apply continues_resume].
Qed.

(** *** The registry is backed by activations *)

Lemma registry_backed_kept (m m' : Manager) :
  mediation_kept m m' → registry_backed m → registry_backed m'.
Proof. intros (Ha & Hp & _) H id f. rewrite Ha, Hp. apply H. Qed.

Lemma registry_backed_call (k : Continuation) (m : Manager) :
  registry_backed m → registry_backed (exec (_callPromise k) m).
Proof.
  intros H id f. destruct (_callPromise_state k m) as (_ & _ & Hp & Ha).
  unfold exec. rewrite Hp, Ha.
  destruct (decide (pretty (S (_uniqueId m)) = id)) as [<-|Hne].
  - rewrite !lookup_insert_eq. intros [= <-]. split; [done|]. by eexists.
  - rewrite !lookup_insert_ne by done. apply H.
Qed.

Lemma registry_backed_settle (t : string) (s : Settlement) (m : Manager) :
  registry_backed m → registry_backed (settle t s m).
Proof.
  intros H id f Hf. destruct (H id f Hf) as (-> & a & Ha & Hres).
  split; [done|]. rewrite settle_lookup, Ha.
  destruct (decide (t = id)); [|by exists a].
  exists (settle_race s a). split; [done|].
  unfold settle_race. by destruct (race a).
Qed.

Lemma registry_backed_resume (id : string) (m : Manager) :
  registry_backed m → registry_backed (resume id m).
Proof.
  intros H.
  destruct (activations m !! id) as [a|] eqn:Hid;
    [|rewrite resume_waits; [done|congruence]].
  destruct (race a) as [s|] eqn:Hr;
    [|rewrite resume_waits; [done|congruence]].
  destruct (resumed a) as [o|] eqn:Hres.
  { rewrite resume_waits; [done|]. intros a' s' Ha' _.
    assert (a' = a) as -> by congruence. by rewrite Hres. }
  rewrite (resume_runs id m a s Hid Hr Hres). cbv zeta.
  eapply registry_backed_kept; [unfold exec; apply keeps_run_chained|].
  intros id' f. simpl. destruct (decide (id = id')) as [<-|Hne].
  - by rewrite lookup_delete_eq.
  - rewrite lookup_delete_ne, lookup_insert_ne by done. apply H.
Qed.

Lemma attainable_consistent (m : Manager) : attainable m → registry_consistent m.
Proof.
  induction 1 as [mapping|m m' _ IH Hmove]; [apply constructor_consistent|].
  revert IH. apply maintained_move; try done.
  - apply registry_consistent_kept.
  - intros k m1. apply preserves_callPromise.
  - apply settle_consistent.
  - apply resume_consistent.
Qed.

Lemma attainable_backed (m : Manager) : attainable m → registry_backed m.
Proof.
  induction 1 as [mapping|m m' _ IH Hmove]; [by intros id f|].
  revert IH. apply maintained_move; try done.
  - apply registry_backed_kept.
  - apply registry_backed_call.
  - apply registry_backed_settle.
  - apply registry_backed_resume.
Qed.

(** X13. The first settlement wins, for good: once the race of a mediated
    operation is settled, whether by its transport promise or by [destroy],
    nothing that happens later (another settlement, [destroy], further
    operations) changes how it is settled, and once the operation has
    returned or thrown, its outcome never changes. *)
Theorem settlement_is_final (m m' : Manager) :
  attainable m → later m m' →
  (∀ id a s, activations m !! id = Some a → race a = Some s →
             ∃ a', activations m' !! id = Some a' ∧ race a' = Some s) ∧
  (∀ id o, outcome m id = Some o → outcome m' id = Some o).
Proof.
  intros Hm Hl.
  destruct (later_continues m m' (attainable_consistent m Hm) Hl)
    as (_ & _ & _ & Hc).
  split.
  - intros id a s Hid Hr. destruct (Hc id a Hid) as (a' & Hid' & _ & Hr' & _).
    exists a'. auto.
  - intros id o. unfold outcome.
    destruct (activations m !! id) as [a|] eqn:Hid; [|done]. simpl. intros Ho.
    destruct (Hc id a Hid) as (a' & -> & _ & _ & Ho'). simpl. auto.
Qed.

(** X14. The path of one mediated operation. While its race is unsettled the
    activation cannot run on. When the transport promise settles and the
    activation runs on, a fulfilment is returned as it is and a rejection is
    thrown as [parseBleError(error.message, mapping)]; the reject function
    is deleted from the registry, and running on once more does nothing. *)
Theorem callPromise_completes (m : Manager) (id : string) (s : Settlement) :
  attainable m → pending m id →
  let m' := resume id (settle id s m) in
  resume id m = m ∧
  outcome m' id = Some (outcome_of s (_errorCodesToMessagesMapping m)) ∧
  _activePromises m' !! id = None ∧
  resume id m' = m'.
Proof.
  intros Hm (a & Hid & Hr) m'.
  destruct (attainable_consistent m Hm) as [H1 _].
  destruct (H1 id a Hid Hr) as [_ Hres].
  assert (Hid1 : activations (settle id s m) !! id
                 = Some {| race := Some s; resumed := None; chained := chained a |}).
  { rewrite settle_lookup, Hid. rewrite decide_True by done. simpl.
    rewrite settle_race_pending by done. by rewrite Hres. }
  pose proof (resume_runs id (settle id s m) _ s Hid1 eq_refl eq_refl) as Hrun.
  cbv zeta in Hrun. fold m' in Hrun.
  destruct (keeps_run_chained (chained a)
              (outcome_of s (_errorCodesToMessagesMapping m))
              (upd_activations
                 <[id := resumed_with
                           {| race := Some s; resumed := None; chained := chained a |}
                           (outcome_of s (_errorCodesToMessagesMapping m))]>
                 (upd_activePromises (delete id) (settle id s m))))
    as [_ (Ha' & Hp' & _)].
  simpl in Hrun. unfold exec in Hrun. rewrite <- Hrun in Ha', Hp'.
  simpl in Ha', Hp'.
  assert (Hout : activations m' !! id
                 = Some (resumed_with
                           {| race := Some s; resumed := None; chained := chained a |}
                           (outcome_of s (_errorCodesToMessagesMapping m))))
    by (by rewrite Ha', lookup_insert_eq).
  repeat split.
  - apply resume_waits. intros a' s' Ha0. congruence.
  - unfold outcome. by rewrite Hout.
  - by rewrite Hp', lookup_delete_eq.
  - apply resume_waits. intros a' s'. rewrite Hout. by intros [= <-] _.
Qed.

(** X15. Ids are never handed out twice: an id returned by [_nextUniqueID]
    differs from every id it returns at any later moment. *)
Theorem unique_ids_never_repeat (m m' : Manager) :
  later (exec _nextUniqueID m) m' →
  fst (_nextUniqueID m') ≠ fst (_nextUniqueID m).
Proof.
  intros Hl.
  assert (Hu : (S (_uniqueId m) ≤ _uniqueId m')%nat).
  { apply (maintained_later (λ m', (S (_uniqueId m) ≤ _uniqueId m')%nat))
      with (exec _nextUniqueID m); [| | | |done|done].
    - intros m1 m2 (_ & _ & _ & Hu). lia.
    - intros k m1. destruct (_callPromise_state k m1) as (_ & Hu & _).
      unfold exec. lia.
    - done.
    - intros id m1 H1. destruct (continues_resume id m1) as [Hu _]. lia. }
  simpl. intros [= Heq]. apply (inj pretty) in Heq. lia.
Qed.

End Continuity.
Section Teardown_properties.
Context `{Api : BleErrorApi}.

(** *** What [destroy] does to the activations *)

Lemma destroyPromises_changes_activations (m : Manager) :
  ∃ f, snd (_destroyPromises m) = upd_activations f m.
Proof.
  rewrite _destroyPromises_loop.
  generalize (destroyedError (_errorCodesToMessagesMapping m)). intros error.
  generalize (map_to_list (_activePromises m)).*1. intros l.
  rewrite for_each_fold by apply reject_visit_normal.
  revert m. induction l as [|id l IH]; intros m; [exists id; by destruct m|].
  simpl. rewrite reject_visit_state.
  destruct (_activePromises m !! id) as [[t]|]; [|apply IH].
  destruct (IH (settle t (Rejected (ThrownBleError error)) m)) as [f ->].
  by eexists (λ a, f (alter _ t a)).
Qed.

Lemma destroyPromises_activation (m : Manager) (id : string) (a' : Activation) :
  activations (snd (_destroyPromises m)) !! id = Some a' →
  ∃ a, activations m !! id = Some a ∧
       (a' = a ∨
        a' = settle_race
               (Rejected (ThrownBleError
                            (destroyedError (_errorCodesToMessagesMapping m)))) a).
Proof.
  rewrite _destroyPromises_loop.
  generalize (destroyedError (_errorCodesToMessagesMapping m)). intros error.
  generalize (map_to_list (_activePromises m)).*1. intros l.
  rewrite for_each_fold by apply reject_visit_normal.
  revert m. induction l as [|t l IH]; intros m; [intros Hid; exists a'; auto|].
  simpl. rewrite reject_visit_state. intros Hid.
  destruct (IH _ Hid) as (a1 & Hid1 & Ha1).
  destruct (_activePromises m !! t) as [[t']|]; [|by exists a1].
  rewrite settle_lookup in Hid1.
  destruct (decide (t' = id)) as [->|_]; [|by exists a1].
  destruct (activations m !! id) as [a|]; [|done]. simpl in Hid1.
  exists a. split; [done|]. right.
  destruct Ha1 as [->| ->]; [congruence|].
  assert (a1 = settle_race (Rejected (ThrownBleError error)) a) as -> by congruence.
  apply settle_race_idem.
Qed.

Lemma destroy_activation (m : Manager) (id : string) (a' : Activation) :
  activations (exec destroy m) !! id = Some a' →
  ∃ a, activations m !! id = Some a ∧
       (a' = a ∨
        a' = settle_race
               (Rejected (ThrownBleError
                            (destroyedError (_errorCodesToMessagesMapping m)))) a).
Proof.
  unfold exec. destruct (destroy_split m) as [-> (Ha & _ & Hm & _)].
  intros Hid. apply destroyPromises_activation in Hid.
  by rewrite Hm, Ha in Hid.
Qed.

(** X16. [destroy] does not override an operation whose transport promise
    settled first: if the race of an operation is settled and the operation
    has not run on yet when the manager is destroyed, it completes with its
    own result (the value, or [parseBleError] of its own error), not with
    the destroyed-manager error. *)
Theorem destroy_spares_settled (m : Manager) (id : string) (a : Activation)
    (s : Settlement) :
  attainable m →
  activations m !! id = Some a → race a = Some s → resumed a = None →
  outcome (run_jobs (exec destroy m)) id
    = Some (outcome_of s (_errorCodesToMessagesMapping m)).
Proof.
  intros Hm Hid Hr Hres.
  pose proof (attainable_consistent m Hm) as Hcons.
  destruct (later_continues m (exec destroy m) Hcons) as (_ & _ & Hmap & Hc).
  { eapply later_move; [apply later_now|]. apply move_step, step_destroy. }
  destruct (Hc id a Hid) as (a' & Hid' & _ & _).
  destruct (destroy_activation m id a' Hid') as (a0 & Hid0 & Ha').
  assert (a0 = a) as -> by congruence.
  assert (a' = a) as ->.
  { destruct Ha' as [->| ->]; [done|]. apply settle_race_settled. by rewrite Hr. }
  unfold outcome.
  rewrite (run_jobs_resumes _ id a s Hid' Hr Hres). simpl. by rewrite Hmap.
Qed.

(** X17. After [destroy], once the pending activations have run on, every
    operation ever started has completed (returned or thrown) and the
    registry of reject functions is empty. *)
Theorem destroy_completes_everything (m : Manager) :
  attainable m →
  let m' := run_jobs (exec destroy m) in
  _activePromises m' = ∅ ∧
  (∀ id, is_Some (activations m' !! id) → is_Some (outcome m' id)) ∧
  (∀ id, is_Some (activations m !! id) → is_Some (outcome m' id)).
Proof.
  intros Hm m'.
  pose proof (attainable_consistent m Hm) as Hcons.
  assert (Hd : attainable (exec destroy m)).
  { eapply attainable_move; [exact Hm|]. apply move_step, step_destroy. }
  pose proof (attainable_consistent _ Hd) as Hconsd.
  destruct (later_continues m (exec destroy m) Hcons) as (_ & _ & _ & Hc).
  { eapply later_move; [apply later_now|]. apply move_step, step_destroy. }
  destruct (run_jobs_continues _ Hconsd) as (_ & _ & _ & Hcj). fold m' in Hcj.
  (* every activation is settled after [destroy] *)
  assert (Hsettled : ∀ id a, activations (exec destroy m) !! id = Some a →
                             is_Some (race a)).
  { intros id a' Hid'. destruct (destroy_activation m id a' Hid') as (a & Hid & Ha').
    destruct (race a) as [s|] eqn:Hr.
    - destruct Ha' as [->| ->]; [by rewrite Hr|].
      rewrite settle_race_settled; by rewrite Hr.
    - destruct (destroy_rejects_pending m id a Hcons Hid Hr) as [Hrej _].
      rewrite Hrej in Hid'. by injection Hid' as <-. }
  (* hence every activation has an outcome once the jobs have run *)
  assert (Hdone : ∀ id a, activations (exec destroy m) !! id = Some a →
                          is_Some (outcome m' id)).
  { intros id a Hid. destruct (Hsettled id a Hid) as [s Hr].
    destruct (resumed a) as [o|] eqn:Hres.
    - destruct (Hcj id a Hid) as (a' & Hid' & _ & _ & Ho).
      unfold outcome. rewrite Hid'. simpl. rewrite (Ho o Hres). by eexists.
    - unfold outcome, m'. rewrite (run_jobs_resumes _ id a s Hid Hr Hres).
      by eexists. }
  (* the jobs add no activation *)
  assert (Hids : ∀ id, is_Some (activations m' !! id) →
                       is_Some (activations (exec destroy m) !! id)).
  { intros id. unfold m', run_jobs.
    generalize (map_to_list (activations (exec destroy m))).*1. intros l.
    generalize (exec destroy m). intros m0. revert m0.
    induction l as [|t l IH]; intros m0; [done|]. simpl. intros Hid.
    apply IH in Hid. rewrite resume_lookup in Hid.
    destruct (activations m0 !! t) as [a|] eqn:Ht; [|done].
    destruct (race a), (resumed a); try done.
    destruct (decide (t = id)) as [<-|]; [by rewrite Ht|done]. }
  split; [|split].
  - apply map_empty. intros id.
    destruct (_activePromises m' !! id) as [f|] eqn:Hf; [|done].
    assert (Hb : registry_backed m').
    { apply maintained_run_jobs; [apply registry_backed_resume|].
      by apply attainable_backed. }
    destruct (Hb id f Hf) as (_ & a & Hid & Hres).
    destruct (Hids id (mk_is_Some _ _ Hid)) as [a0 Hid0].
    destruct (Hdone id a0 Hid0) as [o Ho].
    unfold outcome in Ho. rewrite Hid in Ho. simpl in Ho. congruence.
  - intros id Hid. destruct (Hids id Hid) as [a0 Hid0]. by eapply Hdone.
  - intros id [a Hid]. destruct (Hc id a Hid) as (a' & Hid' & _). by eapply Hdone.
Qed.

End Teardown_properties.
Section Subscriptions.
Context `{Api : BleErrorApi}.

(** *** Methods that maintain a property *)

Lemma maintains_ret (P : Manager → Prop) {A} (a : A) : maintains P (ret a).
Proof. by intros m. Qed.

Lemma maintains_read (P : Manager → Prop) {A} (f : Manager → A) : maintains P (read f).
Proof. by intros m. Qed.

Lemma maintains_bind (P : Manager → Prop) {A B} (c : M A) (k : A → M B) :
  maintains P c → (∀ a, maintains P (k a)) → maintains P (bind c k).
Proof.
  intros Hc Hk m Hm. unfold bind. specialize (Hc m Hm).
  destruct (c m) as [[a|e] m1]; simpl in *; [by apply Hk|done].
Qed.

Lemma maintains_modify (P : Manager → Prop) (f : Manager → Manager) :
  (∀ m, P m → P (f m)) → maintains P (modify f).
Proof. intros Hf m. apply Hf. Qed.

Lemma maintains_for_each (P : Manager → Prop) {A} (l : list A) (body : A → M unit) :
  (∀ x, maintains P (body x)) → maintains P (for_each l body).
Proof.
  intros Hbody. induction l as [|x l IH]; simpl; [apply maintains_ret|].
  apply maintains_bind; [apply Hbody|by intros _].
Qed.

(** *** Tracked subscriptions *)

Lemma owned_same (m m' : Manager) :
  _scanEventSubscription m' = _scanEventSubscription m →
  _activeSubscriptions m' = _activeSubscriptions m →
  subscriptions_owned m → subscriptions_owned m'.
Proof. intros Hs Ha [H1 H2]. split; [congruence|]. by rewrite Ha. Qed.

Ltac solve_owned :=
  let m := fresh "m" in
  intros m; apply owned_same; reflexivity.

Lemma owned_BleModule (c : BleModuleCall) : maintains subscriptions_owned (BleModule c).
Proof. apply maintains_modify. solve_owned. Qed.

Lemma owned_invoke (listener : Listener) error characteristic :
  maintains subscriptions_owned (invoke listener error characteristic).
Proof. apply maintains_modify. solve_owned. Qed.

Lemma owned_nextUniqueID : maintains subscriptions_owned _nextUniqueID.
Proof.
  unfold _nextUniqueID. apply maintains_bind; [|intros _; apply maintains_bind].
  - apply maintains_modify. solve_owned.
  - apply maintains_read.
  - intros n. apply maintains_ret.
Qed.

Lemma owned_fill (transactionId : option string) :
  maintains subscriptions_owned (fill transactionId).
Proof.
  unfold fill.
  destruct (truthy transactionId); [apply maintains_ret|apply owned_nextUniqueID].
Qed.

Lemma owned_delete (sid : string) (m : Manager) :
  subscriptions_owned m →
  subscriptions_owned (upd_activeSubscriptions (delete sid) m).
Proof.
  intros [H1 H2]. split; [done|]. simpl. intros id s Hid.
  apply lookup_delete_Some in Hid as [_ Hid]. by apply H2.
Qed.

Lemma owned_remove (s : Subscription) : maintains subscriptions_owned (remove s).
Proof.
  induction s as [h|sid s IH|t]; simpl.
  - apply maintains_modify. solve_owned.
  - apply maintains_bind; [apply maintains_read|].
    intros active. destruct (active !! sid); [|apply maintains_ret].
    apply maintains_bind; [|by intros _].
    apply maintains_modify. apply owned_delete.
  - apply owned_BleModule.
Qed.

Lemma owned_callPromise (k : Continuation) :
  maintains subscriptions_owned (_callPromise k).
Proof. intros m. by apply owned_same. Qed.

Lemma owned_settle (t : string) (s : Settlement) (m : Manager) :
  subscriptions_owned m → subscriptions_owned (settle t s m).
Proof. by apply owned_same. Qed.

Lemma owned_run_chained (k : Continuation) (out : Native + BleError) :
  maintains subscriptions_owned (run_chained k out).
Proof.
  destruct k as [|wrapped listener], out; simpl;
    try apply maintains_ret; try apply owned_remove.
  apply maintains_bind; [apply owned_invoke|intros _; apply owned_remove].
Qed.

Lemma owned_resume (id : string) (m : Manager) :
  subscriptions_owned m → subscriptions_owned (resume id m).
Proof.
  intros H.
  destruct (activations m !! id) as [a|] eqn:Hid;
    [|rewrite resume_waits; [done|congruence]].
  destruct (race a) as [s|] eqn:Hr;
    [|rewrite resume_waits; [done|congruence]].
  destruct (resumed a) as [o|] eqn:Hres.
  { rewrite resume_waits; [done|]. intros a' s' Ha' _.
    assert (a' = a) as -> by congruence. by rewrite Hres. }
  rewrite (resume_runs id m a s Hid Hr Hres). cbv zeta.
  apply owned_run_chained. revert H. by apply owned_same.
Qed.

Lemma owned_run_listener (l : EmitterListener) event :
  maintains subscriptions_owned (run_listener l event).
Proof.
  destruct l as [t listener], event as [[error characteristic] msg]. simpl.
  destruct (negb _); [apply maintains_ret|].
  destruct (truthy error); [|apply owned_invoke].
  apply maintains_bind; [apply maintains_read|intros mapping; apply owned_invoke].
Qed.

(** What [_handleMonitorCharacteristic] does to the manager. *)
Lemma _handleMonitorCharacteristic_state (transactionId : string) (listener : Listener)
    (m : Manager) :
  let handle := emitter_next m in
  let sid := pretty (S (_uniqueId m)) in
  let id := pretty (S (S (_uniqueId m))) in
  let wrapped := WrappedSubscription sid (EmitterSubscription handle) in
  _handleMonitorCharacteristic transactionId listener m =
  (Normal (MonitorSubscription transactionId),
   {| _uniqueId := S (S (_uniqueId m));
      _activePromises := <[id := RejectDestroyPromise id]> (_activePromises m);
      _activeSubscriptions := <[sid := wrapped]> (_activeSubscriptions m);
      _scanEventSubscription := _scanEventSubscription m;
      _errorCodesToMessagesMapping := _errorCodesToMessagesMapping m;
      activations :=
        <[id := {| race := None; resumed := None;
                   chained := MonitorThen wrapped listener |}]> (activations m);
      emitter := <[handle := MonitorListener transactionId listener]> (emitter m);
      emitter_next := S handle;
      calls := calls m; heard := heard m |}).
Proof. reflexivity. Qed.

Lemma owned_handleMonitorCharacteristic (transactionId : string) (listener : Listener) :
  maintains subscriptions_owned (_handleMonitorCharacteristic transactionId listener).
Proof.
  intros m [H1 H2]. rewrite _handleMonitorCharacteristic_state. split; [done|].
  simpl. intros id s.
  destruct (decide (pretty (S (_uniqueId m)) = id)) as [<-|Hne].
  - rewrite lookup_insert_eq. intros [= <-]. by eexists.
  - rewrite lookup_insert_ne by done. apply H2.
Qed.

Lemma owned_monitoring (op : MonitoringOperation) (listener : Listener)
    (transactionId : option string) :
  maintains subscriptions_owned (monitoring op listener transactionId).
Proof.
  destruct op; simpl;
    (apply maintains_bind; [apply owned_fill|intros filled];
     apply maintains_bind; [apply owned_BleModule|intros _];
     apply owned_handleMonitorCharacteristic).
Qed.

Lemma owned_write (d s c v : string) (w : bool) (transactionId : option string) :
  maintains subscriptions_owned
    (bind (fill transactionId) (λ t,
     bind (BleModule (WriteCharacteristicForDevice d s c v w t))
       (λ _, _callPromise Awaited))).
Proof.
  apply maintains_bind; [apply owned_fill|intros t].
  apply maintains_bind; [apply owned_BleModule|intros _].
  apply owned_callPromise.
Qed.

Lemma owned_protocol (op : ProtocolOperation) (transactionId : option string) :
  maintains subscriptions_owned (protocol op transactionId).
Proof.
  destruct op as [| |[|] d user| | | |]; simpl;
    rewrite ?selectProfileAlternativeScale_hoisted; try apply owned_write.
  intros m Hm. unfold selectProfileAlternativeScale. cbv zeta.
  rewrite faulting_operation_state. by apply owned_fill.
Qed.

Lemma owned_further (op : FurtherOperation) (transactionId : option string) :
  maintains subscriptions_owned (further op transactionId).
Proof.
  destruct (writes op) eqn:Hw.
  - destruct (further_write op Hw) as (d & s & c & v & w & ->). apply owned_write.
  - destruct op as [|[|] d| | | |]; try discriminate Hw. simpl.
    intros m Hm. unfold resetAlternativeScale. cbv zeta.
    rewrite faulting_operation_state. by apply owned_fill.
Qed.

Lemma _destroySubscriptions_loop (m : Manager) :
  _destroySubscriptions m =
  for_each (map_to_list (_activeSubscriptions m)).*1 remove_visit m.
Proof. reflexivity. Qed.

Lemma owned_remove_visit (sid : string) : maintains subscriptions_owned (remove_visit sid).
Proof.
  unfold remove_visit. apply maintains_bind; [apply maintains_read|].
  intros current. destruct (current !! sid); [apply owned_remove|apply maintains_ret].
Qed.

Lemma owned_destroyPromises : maintains subscriptions_owned _destroyPromises.
Proof.
  intros m. destruct (destroyPromises_changes_activations m) as [f ->].
  by apply owned_same.
Qed.

Lemma owned_destroy : maintains subscriptions_owned destroy.
Proof.
  unfold destroy.
  apply maintains_bind; [apply owned_BleModule|intros _].
  apply maintains_bind; [apply maintains_read|intros scan].
  apply maintains_bind; [|intros _; apply maintains_bind].
  - destruct scan; [|apply maintains_ret].
    apply maintains_bind; [apply owned_remove|intros _].
    apply maintains_modify. intros m [_ H2]. by split.
  - intros m. rewrite _destroySubscriptions_loop.
    apply maintains_for_each. apply owned_remove_visit.
  - intros _. apply owned_destroyPromises.
Qed.

Lemma owned_move (m m' : Manager) :
  move m m' → subscriptions_owned m → subscriptions_owned m'.
Proof.
  intros Hmove Hm. destruct Hmove as [m m' Hstep|m op t].
  - destruct Hstep.
    + by apply owned_callPromise.
    + by apply owned_settle.
    + by apply owned_resume.
    + by apply owned_monitoring.
    + by apply owned_protocol.
    + by apply owned_remove.
    + unfold emit_ReadEvent, exec. revert Hm.
      apply maintains_for_each. intros l. apply owned_run_listener.
    + by apply owned_BleModule.
    + by apply owned_destroy.
  - by apply owned_further.
Qed.

Lemma attainable_owned (m : Manager) : attainable m → subscriptions_owned m.
Proof.
  induction 1 as [mapping|m m' _ IH Hmove]; [by split|].
  by eapply owned_move.
Qed.

End Subscriptions.
Section Subscription_properties.
Context `{Api : BleErrorApi}.

Lemma remove_wrapped_present (sid : string) (handle : nat) (m : Manager) :
  is_Some (_activeSubscriptions m !! sid) →
  remove (WrappedSubscription sid (EmitterSubscription handle)) m =
  (Normal tt,
   upd_emitter (delete handle) id (upd_activeSubscriptions (delete sid) m)).
Proof. intros [s Hs]. simpl. unfold bind, read. by rewrite Hs. Qed.

Lemma remove_wrapped_absent (sid : string) (s : Subscription) (m : Manager) :
  _activeSubscriptions m !! sid = None →
  remove (WrappedSubscription sid s) m = (Normal tt, m).
Proof. intros Hs. simpl. unfold bind, read. by rewrite Hs. Qed.

(** One visit of the loop of [_destroySubscriptions], on tracked
    subscriptions that are owned. *)
Lemma remove_visit_state (sid : string) (m : Manager) :
  subscriptions_owned m →
  (∃ u, fst (remove_visit sid m) = Normal u) ∧
  calls (snd (remove_visit sid m)) = calls m ∧
  (∀ k, _activeSubscriptions (snd (remove_visit sid m)) !! k
        = if decide (k = sid) then None else _activeSubscriptions m !! k) ∧
  (∀ handle,
     _activeSubscriptions m !! sid
       = Some (WrappedSubscription sid (EmitterSubscription handle)) →
     emitter (snd (remove_visit sid m)) !! handle = None) ∧
  (∀ handle, emitter m !! handle = None →
             emitter (snd (remove_visit sid m)) !! handle = None).
Proof.
  intros [_ H2]. unfold remove_visit, bind, read. simpl.
  destruct (_activeSubscriptions m !! sid) as [s|] eqn:Hs.
  - destruct (H2 sid s Hs) as [h ->].
    rewrite remove_wrapped_present by (by rewrite Hs). simpl.
    repeat split.
    + by eexists.
    + intros k. destruct (decide (k = sid)) as [->|Hne].
      * by rewrite lookup_delete_eq.
      * by rewrite lookup_delete_ne.
    + intros handle [= <-]. by rewrite lookup_delete_eq.
    + intros handle Hh. destruct (decide (h = handle)) as [->|Hne].
      * by rewrite lookup_delete_eq.
      * by rewrite lookup_delete_ne.
  - simpl. repeat split; [by eexists| |done|done].
    intros k. by destruct (decide (k = sid)) as [->|Hne].
Qed.

Lemma destroySubscriptions_loop_state (l : list string) :
  ∀ m, subscriptions_owned m →
    let m' := snd (for_each l remove_visit m) in
    subscriptions_owned m' ∧
    calls m' = calls m ∧
    (∀ k, _activeSubscriptions m' !! k
          = if decide (k ∈ l) then None else _activeSubscriptions m !! k) ∧
    (∀ k handle,
       k ∈ l →
       _activeSubscriptions m !! k
         = Some (WrappedSubscription k (EmitterSubscription handle)) →
       emitter m' !! handle = None) ∧
    (∀ handle, emitter m !! handle = None → emitter m' !! handle = None).
Proof.
  induction l as [|sid l IH]; intros m Hm.
  - simpl. split; [done|]. split; [done|].
    split; [done|]. split; [|done].
    intros k handle Hk. by apply elem_of_nil in Hk.
  - simpl. unfold bind.
    destruct (remove_visit_state sid m Hm) as ([u Hu] & Hc & Hs & Hh & He).
    pose proof (owned_remove_visit sid m Hm) as Hm1.
    destruct (remove_visit sid m) as [[u'|e] m1]; simpl in *; [|done].
    destruct (IH m1 Hm1) as (Ho' & Hc' & Hs' & Hh' & He').
    split; [done|]. split; [congruence|]. split; [|split].
    + intros k. rewrite Hs'. destruct (decide (k ∈ l)) as [Hin|Hnin].
      * rewrite decide_True; [done|]. apply elem_of_cons. by right.
      * rewrite Hs. destruct (decide (k = sid)) as [->|Hne].
        -- rewrite decide_True; [done|]. apply elem_of_cons. by left.
        -- rewrite decide_False; [done|]. intros Hin.
           apply elem_of_cons in Hin as [?|?]; done.
    + intros k handle Hk Hkh. destruct (decide (k = sid)) as [->|Hne].
      * apply He', Hh, Hkh.
      * apply elem_of_cons in Hk as [?|Hk]; [done|].
        apply (Hh' k handle Hk). rewrite Hs. by rewrite decide_False.
    + intros handle Hh0. by apply He', He.
Qed.

(** X18. [destroy] releases every tracked subscription: afterwards no
    subscription is tracked, the listener of every subscription that was
    tracked has been removed from the event emitter, and the native module
    has been called once, with [destroyClient]. *)
Theorem destroy_releases_subscriptions (m : Manager) :
  attainable m →
  let m' := exec destroy m in
  _activeSubscriptions m' = ∅ ∧
  (∀ id s, _activeSubscriptions m !! id = Some s →
           ∃ handle, s = WrappedSubscription id (EmitterSubscription handle) ∧
                     emitter m' !! handle = None) ∧
  calls m' = calls m ++ [DestroyClient].
Proof.
  intros Hm m'. destruct (attainable_owned m Hm) as [Hscan Hown].
  assert (Hd : m' = snd (_destroyPromises
                      (snd (for_each
                         (map_to_list
                            (_activeSubscriptions
                               (upd_calls (λ l, l ++ [DestroyClient]) m))).*1
                         remove_visit (upd_calls (λ l, l ++ [DestroyClient]) m))))).
  { unfold m', exec, destroy, bind. simpl. rewrite Hscan. simpl.
    pose proof (keeps_destroySubscriptions
                  (upd_calls (λ l, l ++ [DestroyClient]) m)) as [[u Hu] _].
    rewrite _destroySubscriptions_loop in Hu |- *.
    destruct (for_each _ remove_visit _) as [[u'|e] m2']; simpl in *; done. }
  set (m1 := upd_calls (λ l, l ++ [DestroyClient]) m) in *.
  assert (Hm1 : subscriptions_owned m1) by (by split).
  set (l := (map_to_list (_activeSubscriptions m1)).*1) in *.
  set (m2 := snd (for_each l remove_visit m1)) in *.
  destruct (destroyPromises_changes_activations m2) as [f Hf].
  rewrite Hf in Hd.
  destruct (destroySubscriptions_loop_state l m1 Hm1) as (_ & Hc & Hs & Hh & _).
  fold m2 in Hc, Hs, Hh.
  assert (Hin : ∀ k s, _activeSubscriptions m !! k = Some s → k ∈ l).
  { intros k s Hk. unfold l. apply list_elem_of_fmap. exists (k, s).
    split; [done|]. by apply elem_of_map_to_list. }
  rewrite Hd. simpl. repeat split.
  - apply map_empty. intros k. rewrite Hs.
    destruct (decide (k ∈ l)) as [_|Hnin]; [done|]. simpl.
    destruct (_activeSubscriptions m !! k) as [s|] eqn:Hk; [|done].
    destruct Hnin. by eapply Hin.
  - intros id s Hid. destruct (Hown id s Hid) as [handle ->].
    exists handle. split; [done|]. apply (Hh id handle); [by eapply Hin|done].
  - by rewrite Hc.
Qed.

(** The activation of a monitor runs on. *)
Lemma resume_monitor (id sid : string) (handle : nat) (listener : Listener)
    (s : Settlement) (a : Activation) (m : Manager) :
  activations m !! id = Some a → race a = Some s → resumed a = None →
  chained a = MonitorThen (WrappedSubscription sid (EmitterSubscription handle)) listener →
  is_Some (_activeSubscriptions m !! sid) →
  let m' := resume id m in
  _activeSubscriptions m' = delete sid (_activeSubscriptions m) ∧
  emitter m' = delete handle (emitter m) ∧
  heard m' = heard m ++
    match s with
    | Fulfilled _ => []
    | Rejected error =>
        [ {| callee := listener;
             call_error := Some (parseBleError (message_of error)
                                   (_errorCodesToMessagesMapping m));
             call_characteristic := None |} ]
    end ∧
  calls m' = calls m.
Proof.
  intros Hid Hr Hres Hk Hsid m'. unfold m'.
  rewrite (resume_runs id m a s Hid Hr Hres). cbv zeta. rewrite Hk.
  unfold exec, run_chained, outcome_of.
  destruct s as [v|error].
  - rewrite remove_wrapped_present by done. simpl. by rewrite app_nil_r.
  - unfold bind, invoke, modify.
    rewrite remove_wrapped_present by done. by simpl.
Qed.

(** X19. The monitor path of [_handleMonitorCharacteristic]: it registers
    the listener on the event emitter, tracks a wrapped subscription under a
    new id and awaits the monitor promise. When that promise settles and the
    activation runs on, the wrapped subscription is no longer tracked and
    the listener is off the emitter; on a rejection the caller's listener is
    first called once with the parsed error and no characteristic, on a
    fulfilment it is not called. *)
Theorem monitor_settlement_unsubscribes (transactionId : string) (listener : Listener)
    (s : Settlement) (m : Manager) :
  let m1 := exec (_handleMonitorCharacteristic transactionId listener) m in
  let handle := emitter_next m in
  let sid := pretty (S (_uniqueId m)) in
  let id := pretty (S (S (_uniqueId m))) in
  let m2 := resume id (settle id s m1) in
  emitter m1 !! handle = Some (MonitorListener transactionId listener) ∧
  _activeSubscriptions m1 !! sid
    = Some (WrappedSubscription sid (EmitterSubscription handle)) ∧
  pending m1 id ∧
  _activeSubscriptions m2 !! sid = None ∧
  emitter m2 !! handle = None ∧
  heard m2 = heard m ++
    match s with
    | Fulfilled _ => []
    | Rejected error =>
        [ {| callee := listener;
             call_error := Some (parseBleError (message_of error)
                                   (_errorCodesToMessagesMapping m));
             call_characteristic := None |} ]
    end ∧
  calls m2 = calls m.
Proof.
  intros m1 handle sid id m2.
  assert (H1 : emitter m1 !! handle = Some (MonitorListener transactionId listener)).
  { unfold m1, exec. rewrite _handleMonitorCharacteristic_state. simpl.
    by rewrite lookup_insert_eq. }
  assert (H2 : _activeSubscriptions m1 !! sid
               = Some (WrappedSubscription sid (EmitterSubscription handle))).
  { unfold m1, exec. rewrite _handleMonitorCharacteristic_state. simpl.
    by rewrite lookup_insert_eq. }
  assert (H3 : activations m1 !! id
               = Some {| race := None; resumed := None;
                         chained := MonitorThen
                           (WrappedSubscription sid (EmitterSubscription handle))
                           listener |}).
  { unfold m1, exec. rewrite _handleMonitorCharacteristic_state. simpl.
    by rewrite lookup_insert_eq. }
  assert (H4 : heard m1 = heard m ∧ calls m1 = calls m ∧
               _errorCodesToMessagesMapping m1 = _errorCodesToMessagesMapping m).
  { unfold m1, exec. by rewrite _handleMonitorCharacteristic_state. }
  destruct H4 as (Hh & Hc & Hmap).
  split; [done|]. split; [done|]. split; [by eexists|].
  destruct (resume_monitor id sid handle listener s
              {| race := Some s; resumed := None;
                 chained := MonitorThen
                   (WrappedSubscription sid (EmitterSubscription handle)) listener |}
              (settle id s m1)) as (Hs' & He' & Hh' & Hc'); try done.
  { rewrite settle_lookup, H3. by rewrite decide_True. }
  fold m2 in Hs', He', Hh', Hc'.
  change (_activeSubscriptions (settle id s m1)) with (_activeSubscriptions m1) in Hs'.
  change (emitter (settle id s m1)) with (emitter m1) in He'.
  change (heard (settle id s m1)) with (heard m1) in Hh'.
  change (_errorCodesToMessagesMapping (settle id s m1))
    with (_errorCodesToMessagesMapping m1) in Hh'.
  change (calls (settle id s m1)) with (calls m1) in Hc'.
  rewrite Hs', He', Hh', Hc', Hh, Hc, Hmap.
  by rewrite !lookup_delete_eq.
Qed.

End Subscription_properties.
Section Delivery.
Context `{Api : BleErrorApi}.

Lemma run_listener_state (l : EmitterListener) (event : option string * Native * string)
    (m : Manager) :
  let m' := snd (run_listener l event m) in
  (∃ u, fst (run_listener l event m) = Normal u) ∧
  heard m' = heard m ++
    match delivery (_errorCodesToMessagesMapping m) event l with
    | Some call => [call]
    | None => []
    end ∧
  _errorCodesToMessagesMapping m' = _errorCodesToMessagesMapping m ∧
  emitter m' = emitter m ∧
  _activeSubscriptions m' = _activeSubscriptions m ∧
  calls m' = calls m.
Proof.
  destruct l as [t listener], event as [[error characteristic] tag]. simpl.
  destruct (String.eqb t tag); simpl.
  - destruct (truthy error); simpl; repeat split; by eexists.
  - rewrite app_nil_r. repeat split. by eexists.
Qed.

Lemma deliver_all (event : option string * Native * string) (l : list EmitterListener) :
  ∀ m,
    let m' := snd (for_each l (λ x, run_listener x event) m) in
    heard m' = heard m ++ omap (delivery (_errorCodesToMessagesMapping m) event) l ∧
    _errorCodesToMessagesMapping m' = _errorCodesToMessagesMapping m ∧
    emitter m' = emitter m ∧
    _activeSubscriptions m' = _activeSubscriptions m ∧
    calls m' = calls m.
Proof.
  induction l as [|x l IH]; intros m.
  - simpl. by rewrite app_nil_r.
  - simpl. unfold bind.
    destruct (run_listener_state x event m) as ([u Hu] & Hh & Hm & He & Hs & Hc).
    destruct (run_listener x event m) as [[u'|e] m1]; simpl in *; [|done].
    destruct (IH m1) as (Hh' & Hm' & He' & Hs' & Hc').
    rewrite Hh', Hm', He', Hs', Hc', Hh, Hm.
    repeat split; try done.
    destruct (delivery _ event x); simpl; by rewrite <- app_assoc.
Qed.


(** X21. A further operation that writes returns the id of a new activation
    of [_callPromise]: the id has not been used by an operation before, the
    operation is pending under it with its reject function in the registry,
    and no other activation is touched. *)
Theorem operation_returns_fresh_pending (op : FurtherOperation)
    (transactionId : option string) (m : Manager) :
  attainable m → writes op = true →
  let id := awaited transactionId m in
  let m' := exec (further op transactionId) m in
  fst (further op transactionId m) = Normal id ∧
  activations m !! id = None ∧
  pending m' id ∧
  _activePromises m' !! id = Some (RejectDestroyPromise id) ∧
  (∀ id', id' ≠ id → activations m' !! id' = activations m !! id').
Proof.
  intros Hm Hw id m'.
  destruct (further_write op Hw) as (d & s & c & v & w & Hop).
  unfold m'. rewrite Hop.
  destruct (write_operation_effect d s c v w transactionId m)
    as (Hid & _ & Hact & Hp & _).
  fold id in Hid, Hact, Hp.
  destruct (attainable_consistent m Hm) as [_ H2].
  assert (Hfresh : activations m !! id = None).
  { destruct (activations m !! id) eqn:Ha; [|done].
    destruct (H2 id (mk_is_Some _ _ Ha)) as (n & Hn & Hle).
    unfold id, awaited in Hn.
    destruct (truthy transactionId); apply (inj pretty) in Hn; lia. }
  repeat split; try done.
  - eexists. rewrite Hact, lookup_insert_eq. by split.
  - by rewrite Hp, lookup_insert_eq.
  - intros id' Hne. by rewrite Hact, lookup_insert_ne.
Qed.

End Delivery.
Section Plain_write_properties.
Context `{Api : BleErrorApi}.

(** X22. The two plain writes hand the value to the native module as it is,
    with the response flag set by [writeCharacteristicWithResponseForDevice]
    and cleared by [writeCharacteristicWithoutResponseForDevice]. Composed
    with [base64ArrayBuffer] they transmit the bytes unchanged: what the
    transport decodes from the value written is the array that was
    encoded. *)
Theorem plain_write_round_trip (bytes : list Z)
    (deviceIdentifier serviceUUID characteristicUUID : string)
    (transactionId : option string) (m : Manager) :
  Forall is_byte bytes →
  let value := base64ArrayBuffer bytes in
  let m1 := exec (writeCharacteristicWithResponseForDevice deviceIdentifier serviceUUID
                    characteristicUUID value transactionId) m in
  let m2 := exec (writeCharacteristicWithoutResponseForDevice deviceIdentifier
                    serviceUUID characteristicUUID value transactionId) m in
  calls m1 = calls m ++
    [WriteCharacteristicForDevice deviceIdentifier serviceUUID characteristicUUID
       value true (filled transactionId m)] ∧
  calls m2 = calls m ++
    [WriteCharacteristicForDevice deviceIdentifier serviceUUID characteristicUUID
       value false (filled transactionId m)] ∧
  written m1 = written m ++ [Some bytes] ∧
  written m2 = written m ++ [Some bytes].
Proof.
  intros Hb value m1 m2.
  unfold m1, m2, writeCharacteristicWithResponseForDevice,
    writeCharacteristicWithoutResponseForDevice.
  split; [apply write_operation_effect|]. split; [apply write_operation_effect|].
  rewrite !write_operation_written. unfold value.
  by rewrite decode_base64ArrayBuffer, (Uint8Array_of_bytes _ Hb).
Qed.

End Plain_write_properties.
Section Monitoring_properties.
Context `{Api : BleErrorApi}.

(** Every monitoring operation is one call into the native module under the
    filled transaction id, followed by [_handleMonitorCharacteristic] for
    the same id. *)
Lemma monitoring_runs (op : MonitoringOperation) (listener : Listener)
    (transactionId : option string) (m : Manager) :
  exec (monitoring op listener transactionId) m =
  exec (_handleMonitorCharacteristic (filled transactionId m) listener)
    (upd_calls (λ l, l ++ [monitor_call op (filled transactionId m)])
       (snd (fill transactionId m))).
Proof.
  unfold filled, exec.
  destruct op; unfold monitoring, monitor_call, monitorCharacteristicForDevice,
    monitorScaleResponse, monitorAlternativeScaleFinalResponse,
    listenForAlternativeScaleResponse, monitorTrackerResponse,
    _monitorCharacteristicForService, _monitorCharacteristic,
    monitorBloodPressureResponse, monitorGlucometerResponse, monitorOximeterResponse,
    bind, fill;
    destruct (truthy transactionId); reflexivity.
Qed.

Lemma transaction_of_monitor_call (op : MonitoringOperation) (transactionId : string) :
  transaction_of (monitor_call op transactionId) = Some transactionId.
Proof. by destruct op. Qed.

Lemma fill_state (transactionId : option string) (m : Manager) :
  calls (snd (fill transactionId m)) = calls m ∧
  emitter (snd (fill transactionId m)) = emitter m ∧
  emitter_next (snd (fill transactionId m)) = emitter_next m ∧
  _errorCodesToMessagesMapping (snd (fill transactionId m))
    = _errorCodesToMessagesMapping m.
Proof. unfold fill. by destruct (truthy transactionId). Qed.

(** X23. A monitoring operation and its listener use the same transaction
    id: every monitoring operation makes one call into the native module,
    carrying the filled transaction id, and registers the listener under
    that id, so that a read event tagged with it reaches the caller's
    listener, with the characteristic or with the parsed error. *)
Theorem monitoring_hears_its_events (op : MonitoringOperation) (listener : Listener)
    (transactionId : option string) (error : option string) (characteristic : Native)
    (m : Manager) :
  let m1 := exec (monitoring op listener transactionId) m in
  let tag := filled transactionId m in
  let event := (error, characteristic, tag) in
  calls m1 = calls m ++ [monitor_call op tag] ∧
  transaction_of (monitor_call op tag) = Some tag ∧
  emitter m1 !! emitter_next m = Some (MonitorListener tag listener) ∧
  (∃ call,
     delivery (_errorCodesToMessagesMapping m) event (MonitorListener tag listener)
       = Some call ∧
     callee call = listener ∧
     call ∈ heard (emit_ReadEvent event m1)).
Proof.
  intros m1 tag event.
  pose proof (monitoring_runs op listener transactionId m) as Hrun.
  destruct (fill_state transactionId m) as (Hc & He & Hn & Hmap).
  fold tag in Hrun. fold m1 in Hrun.
  unfold exec in Hrun. rewrite _handleMonitorCharacteristic_state in Hrun.
  simpl in Hrun. rewrite Hc, He, Hn, Hmap in Hrun.
  assert (Hem : emitter m1 !! emitter_next m = Some (MonitorListener tag listener)).
  { rewrite Hrun. simpl. by rewrite lookup_insert_eq. }
  split; [by rewrite Hrun|]. split; [apply transaction_of_monitor_call|].
  split; [done|].
  assert (Hd : ∃ c, delivery (_errorCodesToMessagesMapping m) event
                      (MonitorListener tag listener) = Some c ∧ callee c = listener).
  { unfold event. simpl. rewrite String.eqb_refl.
    destruct (truthy error); by eexists. }
  destruct Hd as (c & Hd & Hcallee). exists c. split; [done|]. split; [done|].
  unfold emit_ReadEvent, exec.
  destruct (deliver_all event (map_to_list (emitter m1)).*2 m1) as (Hh & _).
  rewrite Hh. apply elem_of_app. right.
  apply list_elem_of_omap. exists (MonitorListener tag listener).
  split.
  - apply list_elem_of_fmap. exists (emitter_next m, MonitorListener tag listener).
    split; [done|]. by apply elem_of_map_to_list.
  - assert (Hm1 : _errorCodesToMessagesMapping m1 = _errorCodesToMessagesMapping m)
      by (by rewrite Hrun).
    by rewrite Hm1.
Qed.

End Monitoring_properties.

(** X24. [base64ArrayBuffer] encodes its argument through a [Uint8Array]:
    for every array of integers the text decodes to the elements modulo 256,
    and an array encodes like the array of its elements modulo 256. *)
Theorem base64ArrayBuffer_wraps (arrayBuffer : list Z) :
  let bytes := (λ z, z mod 256) <$> arrayBuffer in
  Base64Std.decode (base64ArrayBuffer arrayBuffer) = Some bytes ∧
  base64ArrayBuffer arrayBuffer = base64ArrayBuffer bytes ∧
  Forall is_byte bytes.
Proof.
  intros bytes.
  assert (Hb : Forall is_byte bytes).
  { unfold bytes. apply Forall_fmap, Forall_true. intros z.
    apply (ToUint8_byte (Num z)). }
  split; [apply decode_base64ArrayBuffer|]. split; [|done].
  rewrite !base64ArrayBuffer_groups. f_equal.
  by rewrite (Uint8Array_of_bytes bytes Hb).
Qed.
(** ** The statements on an example *)

Import Example_api.

Lemma two_pending_reachable : reachable two_pending.
Proof.
  unfold two_pending.
  eapply reachable_step; [eapply reachable_step; [apply reachable_new|]|];
    apply step_call.
Qed.

(** C2. With [./BleError] as modelled in [Example_api]: if the manager is
    destroyed while mediated operations are pending, every one of them fails
    with a structured error, but not with the one [destroy] built. The
    activation throws [parseBleError(error.message)]; the message of the
    error built for [BluetoothManagerDestroyed] is the text of the table for
    that code, and where that text is not a payload (as in the default table)
    the error the caller receives has the code of the unknown error and the
    text as its reason. *)
Theorem destroy_loses_error_code (m : Manager) (id : string) :
  reachable m →
  pending m id →
  let destroyed_text :=
    message_for (_errorCodesToMessagesMapping m) BluetoothManagerDestroyed in
  payload_code destroyed_text = None →
  ∃ e : BleError,
    outcome (run_jobs (exec destroy m)) id = Some (inr e) ∧
    e = {| error_code := UnknownError; error_reason := Some destroyed_text;
           error_message := message_for (_errorCodesToMessagesMapping m) UnknownError |} ∧
    BleError_errorCode e = UnknownError ∧
    BleError_errorCode e ≠ BluetoothManagerDestroyed.
Proof.
  intros Hreach Hp destroyed_text Htext.
  eexists. split; [apply (destroy_throws_parsed_message m id Hreach Hp)|].
  change (parseBleError
            (BleError_message
               (new_BleError
                  {| errorCode := BluetoothManagerDestroyed; attErrorCode := None;
                     iosErrorCode := None; androidErrorCode := None; reason := None |}
                  (_errorCodesToMessagesMapping m)))
            (_errorCodesToMessagesMapping m))
    with (parse destroyed_text (_errorCodesToMessagesMapping m)).
  unfold parse. rewrite Htext.
  split; [reflexivity|]. split; [reflexivity|]. discriminate.
Qed.

Lemma destroy_loses_error_code_witness :
  reachable two_pending ∧ pending two_pending "1" ∧
  payload_code "BleManager was destroyed" = None ∧
  ∃ e : BleError,
    outcome (run_jobs (exec destroy two_pending)) "1" = Some (inr e) ∧
    e = {| error_code := UnknownError;
           error_reason := Some "BleManager was destroyed";
           error_message :=
             "Unknown error occurred. This is probably a bug! Check reason property." |} ∧
    BleError_errorCode e = UnknownError ∧
    BleError_errorCode e ≠ BluetoothManagerDestroyed.
Proof.
  assert (Hp : pending two_pending "1").
  { eexists. split; reflexivity. }
  split; [exact two_pending_reachable|]. split; [exact Hp|].
  split; [reflexivity|].
  exact (destroy_loses_error_code two_pending "1" two_pending_reachable Hp eq_refl).
Defined.

Lemma monitor_transaction_isolation_witness :
  "A" ≠ "B" ∧
  run_listener (MonitorListener "B" 7%nat) (None, "value", "A") fresh = (Normal tt, fresh).
Proof.
  assert (H : "A" ≠ "B") by discriminate.
  split; [exact H|].
  exact (proj1 (proj2 (monitor_transaction_isolation "B" "A" 7%nat None "value"
                         fresh fresh H))).
Defined.

(** C1 as stated fails: after [monitorCharacteristicForDevice] with
    transaction id [tx], the second [remove()] of the returned subscription
    issues [cancelTransaction] again. *)
Lemma monitor_second_remove_cancels_again :
  let started := monitorCharacteristicForDevice "device" "service" "characteristic"
                   7%nat (Some "tx") fresh in
  ∃ subscription,
    fst started = Normal subscription ∧
    let once := exec (remove subscription) (snd started) in
    let twice := exec (remove subscription) once in
    calls twice ≠ calls once ∧
    calls twice = calls once ++ [CancelTransaction "tx"] ∧
    calls twice =
      [CreateClient;
       MonitorCharacteristicForDevice "device" "service" "characteristic" "tx";
       CancelTransaction "tx"; CancelTransaction "tx"].
Proof.
  eexists. split; [reflexivity|]. cbv zeta.
  split; [|split]; [|reflexivity..].
  intros H. apply (f_equal length) in H. simpl in H. discriminate H.
Qed.


(** ** The further statements on examples *)

Lemma two_pending_attainable : attainable two_pending.
Proof. apply reachable_attainable, two_pending_reachable. Qed.

(** A manager with one operation settled by its transport promise and one
    still pending. *)
Lemma one_settled_attainable :
  attainable (settle "1" (Fulfilled "value") two_pending).
Proof.
  eapply attainable_move; [apply two_pending_attainable|].
  apply move_step, step_settle.
Qed.





Lemma glucometer_frames_witness :
  let t := {| getFullYear := 2024; getMonth := 11; getDate := 31;
              getHours := 23; getMinutes := 59 |} in
  wall_clock t ∧
  setGlucometerTime_payload t
    = [90; 10; 0; 2024 mod 100; 11 + 1; 31; 23; 59; 0;
       (90 + 10 + 0 + 2024 mod 100 + (11 + 1) + 31 + 23 + 59 + 2) mod 256] ∧
  fetchAdditionalGlucometerRecord_payload t
    = [90; 10; 3; 2024 mod 100; 11 + 1; 31; 23; 59; 0;
       (90 + 10 + 0 + 2024 mod 100 + (11 + 1) + 31 + 23 + 59 + 2) mod 256].
Proof.
  intros t.
  assert (Ht : wall_clock t) by (unfold wall_clock, t; simpl; lia).
  split; [exact Ht|].
  pose proof (glucometer_frames t "device" true None fresh Ht) as H.
  split; [exact (proj1 H)|exact (proj1 (proj2 H))].
Defined.

Lemma setBloodPressureTime_frame_witness :
  calendar_fields 24 2 5 13 45 12 ∧
  written (exec (setBloodPressureTime (moment_reading 24 2 5 13 45 12) "device" None)
             fresh)
  = written fresh ++
    [Some [2; 64; 220; 7; 176; 24; 2 + 1; 5; 13; 45; 12;
           xor_bytes [64; 220; 7; 176; 24; 2 + 1; 5; 13; 45; 12]]].
Proof.
  assert (Hf : calendar_fields 24 2 5 13 45 12) by (unfold calendar_fields; lia).
  split; [exact Hf|].
  exact (proj1 (proj2 (setBloodPressureTime_frame 24 2 5 13 45 12 "device" None fresh
                         Hf))).
Defined.

Lemma settlement_is_final_witness :
  let m := settle "1" (Fulfilled "value") two_pending in
  let m' := exec destroy m in
  attainable m ∧ later m m' ∧
  (∀ id a s, activations m !! id = Some a → race a = Some s →
             ∃ a', activations m' !! id = Some a' ∧ race a' = Some s) ∧
  (∀ id o, outcome m id = Some o → outcome m' id = Some o).
Proof.
  intros m m'.
  assert (Hl : later m m').
  { eapply later_move; [apply later_now|]. apply move_step, step_destroy. }
  split; [exact one_settled_attainable|]. split; [exact Hl|].
  exact (settlement_is_final m m' one_settled_attainable Hl).
Defined.

Lemma callPromise_completes_witness :
  attainable two_pending ∧ pending two_pending "1" ∧
  resume "1" two_pending = two_pending ∧
  outcome (resume "1" (settle "1" (Fulfilled "value") two_pending)) "1"
    = Some (inl "value").
Proof.
  assert (Hp : pending two_pending "1").
  { eexists. split; reflexivity. }
  split; [exact two_pending_attainable|]. split; [exact Hp|].
  pose proof (callPromise_completes two_pending "1" (Fulfilled "value")
                two_pending_attainable Hp) as H.
  split; [exact (proj1 H)|exact (proj1 (proj2 H))].
Defined.

Lemma unique_ids_never_repeat_witness :
  let m' := exec (_callPromise Awaited) (exec _nextUniqueID fresh) in
  later (exec _nextUniqueID fresh) m' ∧
  fst (_nextUniqueID m') ≠ fst (_nextUniqueID fresh).
Proof.
  intros m'.
  assert (Hl : later (exec _nextUniqueID fresh) m').
  { eapply later_move; [apply later_now|]. apply move_step, step_call. }
  split; [exact Hl|].
  exact (unique_ids_never_repeat fresh m' Hl).
Defined.

Lemma destroy_spares_settled_witness :
  let m := settle "1" (Fulfilled "value") two_pending in
  attainable m ∧
  activations m !! "1"
    = Some {| race := Some (Fulfilled "value"); resumed := None; chained := Awaited |} ∧
  outcome (run_jobs (exec destroy m)) "1" = Some (inl "value").
Proof.
  intros m.
  assert (Ha : activations m !! "1"
               = Some {| race := Some (Fulfilled "value"); resumed := None;
                         chained := Awaited |}) by reflexivity.
  split; [exact one_settled_attainable|]. split; [exact Ha|].
  exact (destroy_spares_settled m "1" _ (Fulfilled "value") one_settled_attainable
           Ha eq_refl eq_refl).
Defined.

Lemma destroy_completes_everything_witness :
  attainable two_pending ∧
  _activePromises (run_jobs (exec destroy two_pending)) = ∅.
Proof.
  split; [exact two_pending_attainable|].
  exact (proj1 (destroy_completes_everything two_pending two_pending_attainable)).
Defined.

(** A manager with one monitor running. *)
Lemma one_monitor_attainable :
  attainable (exec (monitorTrackerResponse "device" 7%nat None) fresh).
Proof.
  eapply attainable_move; [apply attainable_new|].
  apply move_step, (step_monitor _ (TrackerResponse "device")).
Qed.

Lemma destroy_releases_subscriptions_witness :
  let m := exec (monitorTrackerResponse "device" 7%nat None) fresh in
  attainable m ∧
  _activeSubscriptions (exec destroy m) = ∅ ∧
  calls (exec destroy m) = calls m ++ [DestroyClient].
Proof.
  intros m.
  pose proof (destroy_releases_subscriptions m one_monitor_attainable) as H.
  split; [exact one_monitor_attainable|].
  split; [exact (proj1 H)|exact (proj2 (proj2 H))].
Defined.

Lemma operation_returns_fresh_pending_witness :
  let op := Tracker (Vibration (Num 5)) "device" in
  attainable two_pending ∧ writes op = true ∧
  fst (further op None two_pending) = Normal (awaited None two_pending) ∧
  activations two_pending !! awaited None two_pending = None.
Proof.
  intros op.
  pose proof (operation_returns_fresh_pending op None two_pending
                two_pending_attainable eq_refl) as H.
  split; [exact two_pending_attainable|]. split; [reflexivity|].
  split; [exact (proj1 H)|exact (proj1 (proj2 H))].
Defined.

Lemma plain_write_round_trip_witness :
  Forall is_byte [77; 97; 110; 255] ∧
  written (exec (writeCharacteristicWithResponseForDevice "device" "service"
                   "characteristic" (base64ArrayBuffer [77; 97; 110; 255]) None) fresh)
  = written fresh ++ [Some [77; 97; 110; 255]].
Proof.
  assert (Hb : Forall is_byte [77; 97; 110; 255]).
  { repeat (apply Forall_cons_2; [unfold is_byte; lia|]). apply Forall_nil_2. }
  split; [exact Hb|].
  exact (proj1 (proj2 (proj2 (plain_write_round_trip [77; 97; 110; 255] "device"
                                "service" "characteristic" None fresh Hb)))).
Defined.
